(** * Token-ring metadata: [locator/token_metadata.cc]

    A shallow embedding of [token_metadata_impl], [token_metadata] and
    [shared_token_metadata], followed by the properties of the ring index,
    the transition sets, the pending-range lookup and the publication
    protocol.

    Conventions.
    - [std::unordered_map] is a [gmap], [std::unordered_set] a [gset]; the
      iteration order of these containers is unspecified in C++ and is the
      canonical order of [map_to_list] / [elements] here.
    - [std::vector] is a [list].
    - The C++ [long] ring version is a [Z]; signed overflow is undefined
      behaviour in C++ and is not modelled.
    - A method that mutates [*this] and may throw is a computation in the
      state-and-error monad [M]: the state is the object together with the
      thread-local static ring version, and a thrown exception keeps the
      state reached at the throw.
    - Coroutine yields ([co_await coroutine::maybe_yield()]) have no effect
      on the single-threaded state and are dropped. *)

From Stdlib Require Import ZArith Lia.
From stdpp Require Import base option list sorting gmap strings fin_maps fin_sets.

(* [naive_solver] clears hypotheses that its intro patterns consumed. *)
Set Warnings "-clear-no-such-hyp".

Local Open Scope Z_scope.

(** ** Tokens *)

Module dht.

(** Modelled from the spec: [dht::token] is declared outside this file. The
    spec asks for a totally ordered value with a defined [minimum_token] and
    [maximum_token]; the partitioner's token is a kind and an integer, the
    kinds ordered before-all-keys < key < after-all-keys. *)
Inductive token : Type :=
  | before_all_keys
  | key (data : Z)
  | after_all_keys.

Definition minimum_token : token := before_all_keys.
Definition maximum_token : token := after_all_keys.

Definition token_kind_rank (t : token) : Z :=
  match t with before_all_keys => 0 | key _ => 1 | after_all_keys => 2 end.

Definition token_data (t : token) : Z :=
  match t with key d => d | _ => 0 end.

(** [operator<] on tokens: kinds first, then the data of two keys. *)
Definition token_lt (a b : token) : Prop :=
  token_kind_rank a < token_kind_rank b
  ∨ (token_kind_rank a = token_kind_rank b ∧ token_data a < token_data b).

Definition token_le (a b : token) : Prop := ¬ token_lt b a.

#[global] Instance token_eq_dec : EqDecision token.
Proof. solve_decision. Defined.

#[global] Instance token_lt_dec : RelDecision token_lt.
Proof. intros a b. unfold token_lt. apply _. Defined.

#[global] Instance token_le_dec : RelDecision token_le.
Proof. intros a b. unfold token_le. apply _. Defined.

Definition token_encode (t : token) : Z + bool :=
  match t with
  | before_all_keys => inr false
  | key d => inl d
  | after_all_keys => inr true
  end.

Definition token_decode (x : Z + bool) : token :=
  match x with
  | inr false => before_all_keys
  | inl d => key d
  | inr true => after_all_keys
  end.

#[global] Instance token_countable : Countable token.
Proof.
  refine (inj_countable' token_encode token_decode _).
  intros []; reflexivity.
Defined.

End dht.

Export dht.

(** ** Addresses, identifiers, exceptions *)

(** [gms::inet_address], [locator::host_id] and [sstring] are opaque
    identifiers for this file; only their equality is used. *)
Abbreviation inet_address := N (only parsing).
Abbreviation host_id := N (only parsing).
Abbreviation sstring := string (only parsing).

(** The messages passed to [on_internal_error] in this file. *)
Inductive internal_error_msg : Type :=
  | must_be_member_of_topology (endpoint : inet_address)
  | must_be_member_or_pending (endpoint : inet_address)
  | must_not_set_non_increasing_version (from to : Z).

(** The messages of the [std::runtime_error]s thrown in this file. *)
Inductive runtime_error_msg : Type :=
  | sorted_tokens_is_empty
  | bootstrap_token_collision (old_endpoint endpoint : inet_address) (t : token)
  | invalid_interval_bounds.

(** What a call can throw: [on_internal_error] (invariant violation), a
    [std::runtime_error], or whatever a caller-supplied callback throws. *)
Inductive exception : Type :=
  | on_internal_error (msg : internal_error_msg)
  | runtime_error (msg : runtime_error_msg)
  | callback_exception (what : string).

#[global] Instance internal_error_msg_eq_dec : EqDecision internal_error_msg.
Proof. solve_decision. Defined.
#[global] Instance runtime_error_msg_eq_dec : EqDecision runtime_error_msg.
Proof. solve_decision. Defined.
#[global] Instance exception_eq_dec : EqDecision exception.
Proof. solve_decision. Defined.

(** ** The state-and-error monad *)

(** The state a method runs in: the object it is called on and the
    thread-local [_static_ring_version] shared by every snapshot. *)
Record st (T : Type) : Type := mk_st {
  this : T;
  _static_ring_version : Z
}.
Arguments mk_st {T} _ _.
Arguments this {T} _.
Arguments _static_ring_version {T} _.

Definition M (T A : Type) : Type := st T → (exception + A) * st T.

Definition ret {T A} (a : A) : M T A := λ s, (inr a, s).

Definition bind {T A B} (m : M T A) (k : A → M T B) : M T B :=
  λ s, match m s with
       | (inl e, s') => (inl e, s')
       | (inr a, s') => k a s'
       end.

Definition throw {T A} (e : exception) : M T A := λ s, (inl e, s).

Definition get {T} : M T T := λ s, (inr (this s), s).

Definition modify {T} (f : T → T) : M T unit :=
  λ s, (inr tt, mk_st (f (this s)) (_static_ring_version s)).

(** Runs a computation on another object [o] (a local variable of the
    caller, or the target of a pointer): the static ring version is threaded
    through, [*this] is not touched, and the final value of [o] comes back
    with the outcome, so that the caller decides what an exception does. *)
Definition on_object {T U A} (o : U) (m : M U A) : M T ((exception + A) * U) :=
  λ s, let '(r, s') := m (mk_st o (_static_ring_version s)) in
       (inr (r, this s'), mk_st (this s) (_static_ring_version s')).

#[global] Instance M_ret {T} : MRet (M T) := λ A, ret.
#[global] Instance M_bind {T} : MBind (M T) := λ A B k m, bind m k.

(** ** Topology *)

Inductive node_state : Type := joining | normal | leaving | replacing | left_.

Record endpoint_dc_rack : Type := mk_dc_rack {
  dc : sstring;
  rack : sstring
}.

Record node : Type := mk_node {
  node_host_id : option host_id;
  node_dc_rack : endpoint_dc_rack;
  node_st : option node_state
}.

#[global] Instance node_state_eq_dec : EqDecision node_state.
Proof. solve_decision. Defined.
#[global] Instance endpoint_dc_rack_eq_dec : EqDecision endpoint_dc_rack.
Proof. solve_decision. Defined.
#[global] Instance node_eq_dec : EqDecision node.
Proof. solve_decision. Defined.

Module topology.

(** Modelled from the spec: [locator::topology] is declared outside this
    file. The spec gives it as the per-endpoint attributes (host-id, location
    and optional node state) with [find-node], [add-or-update] and
    [remove-endpoint]; the index by host-id is derived from it. *)
Abbreviation t := (gmap inet_address node) (only parsing).

Definition has_endpoint (topo : t) (ep : inet_address) : bool :=
  bool_decide (is_Some (topo !! ep)).

(** add-or-update(endpoint, location, optional state): inserts or updates
    location and state, and does not modify the host-id. *)
Definition add_or_update_endpoint (ep : inet_address) (dr : endpoint_dc_rack)
    (opt_st : option node_state) (topo : t) : t :=
  match topo !! ep with
  | Some n =>
      <[ep := mk_node (node_host_id n) dr
                (match opt_st with Some s => Some s | None => node_st n end)]> topo
  | None => <[ep := mk_node None dr opt_st]> topo
  end.

(** remove-endpoint(endpoint): removes the endpoint with its host-id binding
    and its location. *)
Definition remove_endpoint (ep : inet_address) (topo : t) : t :=
  delete ep topo.

(** clone: an independent deep copy. *)
Definition clone_gently (topo : t) : t := topo.

End topology.

(** ** Token ranges and Boost.ICL intervals *)

(** Modelled from the spec: [range<dht::token>] is declared outside this
    file. The spec gives a range two sides, each either unbounded or a bound
    made of a token and an inclusive flag. *)
Record range_bound : Type := mk_bound {
  value : token;
  is_inclusive : bool
}.

Record range : Type := mk_range {
  start : option range_bound;
  end_ : option range_bound
}.

(** [range<dht::token>(token)]: the range holding exactly one token. *)
Definition singular_range (t : token) : range :=
  mk_range (Some (mk_bound t true)) (Some (mk_bound t true)).

#[global] Instance range_bound_eq_dec : EqDecision range_bound.
Proof. solve_decision. Defined.
#[global] Instance range_eq_dec : EqDecision range.
Proof. solve_decision. Defined.

Module icl.

(** [boost::icl::interval_bounds]: the [bits()] of an interval's bounds. *)
Definition static_open : N := 0.
Definition static_left_open : N := 1.
Definition static_right_open : N := 2.
Definition static_closed : N := 3.

(** [boost::icl::interval<token>::interval_type]: two tokens and the bits
    saying which sides are closed. *)
Record interval : Type := mk_interval {
  lower : token;
  upper : token;
  bits : N
}.

Definition open (l u : token) : interval := mk_interval l u static_open.
Definition left_open (l u : token) : interval := mk_interval l u static_left_open.
Definition right_open (l u : token) : interval := mk_interval l u static_right_open.
Definition closed (l u : token) : interval := mk_interval l u static_closed.

#[global] Instance interval_eq_dec : EqDecision interval.
Proof. solve_decision. Defined.

(** Bit 1 closes the left side, bit 0 the right side. *)
Definition left_closed (i : interval) : bool := N.testbit (bits i) 1.
Definition right_closed (i : interval) : bool := N.testbit (bits i) 0.

Definition contains (i : interval) (t : token) : bool :=
  (if left_closed i then bool_decide (token_le (lower i) t)
   else bool_decide (token_lt (lower i) t))
  && (if right_closed i then bool_decide (token_le t (upper i))
      else bool_decide (token_lt t (upper i))).

(** An interval over a continuous domain is empty when its upper bound is
    below its lower one, or equal to it unless both sides are closed. *)
Definition is_empty (i : interval) : bool :=
  if left_closed i && right_closed i
  then bool_decide (token_lt (upper i) (lower i))
  else bool_decide (token_le (upper i) (lower i)).

(** [boost::icl::interval_map<token, std::unordered_set<inet_address>>] is a
    library type. It is represented by the contributions added to it, which
    fixes the set associated with every token: the union of the sets of the
    contributions whose interval holds the token. Empty intervals and empty
    sets leave no segment behind. *)
Abbreviation interval_map := (list (interval * gset inet_address)) (only parsing).

Definition empty_map : interval_map := [].

(** [m += std::make_pair(i, s)] *)
Definition add (m : interval_map) (x : interval * gset inet_address) : interval_map :=
  if is_empty x.1 || bool_decide (x.2 = ∅) then m else x :: m.

(** [m.empty()] *)
Definition empty (m : interval_map) : bool :=
  match m with [] => true | _ => false end.

(** The set associated with token [t]. *)
Definition at_token (m : interval_map) (t : token) : gset inet_address :=
  ⋃ ((λ x : interval * gset inet_address, if contains x.1 t then x.2 else ∅) <$> m).

(** [m.find(i)] for the closed interval [i] of one token: the set of the
    segment holding that token, when there is one. *)
Definition find (m : interval_map) (i : interval) : option (gset inet_address) :=
  let s := at_token m (lower i) in
  if bool_decide (s = ∅) then None else Some s.

End icl.

(** ** [remove_by_value] *)

(** Erases every entry of [container] whose mapped value is [value]. *)
Definition remove_by_value `{Countable K} (container : gmap K inet_address)
    (value : inet_address) : gmap K inet_address :=
  filter (λ kv, kv.2 ≠ value) container.

(** A loop [for (x : l) body(x)] whose body may throw. *)
Fixpoint for_each {T A} (l : list A) (body : A → M T unit) : M T unit :=
  match l with
  | [] => mret tt
  | x :: l' => body x;; for_each l' body
  end.

(** ** [std::lower_bound] *)

(** The binary search of [std::lower_bound] on positions [first, first+len)
    of [v]; [fuel] bounds the number of halvings, [len] of them suffice.
    [middle] is a position of [v] as long as [first + len] does not pass
    its end, so the lookup finds a token. *)
Fixpoint lower_bound_loop (fuel : nat) (v : list token) (val : token)
    (first len : nat) : nat :=
  match fuel with
  | O => first
  | S fuel' =>
      match len with
      | O => first
      | _ =>
          let half := (len / 2)%nat in
          let middle := (first + half)%nat in
          match v !! middle with
          | Some x =>
              if decide (token_lt x val)
              then lower_bound_loop fuel' v val (middle + 1)%nat (len - half - 1)%nat
              else lower_bound_loop fuel' v val first half
          | None => first
          end
      end
  end.

Definition lower_bound (v : list token) (val : token) : nat :=
  lower_bound_loop (length v) v val 0%nat (length v).

(** ** [token_metadata_impl] *)

Module token_metadata_impl.

Record t : Type := mk {
  _token_to_endpoint_map : gmap token inet_address;
  _normal_token_owners : gset inet_address;
  _bootstrap_tokens : gmap token inet_address;
  _leaving_endpoints : gset inet_address;
  _replacing_endpoints : gmap inet_address inet_address;
  _pending_ranges_interval_map : gmap sstring icl.interval_map;
  _sorted_tokens : list token;
  _topology : topology.t;
  _ring_version : Z
}.

#[global] Instance t_eq_dec : EqDecision t.
Proof. solve_decision. Defined.

(** Assignments to one member. *)
Definition with_token_to_endpoint_map v (tm : t) : t :=
  mk v (_normal_token_owners tm) (_bootstrap_tokens tm) (_leaving_endpoints tm)
     (_replacing_endpoints tm) (_pending_ranges_interval_map tm)
     (_sorted_tokens tm) (_topology tm) (_ring_version tm).
Definition with_normal_token_owners v (tm : t) : t :=
  mk (_token_to_endpoint_map tm) v (_bootstrap_tokens tm) (_leaving_endpoints tm)
     (_replacing_endpoints tm) (_pending_ranges_interval_map tm)
     (_sorted_tokens tm) (_topology tm) (_ring_version tm).
Definition with_bootstrap_tokens v (tm : t) : t :=
  mk (_token_to_endpoint_map tm) (_normal_token_owners tm) v (_leaving_endpoints tm)
     (_replacing_endpoints tm) (_pending_ranges_interval_map tm)
     (_sorted_tokens tm) (_topology tm) (_ring_version tm).
Definition with_leaving_endpoints v (tm : t) : t :=
  mk (_token_to_endpoint_map tm) (_normal_token_owners tm) (_bootstrap_tokens tm) v
     (_replacing_endpoints tm) (_pending_ranges_interval_map tm)
     (_sorted_tokens tm) (_topology tm) (_ring_version tm).
Definition with_replacing_endpoints v (tm : t) : t :=
  mk (_token_to_endpoint_map tm) (_normal_token_owners tm) (_bootstrap_tokens tm)
     (_leaving_endpoints tm) v (_pending_ranges_interval_map tm)
     (_sorted_tokens tm) (_topology tm) (_ring_version tm).
Definition with_pending_ranges_interval_map v (tm : t) : t :=
  mk (_token_to_endpoint_map tm) (_normal_token_owners tm) (_bootstrap_tokens tm)
     (_leaving_endpoints tm) (_replacing_endpoints tm) v
     (_sorted_tokens tm) (_topology tm) (_ring_version tm).
Definition with_sorted_tokens v (tm : t) : t :=
  mk (_token_to_endpoint_map tm) (_normal_token_owners tm) (_bootstrap_tokens tm)
     (_leaving_endpoints tm) (_replacing_endpoints tm) (_pending_ranges_interval_map tm)
     v (_topology tm) (_ring_version tm).
Definition with_topology v (tm : t) : t :=
  mk (_token_to_endpoint_map tm) (_normal_token_owners tm) (_bootstrap_tokens tm)
     (_leaving_endpoints tm) (_replacing_endpoints tm) (_pending_ranges_interval_map tm)
     (_sorted_tokens tm) v (_ring_version tm).
Definition with_ring_version v (tm : t) : t :=
  mk (_token_to_endpoint_map tm) (_normal_token_owners tm) (_bootstrap_tokens tm)
     (_leaving_endpoints tm) (_replacing_endpoints tm) (_pending_ranges_interval_map tm)
     (_sorted_tokens tm) (_topology tm) v.

(** [token_metadata_impl(cfg)] and [token_metadata_impl(shallow_copy, o)]:
    every container empty, ring version 0. *)
Definition init : t := mk ∅ ∅ ∅ ∅ ∅ ∅ [] ∅ 0.

Definition get_ring_version (tm : t) : Z := _ring_version tm.

(** [_ring_version = ++_static_ring_version] *)
Definition invalidate_cached_rings : M t unit :=
  λ s, let v := _static_ring_version s + 1 in
       (inr tt, mk_st (with_ring_version v (this s)) v).

Definition update_topology (ep : inet_address) (dr : endpoint_dc_rack)
    (opt_st : option node_state) (tm : t) : t :=
  with_topology (topology.add_or_update_endpoint ep dr opt_st (_topology tm)) tm.

(** The keys of the token map, pushed into a vector and sorted. *)
Definition sort_tokens (tm : t) : t :=
  with_sorted_tokens
    (merge_sort token_le (map_to_list (_token_to_endpoint_map tm)).*1) tm.

Definition sorted_tokens (tm : t) : list token := _sorted_tokens tm.

(** [update_normal_token_owners]: the endpoints of the token map, collected
    entry by entry. *)
Definition update_normal_token_owners (tm : t) : t :=
  with_normal_token_owners
    (map_fold (λ (_ : token) (ep : inet_address) (eps : gset inet_address),
                 {[ep]} ∪ eps) ∅ (_token_to_endpoint_map tm)) tm.

(** Phase 1 of [update_normal_tokens], one entry [(k, ep)] of the token map:
    [acc.1] is the token map and [acc.2] the [tokens] still to insert. *)
Definition erase_previously_owned_step (endpoint : inet_address)
    (k : token) (ep : inet_address)
    (acc : gmap token inet_address * gset token) : gmap token inet_address * gset token :=
  if decide (ep = endpoint) then
    if decide (k ∈ acc.2) then (acc.1, acc.2 ∖ {[k]})
    else (delete k acc.1, acc.2)
  else acc.

Definition erase_previously_owned (endpoint : inet_address) (tokens : gset token)
    (m : gmap token inet_address) : gmap token inet_address * gset token :=
  map_fold (erase_previously_owned_step endpoint) (m, tokens) m.

(** Phase 2c of [update_normal_tokens], one token [t] of the remaining
    [tokens]: [acc.1] is the token map and [acc.2] is [should_sort_tokens]. *)
Definition insert_token_step (endpoint : inet_address) (t : token)
    (acc : gmap token inet_address * bool) : gmap token inet_address * bool :=
  match acc.1 !! t with
  | None => (<[t := endpoint]> acc.1, true)
  | Some prev =>
      (if decide (prev ≠ endpoint) then <[t := endpoint]> acc.1 else acc.1, acc.2)
  end.

Definition insert_tokens (endpoint : inet_address) (tokens : gset token)
    (m : gmap token inet_address) : gmap token inet_address * bool :=
  set_fold (insert_token_step endpoint) (m, false) tokens.

Definition update_normal_tokens (tokens : gset token) (endpoint : inet_address)
    : M t unit :=
  if decide (tokens = ∅) then mret tt
  else
    tm ← get;
    if negb (topology.has_endpoint (_topology tm) endpoint)
    then throw (on_internal_error (must_be_member_of_topology endpoint))
    else
      let phase1 := erase_previously_owned endpoint tokens (_token_to_endpoint_map tm) in
      modify (with_token_to_endpoint_map phase1.1);;
      modify (λ tm, with_bootstrap_tokens (remove_by_value (_bootstrap_tokens tm) endpoint) tm);;
      modify (λ tm, with_leaving_endpoints (_leaving_endpoints tm ∖ {[endpoint]}) tm);;
      invalidate_cached_rings;;
      let phase2 := insert_tokens endpoint phase1.2 phase1.1 in
      modify (with_token_to_endpoint_map phase2.1);;
      modify update_normal_token_owners;;
      if phase2.2 then modify sort_tokens else mret tt.

(** [first_token_index]: throws on an empty vector, wraps to index 0 when
    [std::lower_bound] reaches the end. *)
Definition first_token_index (start : token) (tm : t) : exception + nat :=
  match _sorted_tokens tm with
  | [] => inl (runtime_error sorted_tokens_is_empty)
  | _ =>
      let it := lower_bound (_sorted_tokens tm) start in
      if decide (it = length (_sorted_tokens tm)) then inr 0%nat else inr it
  end.

(** [first_token]: [_sorted_tokens[first_token_index(start)]]. An index out
    of the vector cannot be read; by [first_token_index] it does not
    occur, and the model then keeps [start]. *)
Definition first_token (start : token) (tm : t) : exception + token :=
  match first_token_index start tm with
  | inl e => inl e
  | inr i => inr (default start (_sorted_tokens tm !! i))
  end.

(** [it != m.end() && it->second != endpoint] for [it = m.find(tok)]: the
    endpoint, other than [endpoint], that [tok] is mapped to in [m]. *)
Definition other_owner (m : gmap token inet_address) (endpoint : inet_address)
    (tok : token) : option inet_address :=
  match m !! tok with
  | Some old_endpoint => if decide (old_endpoint ≠ endpoint) then Some old_endpoint else None
  | None => None
  end.

(** One turn of the checking loop of [add_bootstrap_tokens]: the bootstrap
    tokens are looked at first, the normal tokens second. *)
Definition collision_at (tm : t) (endpoint : inet_address) (tok : token)
    : option exception :=
  match other_owner (_bootstrap_tokens tm) endpoint tok with
  | Some old_endpoint =>
      Some (runtime_error (bootstrap_token_collision old_endpoint endpoint tok))
  | None =>
      match other_owner (_token_to_endpoint_map tm) endpoint tok with
      | Some old_endpoint2 =>
          Some (runtime_error (bootstrap_token_collision old_endpoint2 endpoint tok))
      | None => None
      end
  end.

(** The checking loop: the exception of the first colliding token. *)
Fixpoint find_bootstrap_collision (tm : t) (endpoint : inet_address)
    (ts : list token) : option exception :=
  match ts with
  | [] => None
  | tok :: ts' =>
      match collision_at tm endpoint tok with
      | Some e => Some e
      | None => find_bootstrap_collision tm endpoint ts'
      end
  end.

Definition add_bootstrap_tokens (tokens : gset token) (endpoint : inet_address)
    : M t unit :=
  tm ← get;
  match find_bootstrap_collision tm endpoint (elements tokens) with
  | Some e => throw e
  | None =>
      modify (λ tm, with_bootstrap_tokens (remove_by_value (_bootstrap_tokens tm) endpoint) tm);;
      modify (λ tm, with_bootstrap_tokens
                      (set_fold (λ t b, <[t := endpoint]> b) (_bootstrap_tokens tm) tokens) tm)
  end.

Definition add_bootstrap_token (tok : token) (endpoint : inet_address) : M t unit :=
  add_bootstrap_tokens {[tok]} endpoint.

Definition remove_bootstrap_tokens (tokens : gset token) (tm : t) : t :=
  if decide (tokens = ∅) then tm
  else with_bootstrap_tokens
         (set_fold (λ t b, delete t b) (_bootstrap_tokens tm) tokens) tm.

Definition add_leaving_endpoint (endpoint : inet_address) (tm : t) : t :=
  with_leaving_endpoints ({[endpoint]} ∪ _leaving_endpoints tm) tm.

Definition del_leaving_endpoint (endpoint : inet_address) (tm : t) : t :=
  with_leaving_endpoints (_leaving_endpoints tm ∖ {[endpoint]}) tm.

Definition add_replacing_endpoint (existing_node replacing_node : inet_address)
    (tm : t) : t :=
  with_replacing_endpoints (<[existing_node := replacing_node]> (_replacing_endpoints tm)) tm.

Definition del_replacing_endpoint (existing_node : inet_address) (tm : t) : t :=
  with_replacing_endpoints (delete existing_node (_replacing_endpoints tm)) tm.

(** [token_metadata_impl::remove_endpoint]: it does not sort the tokens. *)
Definition remove_endpoint (endpoint : inet_address) : M t unit :=
  modify (λ tm, with_bootstrap_tokens (remove_by_value (_bootstrap_tokens tm) endpoint) tm);;
  modify (λ tm, with_token_to_endpoint_map
                  (remove_by_value (_token_to_endpoint_map tm) endpoint) tm);;
  modify (λ tm, with_normal_token_owners (_normal_token_owners tm ∖ {[endpoint]}) tm);;
  modify (λ tm, with_topology (topology.remove_endpoint endpoint (_topology tm)) tm);;
  modify (λ tm, with_leaving_endpoints (_leaving_endpoints tm ∖ {[endpoint]}) tm);;
  modify (del_replacing_endpoint endpoint);;
  invalidate_cached_rings.

(** [clone_only_token_map]: a shallow copy filled member by member. *)
Definition clone_only_token_map (clone_sorted_tokens : bool) (tm : t) : t :=
  let ret := init in
  let ret := with_token_to_endpoint_map (_token_to_endpoint_map tm) ret in
  let ret := with_normal_token_owners (_normal_token_owners tm) ret in
  let ret := with_topology (topology.clone_gently (_topology tm)) ret in
  if clone_sorted_tokens then with_sorted_tokens (_sorted_tokens tm) ret else ret.

Definition clone_async (tm : t) : t :=
  let ret := clone_only_token_map true tm in
  let ret := with_bootstrap_tokens (_bootstrap_tokens tm) ret in
  let ret := with_leaving_endpoints (_leaving_endpoints tm) ret in
  let ret := with_replacing_endpoints (_replacing_endpoints tm) ret in
  let ret := with_pending_ranges_interval_map (_pending_ranges_interval_map tm) ret in
  with_ring_version (_ring_version tm) ret.

(** [clone_after_all_left]: the clone is a new object; [*this] only lends
    its members. *)
Definition clone_after_all_left : M t t :=
  tm ← get;
  r ← on_object (clone_only_token_map false tm)
        (for_each (elements (_leaving_endpoints tm)) remove_endpoint;;
         modify sort_tokens);
  mret r.2.

(** [range_to_interval] *)
Definition range_to_interval (r : range) : icl.interval :=
  let start_inclusive := match start r with Some b => is_inclusive b | None => false end in
  let end_inclusive := match end_ r with Some b => is_inclusive b | None => false end in
  let start_ := match start r with Some b => value b | None => minimum_token end in
  let end' := match end_ r with Some b => value b | None => maximum_token end in
  if bool_decide (start_inclusive = false) && bool_decide (end_inclusive = false)
  then icl.open start_ end'
  else if bool_decide (start_inclusive = false) && bool_decide (end_inclusive = true)
  then icl.left_open start_ end'
  else if bool_decide (start_inclusive = true) && bool_decide (end_inclusive = false)
  then icl.right_open start_ end'
  else icl.closed start_ end'.

(** [interval_to_range] *)
Definition interval_to_range (i : icl.interval) : exception + range :=
  let bounds := icl.bits i in
  let mk_r (start_inclusive end_inclusive : bool) : exception + range :=
    inr (mk_range (Some (mk_bound (icl.lower i) start_inclusive))
                  (Some (mk_bound (icl.upper i) end_inclusive))) in
  if decide (bounds = icl.static_open) then mk_r false false
  else if decide (bounds = icl.static_left_open) then mk_r false true
  else if decide (bounds = icl.static_right_open) then mk_r true false
  else if decide (bounds = icl.static_closed) then mk_r true true
  else inl (runtime_error invalid_interval_bounds).

(** *** Pending ranges *)

(** [abstract_replication_strategy] is an interface implemented outside
    this file; the pending-range engine calls these two members. *)
Record abstract_replication_strategy : Type := mk_strategy {
  get_ranges : inet_address → t → list range;
  calculate_natural_endpoints : token → t → list inet_address
}.

(** [std::unordered_multimap<range<token>, inet_address>] *)
Abbreviation pending_multimap := (list (range * inet_address)) (only parsing).

(** [map[r].emplace(ep)] on the local [std::unordered_map] of
    [set_pending_ranges], kept as an association list with unique keys. *)
Fixpoint group_emplace (r : range) (ep : inet_address)
    (map : list (range * gset inet_address)) : list (range * gset inet_address) :=
  match map with
  | [] => [(r, {[ep]})]
  | x :: rest =>
      if decide (x.1 = r) then (x.1, {[ep]} ∪ x.2) :: rest
      else x :: group_emplace r ep rest
  end.

(** [set_pending_ranges]. Every endpoint is checked against the topology
    the first time it is met, which amounts to checking every entry. *)
Definition set_pending_ranges (keyspace_name : sstring)
    (new_pending_ranges : pending_multimap) : M t unit :=
  match new_pending_ranges with
  | [] =>
      modify (λ tm, with_pending_ranges_interval_map
                      (delete keyspace_name (_pending_ranges_interval_map tm)) tm)
  | _ =>
      tm ← get;
      match list_find (λ x : range * inet_address,
                         topology.has_endpoint (_topology tm) x.2 = false)
                      new_pending_ranges with
      | Some (_, x) => throw (on_internal_error (must_be_member_or_pending x.2))
      | None =>
          let map := foldl (λ map x, group_emplace x.1 x.2 map) [] new_pending_ranges in
          let interval_map :=
            foldl (λ im m, icl.add im (range_to_interval m.1, m.2)) icl.empty_map map in
          modify (λ tm, with_pending_ranges_interval_map
                          (<[keyspace_name := interval_map]> (_pending_ranges_interval_map tm)) tm)
      end
  end.

Definition has_pending_ranges (keyspace_name : sstring) (endpoint : inet_address)
    (tm : t) : bool :=
  match _pending_ranges_interval_map tm !! keyspace_name with
  | None => false
  | Some m => existsb (λ item : icl.interval * gset inet_address,
                         bool_decide (endpoint ∈ item.2)) m
  end.

Definition calculate_pending_ranges_for_leaving (tm : t)
    (strategy : abstract_replication_strategy)
    (new_pending_ranges : pending_multimap) (all_left_metadata : t) : pending_multimap :=
  if decide (_leaving_endpoints tm = ∅) then new_pending_ranges
  else
    let affected_ranges :=
      remove_dups (concat ((λ endpoint, get_ranges strategy endpoint tm)
                             <$> elements (_leaving_endpoints tm))) in
    let metadata := clone_only_token_map true tm in
    foldl (λ acc r,
             let tok := match end_ r with Some b => value b | None => maximum_token end in
             let current_endpoints := calculate_natural_endpoints strategy tok metadata in
             let new_endpoints := calculate_natural_endpoints strategy tok all_left_metadata in
             foldl (λ acc ep,
                      if decide (ep ∈ current_endpoints) then acc else (r, ep) :: acc)
                   acc new_endpoints)
          new_pending_ranges affected_ranges.

Definition calculate_pending_ranges_for_replacing (tm : t)
    (strategy : abstract_replication_strategy)
    (new_pending_ranges : pending_multimap) : pending_multimap :=
  if decide (_replacing_endpoints tm = ∅) then new_pending_ranges
  else
    foldl (λ acc (node : inet_address * inet_address),
             foldl (λ acc x, (x, node.2) :: acc) acc (get_ranges strategy node.1 tm))
          new_pending_ranges (map_to_list (_replacing_endpoints tm)).

(** The bootstrap tokens grouped by endpoint ([tmp] in the source). *)
Definition bootstrap_tokens_by_endpoint (tm : t) : gmap inet_address (gset token) :=
  map_fold (λ (tok : token) (addr : inet_address) tmp,
              <[addr := {[tok]} ∪ default ∅ (tmp !! addr)]> tmp)
           ∅ (_bootstrap_tokens tm).

(** [calculate_pending_ranges_for_bootstrap] runs on [all_left_metadata],
    which it changes in place; [tm] is the object it is called on. *)
Definition calculate_pending_ranges_for_bootstrap (tm : t)
    (strategy : abstract_replication_strategy)
    (new_pending_ranges : pending_multimap)
    (get_dc_rack : inet_address → endpoint_dc_rack) : M t pending_multimap :=
  res ← foldl (λ (acc : M t pending_multimap) (x : inet_address * gset token),
                 new_pending_ranges ← acc;
                 modify (update_topology x.1 (get_dc_rack x.1) (Some joining));;
                 update_normal_tokens x.2 x.1;;
                 all_left_metadata ← get;
                 let address_ranges := get_ranges strategy x.1 all_left_metadata in
                 remove_endpoint x.1;;
                 mret (foldl (λ acc r, (r, x.1) :: acc) new_pending_ranges address_ranges))
              (mret new_pending_ranges) (map_to_list (bootstrap_tokens_by_endpoint tm));
  modify sort_tokens;;
  mret res.

Definition update_pending_ranges (strategy : abstract_replication_strategy)
    (keyspace_name : sstring) (get_dc_rack : inet_address → endpoint_dc_rack)
    : M t unit :=
  tm ← get;
  if bool_decide (_bootstrap_tokens tm = ∅) && bool_decide (_leaving_endpoints tm = ∅)
     && bool_decide (_replacing_endpoints tm = ∅)
  then set_pending_ranges keyspace_name []
  else
    let new_pending_ranges := calculate_pending_ranges_for_replacing tm strategy [] in
    all_left_metadata ← clone_after_all_left;
    let new_pending_ranges :=
      calculate_pending_ranges_for_leaving tm strategy new_pending_ranges all_left_metadata in
    r ← on_object all_left_metadata
          (calculate_pending_ranges_for_bootstrap tm strategy new_pending_ranges get_dc_rack);
    match r.1 with
    | inl e => throw e
    | inr new_pending_ranges => set_pending_ranges keyspace_name new_pending_ranges
    end.

(** [pending_endpoints_for] *)
Definition pending_endpoints_for (tok : token) (keyspace_name : sstring) (tm : t)
    : list inet_address :=
  match _pending_ranges_interval_map tm !! keyspace_name with
  | None => []
  | Some ks_map =>
      if icl.empty ks_map then []
      else
        let interval := range_to_interval (singular_range tok) in
        match icl.find ks_map interval with
        | Some endpoints => elements endpoints
        | None => []
        end
  end.

(** *** Read accessors and ring walks *)

Definition get_endpoint (tok : token) (tm : t) : option inet_address :=
  _token_to_endpoint_map tm !! tok.

(** [get_tokens]: the tokens mapped to [addr], pushed into a vector and
    sorted. *)
Definition get_tokens (addr : inet_address) (tm : t) : list token :=
  merge_sort token_le
    (filter (λ i : token * inet_address, i.2 = addr)
            (map_to_list (_token_to_endpoint_map tm))).*1.

Definition is_normal_token_owner (endpoint : inet_address) (tm : t) : bool :=
  bool_decide (endpoint ∈ _normal_token_owners tm).

Definition count_normal_token_owners (tm : t) : nat :=
  size (_normal_token_owners tm).

Definition is_leaving (endpoint : inet_address) (tm : t) : bool :=
  bool_decide (endpoint ∈ _leaving_endpoints tm).

Definition is_being_replaced (endpoint : inet_address) (tm : t) : bool :=
  bool_decide (is_Some (_replacing_endpoints tm !! endpoint)).

Definition is_any_node_being_replaced (tm : t) : bool :=
  negb (bool_decide (_replacing_endpoints tm = ∅)).

(** The [std::runtime_error] of [get_predecessor]. *)
Inductive get_predecessor_error : Type := token_error_in_get_predecessor.

(** [get_predecessor]: [it] is the position [std::lower_bound] returns;
    the token must be there. The first token has the last one
    ([tokens.back()]) as its predecessor. *)
Definition get_predecessor (tok : token) (tm : t) : get_predecessor_error + token :=
  let tokens := sorted_tokens tm in
  let it := lower_bound tokens tok in
  match tokens !! it with
  | None => inl token_error_in_get_predecessor
  | Some x =>
      if decide (x ≠ tok) then inl token_error_in_get_predecessor
      else if decide (it = 0%nat) then
        match last tokens with
        | Some b => inr b
        | None => inl token_error_in_get_predecessor
        end
      else
        match tokens !! (it - 1)%nat with
        | Some p => inr p
        | None => inl token_error_in_get_predecessor
        end
  end.

(** [token_metadata::tokens_iterator]: a position in [sorted_tokens] and the
    number of tokens still to visit. The default-constructed iterator, the
    end of every range, has none remaining; [operator==] compares
    [_remaining] alone. *)
Record tokens_iterator : Type := mk_tokens_iterator {
  _cur_it : nat;
  _remaining : nat
}.

Definition tokens_iterator_begin (start : token) (tm : t)
    : exception + tokens_iterator :=
  match first_token_index start tm with
  | inl e => inl e
  | inr i => inr (mk_tokens_iterator i (length (sorted_tokens tm)))
  end.

Definition tokens_iterator_end : tokens_iterator := mk_tokens_iterator 0 0.

Definition tokens_iterator_eq (a b : tokens_iterator) : bool :=
  bool_decide (_remaining a = _remaining b).

(** [operator*] *)
Definition tokens_iterator_deref (tm : t) (it : tokens_iterator) : option token :=
  sorted_tokens tm !! _cur_it it.

(** [operator++]: one step forward, back to the first token after the
    last. *)
Definition tokens_iterator_incr (tm : t) (it : tokens_iterator) : tokens_iterator :=
  let cur := S (_cur_it it) in
  mk_tokens_iterator
    (if decide (cur = length (sorted_tokens tm)) then 0%nat else cur)
    (_remaining it - 1).

(** The tokens a loop over the range [it, end) visits; [fuel] bounds the
    number of steps, [_remaining it] of them suffice. *)
Fixpoint tokens_iterator_walk (fuel : nat) (tm : t) (it : tokens_iterator)
    : list token :=
  match fuel with
  | O => []
  | S fuel' =>
      if tokens_iterator_eq it tokens_iterator_end then []
      else
        match tokens_iterator_deref tm it with
        | Some x => x :: tokens_iterator_walk fuel' tm (tokens_iterator_incr tm it)
        | None => []
        end
  end.

(** [ring_range(const token& start)], as the sequence of its tokens. *)
Definition ring_range (start : token) (tm : t) : exception + list token :=
  match tokens_iterator_begin start tm with
  | inl e => inl e
  | inr it => inr (tokens_iterator_walk (_remaining it) tm it)
  end.

(** [dht::ring_position], through the two accessors used here, and
    [dht::partition_range::bound]. *)
Record ring_position : Type := mk_ring_position {
  rp_token : token;
  rp_has_key : bool
}.

Record partition_range_bound : Type := mk_partition_range_bound {
  bound_value : ring_position;
  bound_is_inclusive : bool
}.

(** [ring_range(const std::optional<dht::partition_range::bound>& start)] *)
Definition ring_range_from_bound (start : option partition_range_bound) (tm : t)
    : exception + list token :=
  match ring_range (match start with
                    | Some b => rp_token (bound_value b)
                    | None => minimum_token
                    end) tm with
  | inl e => inl e
  | inr r =>
      match r, start with
      | x :: rest, Some b =>
          if negb (bound_is_inclusive b) && negb (rp_has_key (bound_value b))
             && bool_decide (rp_token (bound_value b) = x)
          then inr rest else inr r
      | _, _ => inr r
      end
  end.

End token_metadata_impl.

(** ** [token_metadata]: the public wrapper around the implementation *)

Module token_metadata.

Import token_metadata_impl.

(** [token_metadata::remove_endpoint] sorts the tokens after the removal. *)
Definition remove_endpoint (endpoint : inet_address) : M t unit :=
  token_metadata_impl.remove_endpoint endpoint;;
  modify sort_tokens.

Definition update_normal_tokens := token_metadata_impl.update_normal_tokens.
Definition add_bootstrap_tokens := token_metadata_impl.add_bootstrap_tokens.
Definition first_token := token_metadata_impl.first_token.
Definition pending_endpoints_for := token_metadata_impl.pending_endpoints_for.
Definition update_pending_ranges := token_metadata_impl.update_pending_ranges.
Definition invalidate_cached_rings := token_metadata_impl.invalidate_cached_rings.
Definition clone_async := token_metadata_impl.clone_async.
Definition get_ring_version := token_metadata_impl.get_ring_version.

End token_metadata.

(** ** [shared_token_metadata]: the published snapshot *)

Module shared_token_metadata.

Record t : Type := mk {
  _shared : token_metadata_impl.t
}.

(** [set]: refuses a version that does not increase. *)
Definition set (tmptr : token_metadata_impl.t) : M t unit :=
  stm ← get;
  if bool_decide (token_metadata.get_ring_version (_shared stm)
                  >= token_metadata.get_ring_version tmptr)
  then throw (on_internal_error
                (must_not_set_non_increasing_version
                   (token_metadata.get_ring_version (_shared stm))
                   (token_metadata.get_ring_version tmptr)))
  else modify (λ _, mk tmptr).

(** [mutate_token_metadata]: [func] works on the local clone [tm]; when it
    throws, the exception leaves the coroutine before [set] is reached. *)
Definition mutate_token_metadata (func : M token_metadata_impl.t unit) : M t unit :=
  stm ← get;
  r ← on_object (token_metadata.clone_async (_shared stm))
        (token_metadata.invalidate_cached_rings;; func);
  match r.1 with
  | inl e => throw e
  | inr _ => set r.2
  end.

(** [stm.invoke_on_all(set)]: every shard installs the snapshot prepared
    for it; [v] is the static ring version, which [set] does not touch. The
    shards are taken in order, and an exception stops the walk. *)
Fixpoint set_on_all (xs : list (t * token_metadata_impl.t)) (v : Z)
    : (exception + unit) * list t :=
  match xs with
  | [] => (inr tt, [])
  | x :: rest =>
      match set x.2 (mk_st x.1 v) with
      | (inl e, s') => (inl e, this s' :: rest.*1)
      | (inr _, s') => ((set_on_all rest v).1, this s' :: (set_on_all rest v).2)
      end
  end.

(** [mutate_on_all_shards], run on shard 0. The state is the list of the
    shards' [shared_token_metadata], shard 0 first, with the static ring
    version of shard 0; cloning and [set] do not touch the static ring
    version of the other shards. The clone for every other shard is made
    before any [set]. *)
Definition mutate_on_all_shards (func : M token_metadata_impl.t unit)
    : M (list t) unit :=
  stm ← get;
  match stm with
  | [] => mret tt
  | local :: others =>
      r ← on_object (token_metadata.clone_async (_shared local))
            (token_metadata.invalidate_cached_rings;; func);
      match r.1 with
      | inl e => throw e
      | inr _ =>
          let tm := r.2 in
          let pending_token_metadata_ptr :=
            tm :: ((λ _ : t, token_metadata.clone_async tm) <$> others) in
          λ s, let out := set_on_all (zip stm pending_token_metadata_ptr)
                                     (_static_ring_version s) in
               (out.1, mk_st out.2 (_static_ring_version s))
      end
  end.

End shared_token_metadata.

(** ** Vocabulary of the statements *)

Definition published_version (s : st shared_token_metadata.t) : Z :=
  token_metadata.get_ring_version (shared_token_metadata._shared (this s)).

(** The ring versions published while the candidates [tms] are handed to
    [set] one after the other, the version published at the start first. A
    refused candidate publishes nothing. *)
Fixpoint published_versions (s : st shared_token_metadata.t)
    (tms : list token_metadata_impl.t) : list Z :=
  match tms with
  | [] => [published_version s]
  | tm :: rest =>
      match shared_token_metadata.set tm s with
      | (inr _, s') => published_version s :: published_versions s' rest
      | (inl _, s') => published_versions s' rest
      end
  end.

(** The state the caller-supplied function of [mutate_token_metadata] is
    run in: the clone of the published snapshot, its ring version bumped. *)
Definition func_input (s : st shared_token_metadata.t) : st token_metadata_impl.t :=
  (token_metadata.invalidate_cached_rings
     (mk_st (token_metadata.clone_async (shared_token_metadata._shared (this s)))
            (_static_ring_version s))).2.

(** A token that [endpoint] may not take: it is mapped to another endpoint
    in [m]. *)
Definition owned_by_other (m : gmap token inet_address) (endpoint : inet_address)
    (tok : token) : Prop :=
  ∃ old, m !! tok = Some old ∧ old ≠ endpoint.

(** The collision of [add_bootstrap_tokens]: the token is already a
    bootstrap token of a different endpoint, or already a normal token of a
    different endpoint. *)
Definition collides (tm : token_metadata_impl.t) (endpoint : inet_address)
    (tok : token) : Prop :=
  owned_by_other (token_metadata_impl._bootstrap_tokens tm) endpoint tok
  ∨ owned_by_other (token_metadata_impl._token_to_endpoint_map tm) endpoint tok.

(** Position [r] splits [v] for [val]: every token before [r] is below
    [val], every token from [r] on is not. *)
Definition splits_at (v : list token) (val : token) (r : nat) : Prop :=
  (∀ i x, (i < r)%nat → v !! i = Some x → token_lt x val)
  ∧ (∀ i x, (r ≤ i)%nat → v !! i = Some x → token_le val x).

(** [sorted_tokens] is the ascending sort of the keys of the token map:
    strictly ascending, with the keys of the map as its elements. *)
Definition sorted_tokens_in_sync (tm : token_metadata_impl.t) : Prop :=
  StronglySorted token_lt (token_metadata_impl._sorted_tokens tm)
  ∧ ∀ k, k ∈ token_metadata_impl._sorted_tokens tm
         ↔ is_Some (token_metadata_impl._token_to_endpoint_map tm !! k).

Section vocabulary.

Import token_metadata_impl.

(** The state after a call that passes both guards. *)
Definition updated (tokens : gset token) (endpoint : inet_address) (v : Z)
    (tm : token_metadata_impl.t) : token_metadata_impl.t :=
  let phase1 := erase_previously_owned endpoint tokens (_token_to_endpoint_map tm) in
  let phase2 := insert_tokens endpoint phase1.2 phase1.1 in
  token_metadata_impl.mk
    phase2.1
    (_normal_token_owners (update_normal_token_owners (with_token_to_endpoint_map phase2.1 tm)))
    (remove_by_value (_bootstrap_tokens tm) endpoint)
    (_leaving_endpoints tm ∖ {[endpoint]})
    (_replacing_endpoints tm)
    (_pending_ranges_interval_map tm)
    (if phase2.2
     then _sorted_tokens (sort_tokens (with_token_to_endpoint_map phase2.1 tm))
     else _sorted_tokens tm)
    (_topology tm)
    v.

End vocabulary.

(** ** The public mutations of a snapshot *)

(** The mutating members of [token_metadata] that a caller can invoke on a
    snapshot under construction. *)
Inductive mutation : Type :=
  | update_topology_ (ep : inet_address) (dr : endpoint_dc_rack)
      (opt_st : option node_state)
  | update_normal_tokens_ (tokens : gset token) (endpoint : inet_address)
  | remove_endpoint_ (endpoint : inet_address)
  | add_bootstrap_tokens_ (tokens : gset token) (endpoint : inet_address)
  | remove_bootstrap_tokens_ (tokens : gset token)
  | add_leaving_endpoint_ (endpoint : inet_address)
  | del_leaving_endpoint_ (endpoint : inet_address)
  | add_replacing_endpoint_ (existing_node replacing_node : inet_address)
  | del_replacing_endpoint_ (existing_node : inet_address)
  | update_pending_ranges_
      (strategy : token_metadata_impl.abstract_replication_strategy)
      (keyspace_name : sstring) (get_dc_rack : inet_address → endpoint_dc_rack)
  | invalidate_cached_rings_.

Definition perform (op : mutation) : M token_metadata_impl.t unit :=
  match op with
  | update_topology_ ep dr opt_st =>
      modify (token_metadata_impl.update_topology ep dr opt_st)
  | update_normal_tokens_ tokens endpoint =>
      token_metadata.update_normal_tokens tokens endpoint
  | remove_endpoint_ endpoint => token_metadata.remove_endpoint endpoint
  | add_bootstrap_tokens_ tokens endpoint =>
      token_metadata.add_bootstrap_tokens tokens endpoint
  | remove_bootstrap_tokens_ tokens =>
      modify (token_metadata_impl.remove_bootstrap_tokens tokens)
  | add_leaving_endpoint_ endpoint =>
      modify (token_metadata_impl.add_leaving_endpoint endpoint)
  | del_leaving_endpoint_ endpoint =>
      modify (token_metadata_impl.del_leaving_endpoint endpoint)
  | add_replacing_endpoint_ existing_node replacing_node =>
      modify (token_metadata_impl.add_replacing_endpoint existing_node replacing_node)
  | del_replacing_endpoint_ existing_node =>
      modify (token_metadata_impl.del_replacing_endpoint existing_node)
  | update_pending_ranges_ strategy keyspace_name get_dc_rack =>
      token_metadata.update_pending_ranges strategy keyspace_name get_dc_rack
  | invalidate_cached_rings_ => token_metadata.invalidate_cached_rings
  end.

(** The snapshots that the public mutations build from an empty one. A
    mutation that throws leaves the snapshot as it was at the throw, and
    the caller may go on. *)
Inductive reachable : st token_metadata_impl.t → Prop :=
  | reachable_init (v : Z) : reachable (mk_st token_metadata_impl.init v)
  | reachable_step (op : mutation) (s : st token_metadata_impl.t) :
      reachable s → reachable (perform op s).2.

(** Every key of the token map is in [sorted_tokens], which is strictly
    ascending. *)
Definition sorted_tokens_cover (tm : token_metadata_impl.t) : Prop :=
  StronglySorted token_lt (token_metadata_impl._sorted_tokens tm)
  ∧ ∀ k, is_Some (token_metadata_impl._token_to_endpoint_map tm !! k)
         → k ∈ token_metadata_impl._sorted_tokens tm.

(** ** Vocabulary of the further properties *)

(** [normal_token_owners] holds exactly the endpoints that own a token. *)
Definition normal_token_owners_in_sync (tm : token_metadata_impl.t) : Prop :=
  ∀ e, e ∈ token_metadata_impl._normal_token_owners tm
       ↔ ∃ k, token_metadata_impl._token_to_endpoint_map tm !! k = Some e.

(** [v] turned to start at position [i]. *)
Definition rotate_at (i : nat) (v : list token) : list token :=
  drop i v ++ take i v.

(** A computation that never lowers the static ring version. *)
Definition grows {T A} (c : M T A) : Prop :=
  ∀ s : st T, _static_ring_version s <= _static_ring_version (c s).2.

(** A computation that never throws. *)
Definition never_throws {T A} (c : M T A) : Prop :=
  ∀ s : st T, ∃ a, (c s).1 = inr a.

(** * Properties *)

(** ** The order on tokens *)

Ltac token_order :=
  unfold token_le, token_lt, token_kind_rank, token_data in *;
  repeat match goal with t : token |- _ => destruct t end;
  simpl in *; intros;
  solve [ lia | congruence | f_equal; lia | intuition (congruence || lia) ].

Lemma token_lt_irrefl a : ¬ token_lt a a.
Proof. token_order. Qed.

Lemma token_lt_trans a b c : token_lt a b → token_lt b c → token_lt a c.
Proof. token_order. Qed.

Lemma token_le_refl a : token_le a a.
Proof. token_order. Qed.

Lemma token_le_trans a b c : token_le a b → token_le b c → token_le a c.
Proof. token_order. Qed.

Lemma token_le_antisym a b : token_le a b → token_le b a → a = b.
Proof. token_order. Qed.

Lemma token_le_total a b : token_le a b ∨ token_le b a.
Proof. token_order. Qed.

Lemma token_lt_le a b : token_lt a b → token_le a b.
Proof. token_order. Qed.

Lemma token_lt_le_trans a b c : token_lt a b → token_le b c → token_lt a c.
Proof. token_order. Qed.

Lemma token_le_lt_trans a b c : token_le a b → token_lt b c → token_lt a c.
Proof. token_order. Qed.

Lemma token_not_lt a b : ¬ token_lt a b ↔ token_le b a.
Proof. reflexivity. Qed.

Lemma token_not_le a b : ¬ token_le a b ↔ token_lt b a.
Proof. token_order. Qed.

Lemma minimum_token_le a : token_le minimum_token a.
Proof. unfold minimum_token. token_order. Qed.

Lemma maximum_token_ge a : token_le a maximum_token.
Proof. unfold maximum_token. token_order. Qed.

#[global] Instance token_le_total_inst : Total token_le.
Proof. intros a b. apply token_le_total. Qed.

#[global] Instance token_le_trans_inst : Transitive token_le.
Proof. intros a b c. apply token_le_trans. Qed.



Import token_metadata_impl.

Ltac unfold_M :=
  unfold mbind, M_bind, bind, mret, M_ret, ret, get, modify, throw, on_object in *;
  cbn beta iota in *.

(** ** Publication *)

Section publication.

Import shared_token_metadata.

Lemma set_refuses tmptr (s : st shared_token_metadata.t) :
  _ring_version tmptr <= published_version s →
  set tmptr s =
    (inl (on_internal_error
            (must_not_set_non_increasing_version (published_version s) (_ring_version tmptr))), s).
Proof.
  intros Hle. unfold set, published_version, token_metadata.get_ring_version,
    get_ring_version in *. unfold_M.
  rewrite bool_decide_eq_true_2 by lia. reflexivity.
Qed.

Lemma set_installs tmptr (s : st shared_token_metadata.t) :
  published_version s < _ring_version tmptr →
  set tmptr s = (inr tt, mk_st (mk tmptr) (_static_ring_version s)).
Proof.
  intros Hlt. unfold set, published_version, token_metadata.get_ring_version,
    get_ring_version in *. unfold_M.
  rewrite bool_decide_eq_false_2 by lia. reflexivity.
Qed.

Lemma set_cases tmptr (s : st shared_token_metadata.t) :
  (_ring_version tmptr <= published_version s ∧ ∃ e, set tmptr s = (inl e, s))
  ∨ (published_version s < _ring_version tmptr
     ∧ set tmptr s = (inr tt, mk_st (mk tmptr) (_static_ring_version s))).
Proof.
  destruct (Z_le_gt_dec (_ring_version tmptr) (published_version s)).
  - left. split; [done|]. eexists. by apply set_refuses.
  - right. split; [lia|]. apply set_installs. lia.
Qed.

Lemma published_versions_lower_bound tms : ∀ s v,
  v ∈ published_versions s tms → published_version s <= v.
Proof.
  induction tms as [|tm rest IH]; intros s v; simpl.
  - intros ->%list_elem_of_singleton. lia.
  - destruct (set_cases tm s) as [[Hle [e ->]]|[Hlt ->]].
    + apply IH.
    + intros [->|Hin]%elem_of_cons; [lia|].
      apply IH in Hin. unfold published_version in *. simpl in *.
      unfold token_metadata.get_ring_version, get_ring_version in *. lia.
Qed.

Lemma published_versions_sorted tms : ∀ s,
  StronglySorted Z.lt (published_versions s tms).
Proof.
  induction tms as [|tm rest IH]; intros s; simpl.
  - repeat constructor.
  - destruct (set_cases tm s) as [[Hle [e ->]]|[Hlt ->]]; [apply IH|].
    constructor; [apply IH|].
    apply Forall_forall. intros v Hin.
    apply published_versions_lower_bound in Hin.
    unfold published_version in *. simpl in *.
    unfold token_metadata.get_ring_version, get_ring_version in *. lia.
Qed.

End publication.

(** C1. [shared_token_metadata::set] fails with an internal error whenever
    the candidate's ring version is less than or equal to the published one
    and leaves the published snapshot in place; otherwise it installs the
    candidate, whose version is strictly greater; and over any sequence of
    candidates handed to [set] the published ring versions are strictly
    increasing. *)
Theorem set_ring_version_strictly_increasing :
  (∀ tmptr s, _ring_version tmptr <= published_version s →
     ∃ msg, shared_token_metadata.set tmptr s = (inl (on_internal_error msg), s))
  ∧ (∀ tmptr s s', shared_token_metadata.set tmptr s = (inr tt, s') →
       shared_token_metadata._shared (this s') = tmptr
       ∧ published_version s < published_version s')
  ∧ (∀ s tms, StronglySorted Z.lt (published_versions s tms)).
Proof.
  split; [|split].
  - intros tmptr s Hle. eexists. by apply set_refuses.
  - intros tmptr s s' Hset.
    destruct (set_cases tmptr s) as [[Hle [e He]]|[Hlt He]];
      rewrite He in Hset; [discriminate|].
    injection Hset as <-. split; [reflexivity|].
    unfold published_version in *. simpl. exact Hlt.
  - intros s tms. apply published_versions_sorted.
Qed.

Lemma set_ring_version_strictly_increasing_witness :
  let s := mk_st (shared_token_metadata.mk (with_ring_version 3 init)) 5 in
  (∃ msg, shared_token_metadata.set (with_ring_version 3 init) s
          = (inl (on_internal_error msg), s))
  ∧ published_version (shared_token_metadata.set (with_ring_version 4 init) s).2 = 4
  ∧ published_versions s
      [with_ring_version 2 init; with_ring_version 4 init;
       with_ring_version 4 init; with_ring_version 9 init] = [3; 4; 9]
  ∧ StronglySorted Z.lt
      (published_versions s
         [with_ring_version 2 init; with_ring_version 4 init;
          with_ring_version 4 init; with_ring_version 9 init]).
Proof.
  intros s.
  destruct set_ring_version_strictly_increasing as (Hrefuse & _ & Hsorted).
  split; [apply Hrefuse; vm_compute; discriminate|].
  split; [vm_compute; reflexivity|].
  split; [vm_compute; reflexivity|apply Hsorted].
Defined.

(** ** [mutate_token_metadata] *)

Lemma clone_async_eq tm : clone_async tm = tm.
Proof. destruct tm. reflexivity. Qed.

(** C2. When the caller-supplied function throws on the clone, the
    exception leaves [mutate_token_metadata] and the published snapshot is
    the one published before the call. *)
Theorem mutate_token_metadata_failure_keeps_snapshot
    (func : M token_metadata_impl.t unit) (s : st shared_token_metadata.t)
    (e : exception) :
  (func (func_input s)).1 = inl e →
  (shared_token_metadata.mutate_token_metadata func s).1 = inl e
  ∧ this (shared_token_metadata.mutate_token_metadata func s).2 = this s.
Proof.
  intros Hf. unfold shared_token_metadata.mutate_token_metadata, func_input in *.
  unfold token_metadata.invalidate_cached_rings, token_metadata.clone_async,
    invalidate_cached_rings in *.
  unfold_M. simpl in *.
  destruct (func _) as [[e'|[]] s'] eqn:Hfunc; simpl in *; [|discriminate].
  injection Hf as ->. split; reflexivity.
Qed.

Lemma mutate_token_metadata_failure_keeps_snapshot_witness :
  let func : M token_metadata_impl.t unit :=
    update_normal_tokens {[key 1]} 9%N in
  let s := mk_st (shared_token_metadata.mk init) 0 in
  (func (func_input s)).1 = inl (on_internal_error (must_be_member_of_topology 9%N))
  ∧ (shared_token_metadata.mutate_token_metadata func s).1
      = inl (on_internal_error (must_be_member_of_topology 9%N))
  ∧ this (shared_token_metadata.mutate_token_metadata func s).2 = this s.
Proof.
  intros func s.
  assert (H : (func (func_input s)).1
              = inl (on_internal_error (must_be_member_of_topology 9%N)))
    by (vm_compute; reflexivity).
  split; [exact H|].
  exact (mutate_token_metadata_failure_keeps_snapshot func s _ H).
Defined.

(** ** [update_normal_tokens]: the guards *)

Lemma update_normal_tokens_empty (endpoint : inet_address)
    (s : st token_metadata_impl.t) :
  update_normal_tokens ∅ endpoint s = (inr tt, s).
Proof. unfold update_normal_tokens. rewrite decide_True by done. reflexivity. Qed.

Lemma update_normal_tokens_not_member (tokens : gset token)
    (endpoint : inet_address) (s : st token_metadata_impl.t) :
  tokens ≠ ∅ →
  topology.has_endpoint (_topology (this s)) endpoint = false →
  update_normal_tokens tokens endpoint s
  = (inl (on_internal_error (must_be_member_of_topology endpoint)), s).
Proof.
  intros Hne Htopo. unfold update_normal_tokens. rewrite decide_False by done.
  unfold_M. rewrite Htopo. reflexivity.
Qed.

Lemma update_normal_tokens_member (tokens : gset token)
    (endpoint : inet_address) (s : st token_metadata_impl.t) :
  tokens ≠ ∅ →
  topology.has_endpoint (_topology (this s)) endpoint = true →
  ∃ s', update_normal_tokens tokens endpoint s = (inr tt, s').
Proof.
  intros Hne Htopo. unfold update_normal_tokens. rewrite decide_False by done.
  unfold_M. rewrite Htopo. simpl.
  destruct (insert_tokens _ _ _).2; eexists; reflexivity.
Qed.

(** C10. With an empty token set [update_normal_tokens] returns at once:
    for every endpoint, in the topology or not, the call succeeds and the
    whole state, static ring version included, is unchanged. *)
Theorem update_normal_tokens_empty_is_noop (endpoint : inet_address)
    (s : st token_metadata_impl.t) :
  update_normal_tokens ∅ endpoint s = (inr tt, s).
Proof. apply update_normal_tokens_empty. Qed.




(** ** Ranges and intervals *)

(** C7, as the code has it. A range bounded on both sides comes back from
    [interval_to_range (range_to_interval r)] unchanged, whatever the
    openness of its bounds; an unbounded start comes back as the exclusive
    bound [minimum_token], an unbounded end as the exclusive bound
    [maximum_token]. *)
Theorem interval_to_range_range_to_interval :
  (∀ s e : range_bound,
     interval_to_range (range_to_interval (mk_range (Some s) (Some e)))
     = inr (mk_range (Some s) (Some e)))
  ∧ (∀ r : range,
       interval_to_range (range_to_interval r)
       = inr (mk_range (Some (default (mk_bound minimum_token false) (start r)))
                       (Some (default (mk_bound maximum_token false) (end_ r))))).
Proof.
  assert (Hall : ∀ r : range,
       interval_to_range (range_to_interval r)
       = inr (mk_range (Some (default (mk_bound minimum_token false) (start r)))
                       (Some (default (mk_bound maximum_token false) (end_ r))))).
  { intros [[[sv [|]]|] [[ev [|]]|]]; reflexivity. }
  split; [|exact Hall].
  intros s e. apply Hall.
Qed.

(** C7, counterexample. The range unbounded on both sides comes back
    bounded by [minimum_token] and [maximum_token]. *)
Lemma interval_to_range_range_to_interval_unbounded :
  interval_to_range (range_to_interval (mk_range None None))
  = inr (mk_range (Some (mk_bound minimum_token false))
                  (Some (mk_bound maximum_token false)))
  ∧ interval_to_range (range_to_interval (mk_range None None))
    ≠ inr (mk_range None None).
Proof. split; [reflexivity|discriminate]. Qed.

(** ** Pending ranges *)

Lemma set_pending_ranges_nil ks (s : st token_metadata_impl.t) :
  set_pending_ranges ks [] s
  = (inr tt, mk_st (with_pending_ranges_interval_map
                      (delete ks (_pending_ranges_interval_map (this s))) (this s))
                   (_static_ring_version s)).
Proof. reflexivity. Qed.

Lemma pending_endpoints_for_absent tok ks tm :
  _pending_ranges_interval_map tm !! ks = None →
  pending_endpoints_for tok ks tm = [].
Proof. intros H. unfold pending_endpoints_for. by rewrite H. Qed.

Lemma pending_endpoints_for_empty_map tok ks tm m :
  _pending_ranges_interval_map tm !! ks = Some m → icl.empty m = true →
  pending_endpoints_for tok ks tm = [].
Proof. intros H Hm. unfold pending_endpoints_for. by rewrite H, Hm. Qed.

(** C6. [pending_endpoints_for] returns the empty sequence when the
    keyspace has no entry in the pending-ranges map or its interval map is
    empty; and once [update_pending_ranges] has run for the keyspace with no
    bootstrap token, no leaving endpoint and no replacing endpoint, it
    returns the empty sequence for every token. *)
Theorem pending_endpoints_for_nothing_pending (ks : sstring)
    (s : st token_metadata_impl.t) :
  (∀ tok,
     (_pending_ranges_interval_map (this s) !! ks = None
      ∨ ∃ m, _pending_ranges_interval_map (this s) !! ks = Some m ∧ icl.empty m = true) →
     pending_endpoints_for tok ks (this s) = [])
  ∧ (∀ strategy get_dc_rack,
       _bootstrap_tokens (this s) = ∅ → _leaving_endpoints (this s) = ∅ →
       _replacing_endpoints (this s) = ∅ →
       ∃ s', update_pending_ranges strategy ks get_dc_rack s = (inr tt, s')
             ∧ ∀ tok, pending_endpoints_for tok ks (this s') = []).
Proof.
  split.
  - intros tok [H|[m [H Hm]]].
    + by apply pending_endpoints_for_absent.
    + by eapply pending_endpoints_for_empty_map.
  - intros strategy get_dc_rack Hb Hl Hr.
    unfold update_pending_ranges. unfold_M.
    rewrite Hb, Hl, Hr, !bool_decide_eq_true_2 by done. simpl.
    eexists. split; [reflexivity|].
    intros tok. apply pending_endpoints_for_absent. simpl.
    apply lookup_delete_eq.
Qed.

Lemma pending_endpoints_for_nothing_pending_witness :
  let stale : icl.interval_map := [(icl.closed (key 1) (key 5), {[4%N]})] in
  let s := mk_st (with_pending_ranges_interval_map {["ks" := stale]} init) 3 in
  let strategy := mk_strategy (λ _ _, []) (λ _ _, []) in
  let get_dc_rack := λ _ : inet_address, mk_dc_rack "dc" "rack" in
  pending_endpoints_for (key 2) "ks" (this s) = [4%N]
  ∧ pending_endpoints_for (key 2) "other" (this s) = []
  ∧ ∃ s', update_pending_ranges strategy "ks" get_dc_rack s = (inr tt, s')
          ∧ ∀ tok, pending_endpoints_for tok "ks" (this s') = [].
Proof.
  intros stale s strategy get_dc_rack.
  split; [vm_compute; reflexivity|].
  split.
  - apply (proj1 (pending_endpoints_for_nothing_pending "other" s)).
    left. vm_compute. reflexivity.
  - apply (proj2 (pending_endpoints_for_nothing_pending "ks" s));
      vm_compute; reflexivity.
Defined.

(** ** Bootstrap tokens *)

Section bootstrap_tokens.

Implicit Types (tm : token_metadata_impl.t) (endpoint : inet_address)
  (tok : token) (ts : list token) (tokens : gset token)
  (m : gmap token inet_address).

Lemma other_owner_Some m endpoint tok old :
  other_owner m endpoint tok = Some old ↔ m !! tok = Some old ∧ old ≠ endpoint.
Proof.
  unfold other_owner. destruct (m !! tok) as [o|]; [|naive_solver].
  destruct (decide (o ≠ endpoint)); naive_solver.
Qed.

Lemma other_owner_None m endpoint tok :
  other_owner m endpoint tok = None ↔ ¬ owned_by_other m endpoint tok.
Proof.
  unfold owned_by_other. split.
  - intros Hn (old & Hold & Hne).
    assert (other_owner m endpoint tok = Some old) as Hs
      by by apply other_owner_Some.
    congruence.
  - intros Hno. destruct (other_owner m endpoint tok) as [old|] eqn:Ho; [|done].
    apply other_owner_Some in Ho. exfalso. apply Hno. by exists old.
Qed.

Lemma collision_at_None tm endpoint tok :
  collision_at tm endpoint tok = None ↔ ¬ collides tm endpoint tok.
Proof.
  unfold collision_at, collides.
  destruct (other_owner (_bootstrap_tokens tm) endpoint tok) as [o1|] eqn:H1.
  - apply other_owner_Some in H1. split; [discriminate|].
    intros Hno. exfalso. apply Hno. left. by exists o1.
  - apply other_owner_None in H1.
    destruct (other_owner (_token_to_endpoint_map tm) endpoint tok) as [o2|] eqn:H2.
    + apply other_owner_Some in H2. split; [discriminate|].
      intros Hno. exfalso. apply Hno. right. by exists o2.
    + apply other_owner_None in H2. split; [|done]. intros _ [?|?]; auto.
Qed.

Lemma collision_at_Some tm endpoint tok e :
  collision_at tm endpoint tok = Some e →
  ∃ old, e = runtime_error (bootstrap_token_collision old endpoint tok)
         ∧ old ≠ endpoint
         ∧ (_bootstrap_tokens tm !! tok = Some old
            ∨ _token_to_endpoint_map tm !! tok = Some old).
Proof.
  unfold collision_at.
  destruct (other_owner (_bootstrap_tokens tm) endpoint tok) as [o1|] eqn:H1.
  - apply other_owner_Some in H1 as [??]. intros [= <-]. exists o1. auto.
  - destruct (other_owner (_token_to_endpoint_map tm) endpoint tok) as [o2|] eqn:H2;
      [|discriminate].
    apply other_owner_Some in H2 as [??]. intros [= <-]. exists o2. auto.
Qed.

Lemma find_bootstrap_collision_None tm endpoint ts :
  find_bootstrap_collision tm endpoint ts = None ↔
  ∀ tok, tok ∈ ts → ¬ collides tm endpoint tok.
Proof.
  induction ts as [|a ts IH]; simpl.
  - split; [|done]. intros _ tok Hin. by apply not_elem_of_nil in Hin.
  - destruct (collision_at tm endpoint a) as [e|] eqn:Ha.
    + split; [discriminate|]. intros Hall. exfalso.
      assert (collision_at tm endpoint a = None) as Hn
        by (apply collision_at_None, Hall; by left).
      congruence.
    + apply collision_at_None in Ha. rewrite IH. split.
      * intros Hall tok [->|Hin]%elem_of_cons; auto.
      * intros Hall tok Hin. apply Hall. by right.
Qed.

Lemma find_bootstrap_collision_Some tm endpoint ts e :
  find_bootstrap_collision tm endpoint ts = Some e →
  ∃ old tok, e = runtime_error (bootstrap_token_collision old endpoint tok)
             ∧ tok ∈ ts ∧ old ≠ endpoint
             ∧ (_bootstrap_tokens tm !! tok = Some old
                ∨ _token_to_endpoint_map tm !! tok = Some old).
Proof.
  induction ts as [|a ts IH]; simpl; [discriminate|].
  destruct (collision_at tm endpoint a) as [e'|] eqn:Ha.
  - intros [= <-]. apply collision_at_Some in Ha as (old & -> & Hne & Hold).
    exists old, a. split; [done|]. split; [by left|]. auto.
  - intros (old & tok & ? & ? & ? & ?)%IH. exists old, tok.
    split; [done|]. split; [by right|]. auto.
Qed.

Lemma lookup_remove_by_value m endpoint tok :
  remove_by_value m endpoint !! tok
  = match m !! tok with
    | Some o => if decide (o = endpoint) then None else Some o
    | None => None
    end.
Proof.
  unfold remove_by_value.
  destruct (m !! tok) as [o|] eqn:Hb.
  - destruct (decide (o = endpoint)) as [->|Hne].
    + apply map_lookup_filter_None. right. intros x Hx. simpl.
      rewrite Hb in Hx. injection Hx as <-. auto.
    + apply map_lookup_filter_Some. split; [done|]. simpl. done.
  - apply map_lookup_filter_None. by left.
Qed.

Lemma lookup_set_fold_insert m endpoint tokens tok :
  set_fold (λ t b, <[t := endpoint]> b) m tokens !! tok
  = if decide (tok ∈ tokens) then Some endpoint else m !! tok.
Proof.
  revert tokens. apply (set_fold_ind_L
    (λ r X, r !! tok = if decide (tok ∈ X) then Some endpoint else m !! tok)).
  - rewrite decide_False by set_solver. done.
  - intros x X r Hx IHr.
    destruct (decide (x = tok)) as [->|Hne].
    + rewrite lookup_insert_eq, decide_True by set_solver. done.
    + rewrite lookup_insert_ne by done. rewrite IHr.
      destruct (decide (tok ∈ X)); [rewrite decide_True by set_solver
                                   |rewrite decide_False by set_solver]; done.
Qed.

End bootstrap_tokens.

(** C9. [add_bootstrap_tokens] fails with a token collision when some token
    of the set is a bootstrap token or a normal token of another endpoint,
    and then changes nothing; otherwise it succeeds, and in the snapshot it
    leaves the bootstrap map is the old one with the prior bootstrap tokens
    of the endpoint removed and then every token of the set mapped to the
    endpoint: a token of the set belongs to the endpoint, another token the
    endpoint had is gone, and the bootstrap tokens of the other endpoints
    stay. No other member of the snapshot changes, nor the static ring
    version. *)
Theorem add_bootstrap_tokens_collision_or_replace (tokens : gset token)
    (endpoint : inet_address) (s : st token_metadata_impl.t) :
  ((∃ tok, tok ∈ tokens ∧ collides (this s) endpoint tok) →
     ∃ old tok, tok ∈ tokens ∧ old ≠ endpoint
       ∧ (_bootstrap_tokens (this s) !! tok = Some old
          ∨ _token_to_endpoint_map (this s) !! tok = Some old)
       ∧ add_bootstrap_tokens tokens endpoint s
         = (inl (runtime_error (bootstrap_token_collision old endpoint tok)), s))
  ∧ ((∀ tok, tok ∈ tokens → ¬ collides (this s) endpoint tok) →
     ∃ s', add_bootstrap_tokens tokens endpoint s = (inr tt, s')
       ∧ _bootstrap_tokens (this s')
         = set_fold (λ t b, <[t := endpoint]> b)
             (remove_by_value (_bootstrap_tokens (this s)) endpoint) tokens
       ∧ (∀ tok, _bootstrap_tokens (this s') !! tok
                 = if decide (tok ∈ tokens) then Some endpoint
                   else match _bootstrap_tokens (this s) !! tok with
                        | Some o => if decide (o = endpoint) then None else Some o
                        | None => None
                        end)
       ∧ _token_to_endpoint_map (this s') = _token_to_endpoint_map (this s)
       ∧ _normal_token_owners (this s') = _normal_token_owners (this s)
       ∧ _leaving_endpoints (this s') = _leaving_endpoints (this s)
       ∧ _replacing_endpoints (this s') = _replacing_endpoints (this s)
       ∧ _pending_ranges_interval_map (this s') = _pending_ranges_interval_map (this s)
       ∧ _sorted_tokens (this s') = _sorted_tokens (this s)
       ∧ _topology (this s') = _topology (this s)
       ∧ _ring_version (this s') = _ring_version (this s)
       ∧ _static_ring_version s' = _static_ring_version s).
Proof.
  unfold add_bootstrap_tokens. unfold_M.
  destruct (find_bootstrap_collision (this s) endpoint (elements tokens)) as [e|] eqn:Hf.
  - apply find_bootstrap_collision_Some in Hf as (old & tok' & -> & Hin' & Hne & Hold).
    split.
    + intros _. exists old, tok'. split; [set_solver|]. auto.
    + intros Hall. exfalso. apply (Hall tok'); [set_solver|].
      destruct Hold; [left|right]; by exists old.
  - rewrite find_bootstrap_collision_None in Hf. split.
    + intros (tok & Hin & Hc). exfalso. apply (Hf tok); [set_solver|done].
    + intros _. eexists. split; [reflexivity|].
      cbn [this _static_ring_version with_bootstrap_tokens _bootstrap_tokens
           _token_to_endpoint_map _normal_token_owners _leaving_endpoints
           _replacing_endpoints _pending_ranges_interval_map _sorted_tokens
           _topology _ring_version].
      split; [reflexivity|]. split; [|repeat split].
      intros tok. rewrite lookup_set_fold_insert, lookup_remove_by_value. done.
Qed.

Lemma add_bootstrap_tokens_collision_or_replace_witness :
  let tm := with_bootstrap_tokens {[key 15 := 4%N; key 16 := 5%N]}
              (with_token_to_endpoint_map {[key 10 := 1%N]} init) in
  let s := mk_st tm 0 in
  (∃ old tok, tok ∈ ({[key 10; key 20]} : gset token)
     ∧ add_bootstrap_tokens {[key 10; key 20]} 4%N s
       = (inl (runtime_error (bootstrap_token_collision old 4%N tok)), s))
  ∧ (∃ s', add_bootstrap_tokens {[key 20]} 4%N s = (inr tt, s')
         ∧ _bootstrap_tokens (this s') !! key 20 = Some 4%N
         ∧ _bootstrap_tokens (this s') !! key 15 = None
         ∧ _bootstrap_tokens (this s') !! key 16 = Some 5%N
         ∧ _token_to_endpoint_map (this s') = {[key 10 := 1%N]}).
Proof.
  intros tm s. split.
  - destruct (proj1 (add_bootstrap_tokens_collision_or_replace {[key 10; key 20]} 4%N s))
      as (old & tok & Hin & _ & _ & Hrun).
    + exists (key 10). split; [set_solver|]. right. exists 1%N.
      split; [vm_compute; reflexivity|discriminate].
    + exists old, tok. split; [exact Hin|exact Hrun].
  - destruct (proj2 (add_bootstrap_tokens_collision_or_replace {[key 20]} 4%N s))
      as (s' & Hrun & _ & Hlookup & Hmap & _).
    + intros tok ->%elem_of_singleton [(old & Hold & _)|(old & Hold & _)];
        vm_compute in Hold; discriminate.
    + exists s'. split; [exact Hrun|].
      rewrite !Hlookup, Hmap. repeat split; vm_compute; reflexivity.
Defined.

(** ** [first_token] *)

Section first_token.

Local Open Scope nat_scope.

Implicit Types (v : list token) (val : token).

Lemma StronglySorted_lookup_le v i j x y :
  StronglySorted token_le v → i ≤ j →
  v !! i = Some x → v !! j = Some y → token_le x y.
Proof.
  intros Hs. revert i j. induction Hs as [|a l Hs IH Hall]; intros i j Hij Hi Hj.
  - by rewrite lookup_nil in Hi.
  - destruct i as [|i], j as [|j]; simpl in *; try lia.
    + injection Hi as <-. injection Hj as <-. apply token_le_refl.
    + injection Hi as <-. rewrite Forall_forall in Hall.
      apply Hall. by eapply list_elem_of_lookup_2.
    + apply (IH i j); [lia|done..].
Qed.

Lemma lower_bound_loop_step fuel v val first len :
  len ≠ 0 →
  lower_bound_loop (S fuel) v val first len
  = match v !! (first + len / 2) with
    | Some x =>
        if decide (token_lt x val)
        then lower_bound_loop fuel v val (first + len / 2 + 1) (len - len / 2 - 1)
        else lower_bound_loop fuel v val first (len / 2)
    | None => first
    end.
Proof. destruct len; [done|reflexivity]. Qed.

Lemma lower_bound_loop_done fuel v val first :
  lower_bound_loop fuel v val first 0 = first.
Proof. destruct fuel; reflexivity. Qed.

Lemma lower_bound_loop_splits v val : StronglySorted token_le v →
  ∀ fuel first len,
    len ≤ fuel → first + len ≤ length v →
    (∀ i x, i < first → v !! i = Some x → token_lt x val) →
    (∀ i x, first + len ≤ i → v !! i = Some x → token_le val x) →
    let r := lower_bound_loop fuel v val first len in
    first ≤ r ≤ first + len ∧ splits_at v val r.
Proof.
  intros Hs. induction fuel as [|fuel IH]; intros first len Hfuel Hlen Hlo Hhi.
  - assert (len = 0) as -> by lia. simpl. split; [lia|].
    split; [exact Hlo|]. intros i x Hi. apply Hhi. lia.
  - destruct (decide (len = 0)) as [->|Hpos].
    { rewrite lower_bound_loop_done. split; [lia|].
      split; [exact Hlo|]. intros i x Hi. apply Hhi. lia. }
    cbv zeta. rewrite lower_bound_loop_step by done.
    assert (len / 2 < len) as Hhalf by (apply Nat.div_lt; lia).
    destruct (v !! (first + len / 2)) as [x|] eqn:Hmid.
    2: { apply lookup_ge_None in Hmid. lia. }
    destruct (decide (token_lt x val)) as [Hlt|Hnlt].
    + specialize (IH (first + len / 2 + 1) (len - len / 2 - 1)).
      destruct IH as [Hr Hsplit]; [lia|lia| | |].
      * intros i y Hi Hy.
        eapply token_le_lt_trans; [|exact Hlt].
        apply (StronglySorted_lookup_le v i (first + len / 2)); [done|lia|done..].
      * intros i y Hi. apply Hhi. lia.
      * split; [lia|exact Hsplit].
    + specialize (IH first (len / 2)).
      destruct IH as [Hr Hsplit]; [lia|lia|exact Hlo| |].
      * intros i y Hi Hy.
        eapply token_le_trans; [exact Hnlt|].
        apply (StronglySorted_lookup_le v (first + len / 2) i); [done|lia|done..].
      * split; [lia|exact Hsplit].
Qed.

Lemma lower_bound_splits v val : StronglySorted token_le v →
  lower_bound v val ≤ length v ∧ splits_at v val (lower_bound v val).
Proof.
  intros Hs. unfold lower_bound.
  destruct (lower_bound_loop_splits v val Hs (length v) 0 (length v)) as [Hr Hsplit].
  - lia.
  - lia.
  - intros i x Hi. lia.
  - intros i x Hi Hx. apply lookup_lt_Some in Hx. lia.
  - split; [lia|exact Hsplit].
Qed.

Lemma first_token_index_empty start tm :
  _sorted_tokens tm = [] →
  first_token_index start tm = inl (runtime_error sorted_tokens_is_empty).
Proof. unfold first_token_index. by intros ->. Qed.

Lemma first_token_index_nonempty start tm :
  _sorted_tokens tm ≠ [] →
  first_token_index start tm
  = inr (if decide (lower_bound (_sorted_tokens tm) start = length (_sorted_tokens tm))
         then 0 else lower_bound (_sorted_tokens tm) start).
Proof.
  unfold first_token_index. destruct (_sorted_tokens tm); [done|].
  intros _. by destruct (decide _).
Qed.

End first_token.

(** ** [update_normal_tokens]: what one call does *)

Section update_normal_tokens.

Implicit Types (tm : token_metadata_impl.t) (endpoint : inet_address)
  (tok : token) (tokens : gset token) (m : gmap token inet_address).

Lemma erase_previously_owned_fold endpoint tokens m0 m :
  (∀ k, (map_fold (erase_previously_owned_step endpoint) (m0, tokens) m).1 !! k
        = if decide (m !! k = Some endpoint ∧ k ∉ tokens) then None else m0 !! k)
  ∧ (∀ k, k ∈ (map_fold (erase_previously_owned_step endpoint) (m0, tokens) m).2
          ↔ k ∈ tokens ∧ m !! k ≠ Some endpoint).
Proof.
  revert m.
  apply (map_fold_weak_ind
    (λ (r : gmap token inet_address * gset token) (m' : gmap token inet_address),
       (∀ k, r.1 !! k
             = if decide (m' !! k = Some endpoint ∧ k ∉ tokens) then None else m0 !! k)
       ∧ (∀ k, k ∈ r.2 ↔ k ∈ tokens ∧ m' !! k ≠ Some endpoint))).
  - split; intros k; simpl.
    + rewrite decide_False; [done|]. rewrite lookup_empty. naive_solver.
    + rewrite lookup_empty. naive_solver.
  - intros i x m' r Hi [IH1 IH2]. unfold erase_previously_owned_step.
    destruct (decide (x = endpoint)) as [->|Hx].
    + destruct (decide (i ∈ r.2)) as [Hin|Hnin]; simpl.
      * apply IH2 in Hin as [HinT _]. split; intros k.
        -- destruct (decide (k = i)) as [->|Hne].
           ++ rewrite IH1, lookup_insert_eq, Hi.
              rewrite !decide_False by naive_solver. done.
           ++ rewrite IH1, lookup_insert_ne by done. done.
        -- rewrite elem_of_difference, IH2, elem_of_singleton.
           destruct (decide (k = i)) as [->|Hne].
           ++ rewrite lookup_insert_eq. naive_solver.
           ++ rewrite lookup_insert_ne by done. naive_solver.
      * assert (i ∉ tokens) as HninT.
        { intros HinT. apply Hnin, IH2. split; [done|]. rewrite Hi. done. }
        split; intros k.
        -- destruct (decide (k = i)) as [->|Hne].
           ++ rewrite lookup_delete_eq, lookup_insert_eq.
              rewrite decide_True by done. done.
           ++ rewrite lookup_delete_ne, IH1, lookup_insert_ne by done. done.
        -- rewrite IH2.
           destruct (decide (k = i)) as [->|Hne].
           ++ rewrite lookup_insert_eq, Hi. naive_solver.
           ++ rewrite lookup_insert_ne by done. done.
    + split; intros k.
      * rewrite IH1. destruct (decide (k = i)) as [->|Hne].
        -- rewrite lookup_insert_eq, Hi.
           rewrite !decide_False by naive_solver. done.
        -- rewrite lookup_insert_ne by done. done.
      * rewrite IH2. destruct (decide (k = i)) as [->|Hne].
        -- rewrite lookup_insert_eq, Hi. naive_solver.
        -- rewrite lookup_insert_ne by done. done.
Qed.

(** Phase 1 erases the tokens of [endpoint] that are not in [tokens] and
    drops from [tokens] the ones [endpoint] already owns. *)
Lemma erase_previously_owned_spec endpoint tokens m :
  (∀ k, (erase_previously_owned endpoint tokens m).1 !! k
        = if decide (m !! k = Some endpoint ∧ k ∉ tokens) then None else m !! k)
  ∧ (∀ k, k ∈ (erase_previously_owned endpoint tokens m).2
          ↔ k ∈ tokens ∧ m !! k ≠ Some endpoint).
Proof. apply erase_previously_owned_fold. Qed.

(** Phase 2c maps every remaining token to [endpoint]. *)
Lemma insert_tokens_lookup endpoint tokens m k :
  (insert_tokens endpoint tokens m).1 !! k
  = if decide (k ∈ tokens) then Some endpoint else m !! k.
Proof.
  unfold insert_tokens. revert tokens.
  apply (set_fold_ind_L
    (λ (r : gmap token inet_address * bool) X,
       r.1 !! k = if decide (k ∈ X) then Some endpoint else m !! k)).
  - rewrite decide_False by set_solver. done.
  - intros x X r Hx IHr. unfold insert_token_step.
    destruct (r.1 !! x) as [prev|] eqn:Hprev; simpl.
    + destruct (decide (prev ≠ endpoint)) as [Hne|Heq].
      * destruct (decide (k = x)) as [->|Hkx].
        -- rewrite lookup_insert_eq, decide_True by set_solver. done.
        -- rewrite lookup_insert_ne, IHr by done.
           destruct (decide (k ∈ X)); [rewrite decide_True by set_solver
                                      |rewrite decide_False by set_solver]; done.
      * assert (prev = endpoint) as -> by (destruct (decide (prev = endpoint)); naive_solver).
        destruct (decide (k = x)) as [->|Hkx].
        -- rewrite Hprev, decide_True by set_solver. done.
        -- rewrite IHr.
           destruct (decide (k ∈ X)); [rewrite decide_True by set_solver
                                      |rewrite decide_False by set_solver]; done.
    + destruct (decide (k = x)) as [->|Hkx].
      * rewrite lookup_insert_eq, decide_True by set_solver. done.
      * rewrite lookup_insert_ne, IHr by done.
        destruct (decide (k ∈ X)); [rewrite decide_True by set_solver
                                   |rewrite decide_False by set_solver]; done.
Qed.

Lemma insert_tokens_empty endpoint m : insert_tokens endpoint ∅ m = (m, false).
Proof. unfold insert_tokens. apply set_fold_empty. Qed.

Lemma update_normal_tokens_run tokens endpoint (s : st token_metadata_impl.t) :
  tokens ≠ ∅ →
  topology.has_endpoint (_topology (this s)) endpoint = true →
  update_normal_tokens tokens endpoint s
  = (inr tt, mk_st (updated tokens endpoint (_static_ring_version s + 1) (this s))
                   (_static_ring_version s + 1)).
Proof.
  intros Hne Htopo. unfold update_normal_tokens. rewrite decide_False by done.
  unfold_M. rewrite Htopo. simpl. unfold invalidate_cached_rings, updated. simpl.
  destruct (insert_tokens _ _ _).2; reflexivity.
Qed.

(** After the call the tokens of [endpoint] are exactly [tokens]. *)
Lemma updated_owned tokens endpoint v tm k :
  _token_to_endpoint_map (updated tokens endpoint v tm) !! k = Some endpoint
  ↔ k ∈ tokens.
Proof.
  unfold updated. simpl.
  destruct (erase_previously_owned_spec endpoint tokens (_token_to_endpoint_map tm))
    as [H1 H2].
  rewrite insert_tokens_lookup.
  destruct (decide (k ∈ _)) as [Hin|Hnin].
  - apply H2 in Hin. naive_solver.
  - rewrite H1. rewrite H2 in Hnin.
    destruct (decide (_token_to_endpoint_map tm !! k = Some endpoint ∧ k ∉ tokens))
      as [[Hk HT]|Hno]; [naive_solver|].
    split.
    + intros Hk. destruct (decide (k ∈ tokens)); [done|naive_solver].
    + intros HinT. destruct (decide (_token_to_endpoint_map tm !! k = Some endpoint));
        [done|naive_solver].
Qed.

Lemma remove_by_value_idemp m endpoint :
  remove_by_value (remove_by_value m endpoint) endpoint = remove_by_value m endpoint.
Proof.
  apply map_eq. intros k. rewrite !lookup_remove_by_value.
  destruct (m !! k) as [o|]; [|done].
  destruct (decide (o = endpoint)); [done|]. by rewrite decide_False.
Qed.

(** A second call with the same arguments finds nothing to erase and
    nothing to insert. *)
Lemma updated_twice tokens endpoint v v' tm :
  updated tokens endpoint v' (updated tokens endpoint v tm)
  = with_ring_version v' (updated tokens endpoint v tm).
Proof.
  set (tm1 := updated tokens endpoint v tm).
  destruct (erase_previously_owned_spec endpoint tokens (_token_to_endpoint_map tm1))
    as [H1 H2].
  assert (Hmap : (erase_previously_owned endpoint tokens (_token_to_endpoint_map tm1)).1
                 = _token_to_endpoint_map tm1).
  { apply map_eq. intros k. rewrite H1. rewrite decide_False; [done|].
    intros [Hk HT]. apply HT. by apply (updated_owned tokens endpoint v tm k). }
  assert (Htok : (erase_previously_owned endpoint tokens (_token_to_endpoint_map tm1)).2 = ∅).
  { apply leibniz_equiv, elem_of_equiv_empty. intros k [HT Hk]%H2.
    apply Hk. by apply (updated_owned tokens endpoint v tm k). }
  unfold updated at 1. cbv zeta. rewrite Hmap, Htok, insert_tokens_empty. simpl.
  unfold with_ring_version. f_equal.
  - unfold tm1, updated. simpl. apply remove_by_value_idemp.
  - unfold tm1, updated. simpl. set_solver.
Qed.

End update_normal_tokens.

(** C8, as the code has it. With the endpoint in the topology, a second
    [update_normal_tokens] with the same arguments succeeds like the first
    and leaves every member as the first call left it, except the ring
    version: for a non-empty token set the second call takes the next value
    of the static ring version again; for an empty one it changes nothing. *)
Theorem update_normal_tokens_twice_same_but_ring_version (tokens : gset token)
    (endpoint : inet_address) (s : st token_metadata_impl.t) :
  topology.has_endpoint (_topology (this s)) endpoint = true →
  ∃ s1 s2,
    update_normal_tokens tokens endpoint s = (inr tt, s1)
    ∧ (update_normal_tokens tokens endpoint;; update_normal_tokens tokens endpoint) s
      = (inr tt, s2)
    ∧ this s2 = with_ring_version (_ring_version (this s2)) (this s1)
    ∧ (tokens = ∅ → s2 = s1)
    ∧ (tokens ≠ ∅ →
         _ring_version (this s2) = _ring_version (this s1) + 1
         ∧ _static_ring_version s2 = _static_ring_version s1 + 1).
Proof.
  intros Htopo. destruct (decide (tokens = ∅)) as [->|Hne].
  - exists s, s. unfold_M. rewrite !update_normal_tokens_empty.
    split; [done|]. split; [done|]. split; [by destruct s as [[] ?]|].
    split; [done|]. intros Hne. by destruct Hne.
  - eexists _, _. unfold_M.
    rewrite (update_normal_tokens_run tokens endpoint s Hne Htopo).
    split; [reflexivity|].
    rewrite update_normal_tokens_run; [|done|exact Htopo].
    split; [reflexivity|]. simpl. rewrite updated_twice.
    split; [reflexivity|]. split; [done|]. intros _. split; reflexivity.
Qed.

Lemma update_normal_tokens_twice_same_but_ring_version_witness :
  let s := mk_st (update_topology 7%N (mk_dc_rack "dc" "rack") (Some normal) init) 0 in
  topology.has_endpoint (_topology (this s)) 7%N = true
  ∧ ∃ s1 s2,
      update_normal_tokens {[key 10; key 20]} 7%N s = (inr tt, s1)
      ∧ (update_normal_tokens {[key 10; key 20]} 7%N;;
         update_normal_tokens {[key 10; key 20]} 7%N) s = (inr tt, s2)
      ∧ this s2 = with_ring_version (_ring_version (this s2)) (this s1).
Proof.
  intros s.
  assert (H : topology.has_endpoint (_topology (this s)) 7%N = true)
    by (vm_compute; reflexivity).
  split; [exact H|].
  destruct (update_normal_tokens_twice_same_but_ring_version {[key 10; key 20]} 7%N s H)
    as (s1 & s2 & H1 & H2 & Heq & _).
  exists s1, s2. auto.
Defined.

(** C8, counterexample. One token, an endpoint of the topology: the second
    call moves the ring version from 1 to 2. *)
Lemma update_normal_tokens_twice_differs :
  let s := mk_st (update_topology 7%N (mk_dc_rack "dc" "rack") (Some normal) init) 0 in
  topology.has_endpoint (_topology (this s)) 7%N = true
  ∧ (update_normal_tokens {[key 10]} 7%N;; update_normal_tokens {[key 10]} 7%N) s
    ≠ update_normal_tokens {[key 10]} 7%N s
  ∧ _ring_version (this (update_normal_tokens {[key 10]} 7%N s).2) = 1
  ∧ _ring_version
      (this ((update_normal_tokens {[key 10]} 7%N;;
              update_normal_tokens {[key 10]} 7%N) s).2) = 2.
Proof.
  intros s. split; [vm_compute; reflexivity|].
  split; [|split; vm_compute; reflexivity].
  intros H. apply (f_equal (λ r, _ring_version (this r.2))) in H.
  vm_compute in H. discriminate.
Qed.

(** ** [sorted_tokens] and the token map *)

Lemma StronglySorted_le_NoDup_lt (l : list token) :
  StronglySorted token_le l → NoDup l → StronglySorted token_lt l.
Proof.
  induction 1 as [|a l Hs IH Hall]; intros Hnd; [constructor|].
  apply NoDup_cons in Hnd as [Hnotin Hnd].
  constructor; [by apply IH|].
  rewrite Forall_forall in *. intros x Hx.
  apply token_not_le. intros Hxa.
  assert (x = a) as -> by (apply token_le_antisym; auto).
  done.
Qed.

(** [sort_tokens] puts [sorted_tokens] in step with the token map. *)
Lemma sort_tokens_in_sync tm : sorted_tokens_in_sync (sort_tokens tm).
Proof.
  unfold sorted_tokens_in_sync, sort_tokens. simpl. split.
  - apply StronglySorted_le_NoDup_lt.
    + apply (StronglySorted_merge_sort token_le).
    + rewrite merge_sort_Permutation. apply NoDup_fst_map_to_list.
  - intros k. rewrite merge_sort_Permutation.
    rewrite list_elem_of_fmap. split.
    + intros [[k' v] [-> Hin]]. apply elem_of_map_to_list in Hin. simpl. eauto.
    + intros [v Hv]. exists (k, v). split; [done|]. by apply elem_of_map_to_list.
Qed.

(** [token_metadata::remove_endpoint] ends with [sort_tokens]. *)
Lemma remove_endpoint_in_sync endpoint (s : st token_metadata_impl.t) :
  ∃ s', token_metadata.remove_endpoint endpoint s = (inr tt, s')
        ∧ sorted_tokens_in_sync (this s').
Proof.
  unfold token_metadata.remove_endpoint, remove_endpoint. unfold_M.
  eexists. split; [reflexivity|]. simpl. apply sort_tokens_in_sync.
Qed.


(** ** What every reachable snapshot satisfies *)

Section reachable_snapshots.

Implicit Types (tm : token_metadata_impl.t) (endpoint : inet_address)
  (tokens : gset token) (m : gmap token inet_address)
  (s : st token_metadata_impl.t).

Lemma sorted_tokens_in_sync_cover tm :
  sorted_tokens_in_sync tm → sorted_tokens_cover tm.
Proof. intros [Hs Hk]. split; [done|]. intros k. apply Hk. Qed.

(** When phase 2c inserts no new key, the map has the keys it had. *)
Lemma insert_tokens_no_sort endpoint tokens m :
  (insert_tokens endpoint tokens m).2 = false →
  ∀ k, is_Some ((insert_tokens endpoint tokens m).1 !! k) → is_Some (m !! k).
Proof.
  unfold insert_tokens. revert tokens.
  apply (set_fold_ind_L
    (λ (r : gmap token inet_address * bool) (X : gset token),
       r.2 = false → ∀ k, is_Some (r.1 !! k) → is_Some (m !! k))).
  - intros _ k. done.
  - intros x X r Hx IH. unfold insert_token_step.
    destruct (r.1 !! x) as [prev|] eqn:Hprev; simpl; [|discriminate].
    intros Hr k. specialize (IH Hr k).
    destruct (decide (prev ≠ endpoint)); [|done].
    destruct (decide (k = x)) as [->|Hne].
    + intros _. apply IH. by rewrite Hprev.
    + by rewrite lookup_insert_ne.
Qed.

Lemma erase_previously_owned_keys endpoint tokens m k :
  is_Some ((erase_previously_owned endpoint tokens m).1 !! k) → is_Some (m !! k).
Proof.
  rewrite (proj1 (erase_previously_owned_spec endpoint tokens m)).
  destruct (decide _); [by intros [? ?]|done].
Qed.

Lemma updated_cover tokens endpoint v tm :
  sorted_tokens_cover tm → sorted_tokens_cover (updated tokens endpoint v tm).
Proof.
  intros [Hs Hk]. unfold updated.
  set (phase1 := erase_previously_owned endpoint tokens (_token_to_endpoint_map tm)).
  destruct (insert_tokens endpoint phase1.2 phase1.1).2 eqn:Hsort.
  - apply sorted_tokens_in_sync_cover.
    apply (sort_tokens_in_sync
             (with_token_to_endpoint_map (insert_tokens endpoint phase1.2 phase1.1).1 tm)).
  - split; [exact Hs|]. simpl. intros k Hin. apply Hk.
    apply (erase_previously_owned_keys endpoint tokens).
    by apply (insert_tokens_no_sort endpoint phase1.2 phase1.1).
Qed.

(** A call that inserts a new token sorts, and leaves [sorted_tokens] in
    step with the token map. *)
Lemma updated_in_sync_when_inserting tokens endpoint v tm :
  (insert_tokens endpoint
     (erase_previously_owned endpoint tokens (_token_to_endpoint_map tm)).2
     (erase_previously_owned endpoint tokens (_token_to_endpoint_map tm)).1).2 = true →
  sorted_tokens_in_sync (updated tokens endpoint v tm).
Proof.
  intros Hsort. unfold updated. rewrite Hsort.
  apply (sort_tokens_in_sync
           (with_token_to_endpoint_map
              (insert_tokens endpoint
                 (erase_previously_owned endpoint tokens (_token_to_endpoint_map tm)).2
                 (erase_previously_owned endpoint tokens (_token_to_endpoint_map tm)).1).1
              tm)).
Qed.

(** A call that erases no token keeps [sorted_tokens] in step with the
    token map. *)
Lemma updated_in_sync_when_not_erasing tokens endpoint v tm :
  sorted_tokens_in_sync tm →
  (∀ k, _token_to_endpoint_map tm !! k = Some endpoint → k ∈ tokens) →
  sorted_tokens_in_sync (updated tokens endpoint v tm).
Proof.
  intros [Hs Hk] Hkeep.
  destruct (insert_tokens endpoint
     (erase_previously_owned endpoint tokens (_token_to_endpoint_map tm)).2
     (erase_previously_owned endpoint tokens (_token_to_endpoint_map tm)).1).2
    eqn:Hsort.
  { by apply updated_in_sync_when_inserting. }
  unfold updated. rewrite Hsort. split; [exact Hs|]. simpl.
  intros k. rewrite Hk. split.
  - intros Hin. rewrite insert_tokens_lookup.
    destruct (decide (k ∈ _)); [done|].
    rewrite (proj1 (erase_previously_owned_spec endpoint tokens _)).
    rewrite decide_False; [done|]. intros [Hown Hnot]. by apply Hnot, Hkeep.
  - intros Hin. apply (erase_previously_owned_keys endpoint tokens).
    by apply (insert_tokens_no_sort endpoint _ _ Hsort).
Qed.

Lemma update_normal_tokens_cover tokens endpoint s :
  sorted_tokens_cover (this s) →
  sorted_tokens_cover (this (update_normal_tokens tokens endpoint s).2).
Proof.
  intros Hc. destruct (decide (tokens = ∅)) as [->|Hne].
  { by rewrite update_normal_tokens_empty. }
  destruct (topology.has_endpoint (_topology (this s)) endpoint) eqn:Htopo.
  - rewrite update_normal_tokens_run by done. simpl. by apply updated_cover.
  - by rewrite update_normal_tokens_not_member.
Qed.

Lemma set_pending_ranges_ring ks l s :
  _sorted_tokens (this (set_pending_ranges ks l s).2) = _sorted_tokens (this s)
  ∧ _token_to_endpoint_map (this (set_pending_ranges ks l s).2)
    = _token_to_endpoint_map (this s).
Proof.
  unfold set_pending_ranges. destruct l as [|x l]; unfold_M; [done|].
  generalize (x :: l). intros l'.
  destruct (list_find _ l') as [[? ?]|]; done.
Qed.

Lemma on_object_this {U A} (o : U) (c : M U A) s :
  this (on_object (T:=token_metadata_impl.t) o c s).2 = this s
  ∧ ∃ r, (on_object (T:=token_metadata_impl.t) o c s).1 = inr r.
Proof.
  unfold on_object. destruct (c _) as [r s']. simpl. eauto.
Qed.

Lemma update_pending_ranges_ring strategy ks get_dc_rack s :
  _sorted_tokens (this (update_pending_ranges strategy ks get_dc_rack s).2)
  = _sorted_tokens (this s)
  ∧ _token_to_endpoint_map (this (update_pending_ranges strategy ks get_dc_rack s).2)
    = _token_to_endpoint_map (this s).
Proof.
  unfold update_pending_ranges, clone_after_all_left.
  unfold mbind, M_bind, bind, mret, M_ret, ret, get. cbn beta iota.
  destruct (_ && _).
  { apply set_pending_ranges_ring. }
  match goal with |- context [on_object ?o ?c s] =>
    destruct (on_object_this o c s) as [Hthis [r Hr]];
    destruct (on_object o c s) as [r1 s1] eqn:E1 end.
  simpl in Hthis, Hr. subst r1. rewrite <- Hthis.
  match goal with |- context [on_object ?o ?c s1] =>
    destruct (on_object_this o c s1) as [Hthis2 [r2 Hr2]];
    destruct (on_object o c s1) as [r3 s2] eqn:E2 end.
  simpl in Hthis2, Hr2. subst r3. rewrite <- Hthis2.
  destruct r2.1 as [e|l]; [done|]. apply set_pending_ranges_ring.
Qed.

Lemma perform_cover op s :
  sorted_tokens_cover (this s) → sorted_tokens_cover (this (perform op s).2).
Proof.
  intros Hc. destruct op; cbn [perform].
  - exact Hc.
  - by apply update_normal_tokens_cover.
  - destruct (remove_endpoint_in_sync endpoint s) as (s' & -> & Hsync).
    by apply sorted_tokens_in_sync_cover.
  - unfold token_metadata.add_bootstrap_tokens, add_bootstrap_tokens. unfold_M.
    destruct (find_bootstrap_collision _ _ _); exact Hc.
  - unfold modify, remove_bootstrap_tokens. simpl.
    destruct (decide (tokens = ∅)); exact Hc.
  - exact Hc.
  - exact Hc.
  - exact Hc.
  - exact Hc.
  - destruct Hc as [Hs Hk].
    destruct (update_pending_ranges_ring strategy keyspace_name get_dc_rack s)
      as [E1 E2].
    unfold token_metadata.update_pending_ranges, sorted_tokens_cover.
    rewrite E1, E2. done.
  - exact Hc.
Qed.

(** In every reachable snapshot [sorted_tokens] is strictly ascending and
    holds every key of the token map. *)
Lemma reachable_cover s : reachable s → sorted_tokens_cover (this s).
Proof.
  induction 1 as [v|op s Hr IH].
  - split; [constructor|]. simpl. intros k [x Hx]. by rewrite lookup_empty in Hx.
  - by apply perform_cover.
Qed.

Lemma reachable_sorted s :
  reachable s → StronglySorted token_le (_sorted_tokens (this s)).
Proof.
  intros [Hs _]%reachable_cover.
  induction Hs as [|a l Hs IH Hall]; constructor; [exact IH|].
  eapply Forall_impl; [exact Hall|]. intros b. apply token_lt_le.
Qed.

End reachable_snapshots.

(** C3, on the code. From the empty snapshot: endpoint 7 joins the
    topology, takes the tokens 1 and 2, then is given token 1 alone. The
    second [update_normal_tokens] erases token 2 from the token map and
    inserts nothing, so it does not sort: the snapshot is reachable by the
    public mutations, its [sorted_tokens] still holds token 2 and is not the
    ascending sort of the keys. *)
Theorem update_normal_tokens_keeps_erased_token_in_sorted_tokens :
  let s := mk_st init 0 in
  let run :=
    (perform (update_topology_ 7%N (mk_dc_rack "dc" "rack") (Some normal));;
     perform (update_normal_tokens_ {[key 1; key 2]} 7%N);;
     perform (update_normal_tokens_ {[key 1]} 7%N)) s in
  run.1 = inr tt
  ∧ reachable run.2
  ∧ _token_to_endpoint_map (this run.2) = {[key 1 := 7%N]}
  ∧ _sorted_tokens (this run.2) = [key 1; key 2]
  ∧ ¬ sorted_tokens_in_sync (this run.2).
Proof.
  intros s run.
  assert (Hmap : _token_to_endpoint_map (this run.2) = {[key 1 := 7%N]})
    by (vm_compute; reflexivity).
  assert (Hsorted : _sorted_tokens (this run.2) = [key 1; key 2])
    by (vm_compute; reflexivity).
  split; [vm_compute; reflexivity|]. split.
  { assert (Hrun : run.2
      = (perform (update_normal_tokens_ {[key 1]} 7%N)
           (perform (update_normal_tokens_ {[key 1; key 2]} 7%N)
              (perform (update_topology_ 7%N (mk_dc_rack "dc" "rack") (Some normal))
                 s).2).2).2) by (vm_compute; reflexivity).
    rewrite Hrun. do 3 apply reachable_step. apply reachable_init. }
  split; [exact Hmap|]. split; [exact Hsorted|].
  intros [_ Hkeys]. specialize (Hkeys (key 2)).
  rewrite Hsorted, Hmap in Hkeys.
  destruct (proj1 Hkeys) as [v Hv]; [set_solver|].
  vm_compute in Hv. discriminate.
Qed.

(** ** [first_token] on the ring *)

(** [first_token] on a sorted vector. *)
Lemma first_token_on_sorted (start : token) (tm : token_metadata_impl.t) :
  (sorted_tokens tm = [] →
     first_token start tm = inl (runtime_error sorted_tokens_is_empty))
  ∧ (sorted_tokens tm ≠ [] → StronglySorted token_le (sorted_tokens tm) →
     ∃ tok, first_token start tm = inr tok
       ∧ tok ∈ sorted_tokens tm
       ∧ ((∃ x, x ∈ sorted_tokens tm ∧ token_le start x) →
            token_le start tok
            ∧ ∀ x, x ∈ sorted_tokens tm → token_le start x → token_le tok x)
       ∧ ((∀ x, x ∈ sorted_tokens tm → token_lt x start) →
            sorted_tokens tm !! 0%nat = Some tok)).
Proof.
  unfold first_token, sorted_tokens. split.
  { intros Hv. by rewrite first_token_index_empty. }
  intros Hne Hs. rewrite first_token_index_nonempty by done.
  destruct (lower_bound_splits _ start Hs) as [Hr [Hlo Hhi]].
  set (r := lower_bound (_sorted_tokens tm) start) in *.
  destruct (decide (r = length (_sorted_tokens tm))) as [Hend|Hin].
  - (* every token is below [start]: wrap to index 0 *)
    assert (Hbelow : ∀ x, x ∈ _sorted_tokens tm → token_lt x start).
    { intros x [i Hi]%list_elem_of_lookup_1. apply (Hlo i); [|done].
      apply lookup_lt_Some in Hi. lia. }
    destruct (_sorted_tokens tm) as [|t0 rest] eqn:Hv; [done|].
    exists t0. split; [reflexivity|]. split; [by left|]. split.
    + intros (x & Hx & Hle). exfalso. apply Hle. by apply Hbelow.
    + intros _. reflexivity.
  - assert (Hlt : (r < length (_sorted_tokens tm))%nat) by lia.
    destruct (lookup_lt_is_Some_2 _ _ Hlt) as [tok Htok].
    exists tok. split; [by rewrite Htok|].
    assert (Hle : token_le start tok) by (apply (Hhi r); [lia|done]).
    split; [by eapply list_elem_of_lookup_2|]. split.
    + intros _. split; [done|].
      intros x [j Hj]%list_elem_of_lookup_1 Hsx.
      destruct (decide (j < r)%nat) as [Hjr|Hjr].
      * exfalso. apply Hsx. by apply (Hlo j).
      * apply (StronglySorted_lookup_le (_sorted_tokens tm) r j); [done|lia|done..].
    + intros Hbelow. exfalso. apply Hle. apply Hbelow.
      by eapply list_elem_of_lookup_2.
Qed.


(** C5. In every snapshot built by the public mutations: on an empty
    [sorted_tokens], [first_token] throws the empty-ring runtime error; on a
    non-empty one it returns a token of the vector, the smallest token
    greater than or equal to [start] when there is one, and the first token
    of the vector when [start] exceeds every token. *)
Theorem first_token_smallest_not_below_or_wraps (start : token)
    (s : st token_metadata_impl.t) :
  reachable s →
  (sorted_tokens (this s) = [] →
     first_token start (this s) = inl (runtime_error sorted_tokens_is_empty))
  ∧ (sorted_tokens (this s) ≠ [] →
     ∃ tok, first_token start (this s) = inr tok
       ∧ tok ∈ sorted_tokens (this s)
       ∧ ((∃ x, x ∈ sorted_tokens (this s) ∧ token_le start x) →
            token_le start tok
            ∧ ∀ x, x ∈ sorted_tokens (this s) → token_le start x → token_le tok x)
       ∧ ((∀ x, x ∈ sorted_tokens (this s) → token_lt x start) →
            sorted_tokens (this s) !! 0%nat = Some tok)).
Proof.
  intros Hr. destruct (first_token_on_sorted start (this s)) as [Hempty Hring].
  split; [exact Hempty|].
  intros Hne. apply Hring; [exact Hne|]. by apply reachable_sorted.
Qed.

Lemma first_token_smallest_not_below_or_wraps_witness :
  let s := (perform (update_normal_tokens_ {[key 10; key 20; key 30]} 1%N)
              (perform (update_topology_ 1%N (mk_dc_rack "dc" "rack") (Some normal))
                 (mk_st init 0)).2).2 in
  reachable s
  ∧ sorted_tokens (this s) = [key 10; key 20; key 30]
  ∧ (∃ tok, first_token (key 25) (this s) = inr tok ∧ tok ∈ sorted_tokens (this s))
  ∧ first_token (key 25) (this s) = inr (key 30)
  ∧ first_token (key 35) (this s) = inr (key 10).
Proof.
  intros s.
  assert (Hr : reachable s) by (do 2 apply reachable_step; apply reachable_init).
  assert (Hv : sorted_tokens (this s) = [key 10; key 20; key 30])
    by (vm_compute; reflexivity).
  split; [exact Hr|]. split; [exact Hv|]. split.
  - destruct (proj2 (first_token_smallest_not_below_or_wraps (key 25) s Hr))
      as (tok & Hrun & Hin & _).
    + rewrite Hv. discriminate.
    + exists tok. auto.
  - split; vm_compute; reflexivity.
Defined.

(** * Further properties *)

(** ** Ownership after [update_normal_tokens] *)

Section ownership.

Implicit Types (tm : token_metadata_impl.t) (endpoint : inet_address)
  (tok : token) (tokens : gset token) (m : gmap token inet_address)
  (s : st token_metadata_impl.t).

Lemma updated_lookup tokens endpoint v tm tok :
  _token_to_endpoint_map (updated tokens endpoint v tm) !! tok
  = if decide (tok ∈ tokens) then Some endpoint
    else match _token_to_endpoint_map tm !! tok with
         | Some o => if decide (o = endpoint) then None else Some o
         | None => None
         end.
Proof.
  unfold updated. simpl.
  destruct (erase_previously_owned_spec endpoint tokens (_token_to_endpoint_map tm))
    as [H1 H2].
  rewrite insert_tokens_lookup, H1.
  destruct (decide (tok ∈ tokens)) as [HT|HT].
  - destruct (decide (tok ∈ _)) as [Hin|Hnin]; [done|].
    rewrite decide_False by naive_solver.
    destruct (decide (_token_to_endpoint_map tm !! tok = Some endpoint)); [done|].
    exfalso. apply Hnin, H2. done.
  - rewrite decide_False by (rewrite H2; naive_solver).
    destruct (_token_to_endpoint_map tm !! tok) as [o|] eqn:Ho.
    + destruct (decide (o = endpoint)) as [->|Hne].
      * by rewrite decide_True.
      * rewrite decide_False; [done|]. intros [[= ?] _]. done.
    + by rewrite decide_False by naive_solver.
Qed.

Lemma get_tokens_elem_of addr tm tok :
  tok ∈ get_tokens addr tm ↔ get_endpoint tok tm = Some addr.
Proof.
  unfold get_tokens, get_endpoint. rewrite merge_sort_Permutation.
  rewrite list_elem_of_fmap. split.
  - intros [[k v] [-> [Hv Hin]%list_elem_of_filter]]. simpl in *. subst v.
    by apply elem_of_map_to_list.
  - intros Hk. exists (tok, addr). split; [done|].
    apply list_elem_of_filter. split; [done|]. by apply elem_of_map_to_list.
Qed.

Lemma get_tokens_sorted addr tm : StronglySorted token_lt (get_tokens addr tm).
Proof.
  unfold get_tokens. apply StronglySorted_le_NoDup_lt.
  - apply (StronglySorted_merge_sort token_le).
  - rewrite merge_sort_Permutation.
    assert (Hsub : sublist
              (filter (λ i : token * inet_address, i.2 = addr)
                      (map_to_list (_token_to_endpoint_map tm))).*1
              (map_to_list (_token_to_endpoint_map tm)).*1).
    { apply fmap_sublist, sublist_filter. }
    eapply sublist_NoDup; [|exact Hsub]. apply NoDup_fst_map_to_list.
Qed.

End ownership.

(** X1. A successful [update_normal_tokens] with a non-empty token set hands
    every token of the set to the endpoint, takes away every other token it
    owned, and leaves the tokens of the other endpoints that are not in the
    set where they were; [get_tokens] then lists the set in ascending
    order. *)
Theorem update_normal_tokens_ownership (tokens : gset token)
    (endpoint : inet_address) (s : st token_metadata_impl.t) :
  tokens ≠ ∅ →
  topology.has_endpoint (_topology (this s)) endpoint = true →
  ∃ s', update_normal_tokens tokens endpoint s = (inr tt, s')
    ∧ (∀ tok, get_endpoint tok (this s')
              = if decide (tok ∈ tokens) then Some endpoint
                else match get_endpoint tok (this s) with
                     | Some o => if decide (o = endpoint) then None else Some o
                     | None => None
                     end)
    ∧ (∀ tok, tok ∈ get_tokens endpoint (this s') ↔ tok ∈ tokens)
    ∧ StronglySorted token_lt (get_tokens endpoint (this s')).
Proof.
  intros Hne Htopo. eexists. split; [by apply update_normal_tokens_run|].
  simpl. split; [|split].
  - intros tok. unfold get_endpoint. apply updated_lookup.
  - intros tok. rewrite get_tokens_elem_of. unfold get_endpoint.
    apply updated_owned.
  - apply get_tokens_sorted.
Qed.

Lemma update_normal_tokens_ownership_witness :
  let s := (perform (update_normal_tokens_ {[key 10; key 20]} 1%N)
              (perform (update_topology_ 2%N (mk_dc_rack "dc" "rack") (Some normal))
                 (perform (update_topology_ 1%N (mk_dc_rack "dc" "rack") (Some normal))
                    (mk_st init 0)).2).2).2 in
  ({[key 20; key 30]} : gset token) ≠ ∅
  ∧ topology.has_endpoint (_topology (this s)) 2%N = true
  ∧ ∃ s', update_normal_tokens {[key 20; key 30]} 2%N s = (inr tt, s')
      ∧ get_endpoint (key 10) (this s') = Some 1%N
      ∧ get_endpoint (key 20) (this s') = Some 2%N
      ∧ ∀ tok, tok ∈ get_tokens 2%N (this s') ↔ tok ∈ ({[key 20; key 30]} : gset token).
Proof.
  intros s.
  assert (Hne : ({[key 20; key 30]} : gset token) ≠ ∅).
  { intros H. apply (f_equal elements) in H. vm_compute in H. discriminate. }
  assert (Htopo : topology.has_endpoint (_topology (this s)) 2%N = true)
    by (vm_compute; reflexivity).
  split; [exact Hne|]. split; [exact Htopo|].
  destruct (update_normal_tokens_ownership {[key 20; key 30]} 2%N s Hne Htopo)
    as (s' & Hrun & Hlookup & Htokens & _).
  exists s'. split; [exact Hrun|].
  rewrite !Hlookup. split; [vm_compute; reflexivity|].
  split; [vm_compute; reflexivity|exact Htokens].
Defined.

(** ** What the mutations leave alone *)

Section frames.

Implicit Types (tm : token_metadata_impl.t) (endpoint : inet_address)
  (tokens : gset token) (s : st token_metadata_impl.t).

Lemma with_pending_ranges_interval_map_id tm :
  with_pending_ranges_interval_map (_pending_ranges_interval_map tm) tm = tm.
Proof. by destruct tm. Qed.

(** [set_pending_ranges] writes the entry of its keyspace and nothing
    else. *)
Lemma set_pending_ranges_frame ks l s :
  _static_ring_version (set_pending_ranges ks l s).2 = _static_ring_version s
  ∧ ∃ pm, this (set_pending_ranges ks l s).2
          = with_pending_ranges_interval_map pm (this s)
        ∧ ∀ ks', ks' ≠ ks → pm !! ks' = _pending_ranges_interval_map (this s) !! ks'.
Proof.
  unfold set_pending_ranges. destruct l as [|x l]; unfold_M.
  { split; [done|]. eexists. split; [reflexivity|].
    intros ks' Hne. by rewrite lookup_delete_ne. }
  generalize (x :: l). intros l'.
  destruct (list_find _ l') as [[? ?]|]; simpl.
  - split; [done|]. exists (_pending_ranges_interval_map (this s)).
    split; [by rewrite with_pending_ranges_interval_map_id|done].
  - split; [done|]. eexists. split; [reflexivity|].
    intros ks' Hne. by rewrite lookup_insert_ne.
Qed.

Lemma grows_ret {T A} (a : A) : grows (ret (T:=T) a).
Proof. intros s. simpl. lia. Qed.

Lemma grows_bind {T A B} (c : M T A) (k : A → M T B) :
  grows c → (∀ a, grows (k a)) → grows (bind c k).
Proof.
  intros Hc Hk s. unfold bind. specialize (Hc s).
  destruct (c s) as [[e|a] s1]; simpl in *; [done|].
  specialize (Hk a s1). lia.
Qed.

Lemma grows_modify {T} (f : T → T) : grows (modify f).
Proof. intros s. simpl. lia. Qed.

Lemma grows_get {T} : grows (get (T:=T)).
Proof. intros s. simpl. lia. Qed.

Lemma grows_throw {T A} e : grows (throw (T:=T) (A:=A) e).
Proof. intros s. simpl. lia. Qed.

Lemma grows_invalidate_cached_rings : grows invalidate_cached_rings.
Proof. intros s. simpl. lia. Qed.

Lemma grows_on_object {T U A} (o : U) (c : M U A) :
  grows c → grows (on_object (T:=T) o c).
Proof.
  intros Hc s. unfold on_object.
  specialize (Hc (mk_st o (_static_ring_version s))).
  destruct (c _) as [r s1]. simpl in *. lia.
Qed.

Lemma grows_for_each {T A} (l : list A) (body : A → M T unit) :
  (∀ x, grows (body x)) → grows (for_each l body).
Proof.
  intros Hb. induction l as [|x l IH]; simpl.
  - apply grows_ret.
  - apply grows_bind; [apply Hb|]. intros _. exact IH.
Qed.

Lemma grows_update_normal_tokens tokens endpoint :
  grows (update_normal_tokens tokens endpoint).
Proof.
  unfold update_normal_tokens. destruct (decide (tokens = ∅)); [apply grows_ret|].
  apply grows_bind; [apply grows_get|]. intros tm.
  destruct (negb _); [apply grows_throw|].
  repeat (apply grows_bind; [first [apply grows_modify|apply grows_invalidate_cached_rings]|];
          intros _).
  destruct (insert_tokens _ _ _).2; [apply grows_modify|apply grows_ret].
Qed.

Lemma grows_remove_endpoint endpoint : grows (remove_endpoint endpoint).
Proof.
  unfold remove_endpoint.
  repeat (apply grows_bind; [apply grows_modify|]; intros _).
  apply grows_invalidate_cached_rings.
Qed.

Lemma grows_set_pending_ranges ks l : grows (set_pending_ranges ks l).
Proof. intros s. rewrite (proj1 (set_pending_ranges_frame ks l s)). lia. Qed.

Lemma grows_foldl {T A B} (f : M T B → A → M T B) (l : list A) (c : M T B) :
  grows c → (∀ c x, grows c → grows (f c x)) → grows (foldl f c l).
Proof.
  intros Hc Hf. revert c Hc. induction l as [|x l IH]; intros c Hc; simpl; [done|].
  apply IH, Hf, Hc.
Qed.

Lemma grows_calculate_pending_ranges_for_bootstrap tm strategy l get_dc_rack :
  grows (calculate_pending_ranges_for_bootstrap tm strategy l get_dc_rack).
Proof.
  unfold calculate_pending_ranges_for_bootstrap.
  apply grows_bind.
  - apply grows_foldl; [apply grows_ret|].
    intros c x Hc. apply grows_bind; [exact Hc|]. intros acc.
    apply grows_bind; [apply grows_modify|]. intros _.
    apply grows_bind; [apply grows_update_normal_tokens|]. intros _.
    apply grows_bind; [apply grows_get|]. intros alm.
    apply grows_bind; [apply grows_remove_endpoint|]. intros _.
    apply grows_ret.
  - intros res. apply grows_bind; [apply grows_modify|]. intros _. apply grows_ret.
Qed.

Lemma grows_clone_after_all_left : grows clone_after_all_left.
Proof.
  unfold clone_after_all_left.
  apply grows_bind; [apply grows_get|]. intros tm.
  apply grows_bind; [|intros r; apply grows_ret].
  apply grows_on_object.
  apply grows_bind; [|intros _; apply grows_modify].
  apply grows_for_each. intros x. apply grows_remove_endpoint.
Qed.

Lemma grows_update_pending_ranges strategy ks get_dc_rack :
  grows (update_pending_ranges strategy ks get_dc_rack).
Proof.
  unfold update_pending_ranges.
  apply grows_bind; [apply grows_get|]. intros tm.
  destruct (_ && _); [apply grows_set_pending_ranges|].
  apply grows_bind; [apply grows_clone_after_all_left|]. intros alm.
  apply grows_bind.
  - apply grows_on_object, grows_calculate_pending_ranges_for_bootstrap.
  - intros r. destruct r.1; [apply grows_throw|apply grows_set_pending_ranges].
Qed.

(** [update_pending_ranges] touches one entry of the pending-ranges map of
    the snapshot it is called on. *)
Lemma update_pending_ranges_frame strategy ks get_dc_rack s :
  ∃ pm, this (update_pending_ranges strategy ks get_dc_rack s).2
        = with_pending_ranges_interval_map pm (this s)
      ∧ ∀ ks', ks' ≠ ks → pm !! ks' = _pending_ranges_interval_map (this s) !! ks'.
Proof.
  unfold update_pending_ranges, clone_after_all_left.
  unfold mbind, M_bind, bind, mret, M_ret, ret, get. cbn beta iota.
  destruct (_ && _).
  { apply set_pending_ranges_frame. }
  match goal with |- context [on_object ?o ?c s] =>
    destruct (on_object_this o c s) as [Hthis [r Hr]];
    destruct (on_object o c s) as [r1 s1] eqn:E1 end.
  simpl in Hthis, Hr. subst r1. rewrite <- Hthis.
  match goal with |- context [on_object ?o ?c s1] =>
    destruct (on_object_this o c s1) as [Hthis2 [r2 Hr2]];
    destruct (on_object o c s1) as [r3 s2] eqn:E2 end.
  simpl in Hthis2, Hr2. subst r3. rewrite <- Hthis2.
  destruct r2.1 as [e|l].
  - exists (_pending_ranges_interval_map (this s2)).
    split; [by rewrite with_pending_ranges_interval_map_id|done].
  - apply set_pending_ranges_frame.
Qed.

End frames.

(** ** What [update_pending_ranges] can throw *)

Section outcomes.

Implicit Types (tm : token_metadata_impl.t) (endpoint : inet_address)
  (tokens : gset token) (s : st token_metadata_impl.t).

Lemma never_throws_ret {T A} (a : A) : never_throws (ret (T:=T) a).
Proof. intros s. by exists a. Qed.

Lemma never_throws_bind {T A B} (c : M T A) (k : A → M T B) :
  never_throws c → (∀ a, never_throws (k a)) → never_throws (bind c k).
Proof.
  intros Hc Hk s. unfold bind. destruct (Hc s) as [a Ha].
  destruct (c s) as [[e|a'] s1]; simpl in *; [discriminate|]. apply Hk.
Qed.

Lemma never_throws_modify {T} (f : T → T) : never_throws (modify f).
Proof. intros s. by exists tt. Qed.

Lemma never_throws_get {T} : never_throws (get (T:=T)).
Proof. intros s. by eexists. Qed.

Lemma never_throws_invalidate_cached_rings : never_throws invalidate_cached_rings.
Proof. intros s. by exists tt. Qed.

Lemma never_throws_remove_endpoint endpoint : never_throws (remove_endpoint endpoint).
Proof.
  unfold remove_endpoint.
  repeat (apply never_throws_bind; [apply never_throws_modify|]; intros _).
  apply never_throws_invalidate_cached_rings.
Qed.

Lemma never_throws_foldl {T A B} (f : M T B → A → M T B) (l : list A) (c : M T B) :
  never_throws c → (∀ c x, never_throws c → never_throws (f c x)) →
  never_throws (foldl f c l).
Proof.
  intros Hc Hf. revert c Hc. induction l as [|x l IH]; intros c Hc; simpl; [done|].
  apply IH, Hf, Hc.
Qed.

Lemma never_throws_calculate_pending_ranges_for_bootstrap tm strategy l get_dc_rack :
  never_throws (calculate_pending_ranges_for_bootstrap tm strategy l get_dc_rack).
Proof.
  unfold calculate_pending_ranges_for_bootstrap.
  apply never_throws_bind.
  - apply never_throws_foldl; [apply never_throws_ret|].
    intros c x Hc. apply never_throws_bind; [exact Hc|]. intros acc s.
    unfold mbind, M_bind, bind, modify. cbn beta iota.
    set (s1 := mk_st (update_topology x.1 (get_dc_rack x.1) (Some joining) (this s))
                     (_static_ring_version s)).
    assert (Htopo : topology.has_endpoint (_topology (this s1)) x.1 = true).
    { unfold s1, update_topology, topology.has_endpoint,
        topology.add_or_update_endpoint. simpl.
      apply bool_decide_eq_true_2.
      destruct (_topology (this s) !! x.1); rewrite lookup_insert_eq; eauto. }
    assert (Hrun : ∃ s2, update_normal_tokens x.2 x.1 s1 = (inr tt, s2)).
    { destruct (decide (x.2 = ∅)) as [->|Hne].
      - exists s1. apply update_normal_tokens_empty.
      - by apply update_normal_tokens_member. }
    destruct Hrun as [s2 ->]. unfold get. cbn beta iota.
    destruct (never_throws_remove_endpoint x.1 s2) as [[] Hrm].
    destruct (remove_endpoint x.1 s2) as [[e|[]] s3]; simpl in Hrm; [discriminate|].
    eexists. reflexivity.
  - intros res. apply never_throws_bind; [apply never_throws_modify|].
    intros _. apply never_throws_ret.
Qed.

Lemma on_object_run {T U A} (o : U) (c : M U A) (s : st T) :
  on_object o c s
  = (inr ((c (mk_st o (_static_ring_version s))).1,
          this (c (mk_st o (_static_ring_version s))).2),
     mk_st (this s) (_static_ring_version (c (mk_st o (_static_ring_version s))).2)).
Proof. unfold on_object. by destruct (c _). Qed.

(** [set_pending_ranges] throws when an entry names an endpoint that is not
    in the topology, and then changes nothing. *)
Lemma set_pending_ranges_outcome ks l s :
  (set_pending_ranges ks l s).1 = inr tt
  ∨ ∃ x, x ∈ l ∧ topology.has_endpoint (_topology (this s)) x.2 = false
         ∧ set_pending_ranges ks l s
           = (inl (on_internal_error (must_be_member_or_pending x.2)), s).
Proof.
  unfold set_pending_ranges. destruct l as [|x0 l]; unfold_M; [by left|].
  generalize (x0 :: l). intros l'.
  destruct (list_find _ l') as [[i x]|] eqn:Hfind; [|by left].
  right. apply list_find_Some in Hfind as (Hi & Hx & _).
  exists x. split; [by eapply list_elem_of_lookup_2|]. done.
Qed.

End outcomes.

(** X2. With a replication strategy that does not throw,
    [update_pending_ranges] changes nothing of the snapshot it is called
    on but the pending-ranges entry of its keyspace: the token map, the
    sorted tokens, the transition sets, the topology, the ring version and
    the entries of the other keyspaces stay; the static ring version does
    not go down. *)
Theorem update_pending_ranges_touches_one_entry
    (strategy : abstract_replication_strategy) (ks : sstring)
    (get_dc_rack : inet_address → endpoint_dc_rack)
    (s : st token_metadata_impl.t) :
  (∃ pm, this (update_pending_ranges strategy ks get_dc_rack s).2
         = with_pending_ranges_interval_map pm (this s)
       ∧ ∀ ks', ks' ≠ ks → pm !! ks' = _pending_ranges_interval_map (this s) !! ks')
  ∧ _static_ring_version s
    <= _static_ring_version (update_pending_ranges strategy ks get_dc_rack s).2.
Proof.
  split; [apply update_pending_ranges_frame|apply grows_update_pending_ranges].
Qed.

(** X3. With a replication strategy that does not throw,
    [update_pending_ranges] either succeeds or throws the internal error of
    [set_pending_ranges] for an endpoint that is not in the topology of the
    snapshot; the simulated bootstraps never throw. *)
Theorem update_pending_ranges_throws_only_for_non_member
    (strategy : abstract_replication_strategy) (ks : sstring)
    (get_dc_rack : inet_address → endpoint_dc_rack)
    (s : st token_metadata_impl.t) :
  (update_pending_ranges strategy ks get_dc_rack s).1 = inr tt
  ∨ ∃ ep, topology.has_endpoint (_topology (this s)) ep = false
          ∧ (update_pending_ranges strategy ks get_dc_rack s).1
            = inl (on_internal_error (must_be_member_or_pending ep)).
Proof.
  unfold update_pending_ranges, clone_after_all_left.
  unfold mbind, M_bind, bind, mret, M_ret, ret, get. cbn beta iota.
  destruct (_ && _); [by left|].
  rewrite on_object_run. cbn beta iota. cbn [fst snd].
  rewrite on_object_run. cbn beta iota. cbn [fst snd this _static_ring_version].
  match goal with |- context [calculate_pending_ranges_for_bootstrap ?a ?b ?c ?d ?e] =>
    destruct (never_throws_calculate_pending_ranges_for_bootstrap a b c d e) as [l Hl];
    rewrite Hl end.
  match goal with |- context [set_pending_ranges ks l ?s0] =>
    destruct (set_pending_ranges_outcome ks l s0) as [Hok|(x & _ & Hx & Hrun)] end.
  - by left.
  - right. exists x.2. split; [exact Hx|]. by rewrite Hrun.
Qed.

(** ** From [set_pending_ranges] to [pending_endpoints_for] *)

Section pending_lookup.

Implicit Types (tm : token_metadata_impl.t) (ep : inet_address) (tok : token)
  (r : range) (l : list (range * inet_address))
  (g : list (range * gset inet_address)) (s : st token_metadata_impl.t).

Lemma icl_contains_not_empty (i : icl.interval) tok :
  icl.contains i tok = true → icl.is_empty i = false.
Proof.
  unfold icl.contains, icl.is_empty.
  intros [H1 H2]%andb_true_iff.
  destruct (icl.left_closed i), (icl.right_closed i); simpl;
    apply bool_decide_eq_true_1 in H1; apply bool_decide_eq_true_1 in H2;
    apply bool_decide_eq_false_2.
  - intros H. apply (token_lt_irrefl tok).
    eapply token_le_lt_trans; [exact H2|]. eapply token_lt_le_trans; [exact H|exact H1].
  - intros H. apply H. eapply token_le_lt_trans; [exact H1|exact H2].
  - intros H. apply H. eapply token_lt_le_trans; [exact H1|exact H2].
  - intros H. apply H. eapply token_lt_trans; [exact H1|exact H2].
Qed.

(** The grouping keeps every pair and adds none. *)
Lemma group_emplace_spec r ep g r' e' :
  (∃ set, (r', set) ∈ group_emplace r ep g ∧ e' ∈ set)
  ↔ (r' = r ∧ e' = ep) ∨ ∃ set, (r', set) ∈ g ∧ e' ∈ set.
Proof.
  induction g as [|[r0 s0] g IH]; simpl.
  - split.
    + intros (set & Hin & He). apply list_elem_of_singleton in Hin.
      injection Hin as -> ->. left. set_solver.
    + intros [[-> ->]|(set & Hin & _)]; [|by apply not_elem_of_nil in Hin].
      exists {[ep]}. split; [by left|set_solver].
  - destruct (decide (r0 = r)) as [->|Hne].
    + split.
      * intros (set & Hin & He). apply elem_of_cons in Hin as [Heq|Hin].
        -- injection Heq as -> ->.
           apply elem_of_union in He as [He|He].
           ++ left. set_solver.
           ++ right. exists s0. split; [by left|done].
        -- right. exists set. split; [by right|done].
      * intros [[-> ->]|(set & Hin & He)].
        -- exists ({[ep]} ∪ s0). split; [by left|set_solver].
        -- apply elem_of_cons in Hin as [Heq|Hin].
           ++ injection Heq as -> ->.
              exists ({[ep]} ∪ s0). split; [by left|set_solver].
           ++ exists set. split; [by right|done].
    + split.
      * intros (set & Hin & He). apply elem_of_cons in Hin as [Heq|Hin].
        -- injection Heq as -> ->. right. exists s0. split; [by left|done].
        -- destruct (proj1 IH (ex_intro _ set (conj Hin He)))
             as [?|(set' & ? & ?)]; [by left|].
           right. exists set'. split; [by right|done].
      * intros [Heq|(set & Hin & He)].
        -- destruct (proj2 IH (or_introl Heq)) as (set & ? & ?).
           exists set. split; [by right|done].
        -- apply elem_of_cons in Hin as [Heq|Hin].
           ++ injection Heq as -> ->. exists s0. split; [by left|done].
           ++ destruct (proj2 IH (or_intror (ex_intro _ set (conj Hin He))))
                as (set' & ? & ?).
              exists set'. split; [by right|done].
Qed.

Lemma group_all_spec l g r' e' :
  (∃ set, (r', set) ∈ foldl (λ map x, group_emplace x.1 x.2 map) g l ∧ e' ∈ set)
  ↔ (r', e') ∈ l ∨ ∃ set, (r', set) ∈ g ∧ e' ∈ set.
Proof.
  revert g. induction l as [|[r ep] l IH]; intros g; simpl.
  - split; [by right|]. intros [Hin|?]; [by apply not_elem_of_nil in Hin|done].
  - rewrite IH, group_emplace_spec, elem_of_cons. split.
    + intros [?|[[-> ->]|?]]; auto.
    + intros [[[= -> ->]|?]|?]; auto.
Qed.

Lemma at_token_nil tok : icl.at_token [] tok = ∅.
Proof. reflexivity. Qed.

Lemma at_token_cons (x : icl.interval * gset inet_address)
    (im : list (icl.interval * gset inet_address)) tok e' :
  e' ∈ icl.at_token (x :: im) tok
  ↔ (e' ∈ x.2 ∧ icl.contains x.1 tok = true) ∨ e' ∈ icl.at_token im tok.
Proof.
  unfold icl.at_token. simpl. rewrite elem_of_union.
  destruct (icl.contains x.1 tok); set_solver.
Qed.

(** The interval map built from the groups associates an endpoint with a
    token exactly when a group holds the endpoint and its interval holds
    the token. *)
Lemma interval_map_at_token g (im : list (icl.interval * gset inet_address)) tok e' :
  e' ∈ icl.at_token
         (foldl (λ im m, icl.add im (range_to_interval m.1, m.2)) im g) tok
  ↔ e' ∈ icl.at_token im tok
    ∨ ∃ r set, (r, set) ∈ g ∧ e' ∈ set
               ∧ icl.contains (range_to_interval r) tok = true.
Proof.
  revert im. induction g as [|[r0 s0] g IH]; intros im; simpl.
  - split; [by left|]. intros [?|(r & set & Hin & _)]; [done|].
    by apply not_elem_of_nil in Hin.
  - rewrite IH. unfold icl.add. simpl.
    assert (Hadd : e' ∈ icl.at_token
                     (if icl.is_empty (range_to_interval r0) || bool_decide (s0 = ∅)
                      then im else (range_to_interval r0, s0) :: im) tok
                   ↔ e' ∈ icl.at_token im tok
                     ∨ (e' ∈ s0 ∧ icl.contains (range_to_interval r0) tok = true)).
    { destruct (icl.is_empty (range_to_interval r0)) eqn:Hemp; simpl.
      - split; [by left|]. intros [?|[_ Hc]]; [done|].
        apply icl_contains_not_empty in Hc. congruence.
      - destruct (bool_decide (s0 = ∅)) eqn:Hs0.
        + apply bool_decide_eq_true_1 in Hs0. subst s0.
          split; [by left|]. intros [?|[? _]]; [done|set_solver].
        + rewrite at_token_cons. simpl. tauto. }
    rewrite Hadd. split.
    + intros [[?|[? ?]]|(r & set & Hin & He & Hc)].
      * by left.
      * right. exists r0, s0. split; [by left|done].
      * right. exists r, set. split; [by right|done].
    + intros [?|(r & set & Hin & He & Hc)]; [by left; left|].
      apply elem_of_cons in Hin as [Heq|Hin].
      * injection Heq as -> ->. left. by right.
      * right. exists r, set. done.
Qed.

(** Its segments: the groups with a non-empty interval and a non-empty
    set. *)
Lemma interval_map_segments g (im : list (icl.interval * gset inet_address)) e' :
  (∃ item, item ∈ foldl (λ im m, icl.add im (range_to_interval m.1, m.2)) im g
           ∧ e' ∈ item.2)
  ↔ (∃ item, item ∈ im ∧ e' ∈ item.2)
    ∨ ∃ r set, (r, set) ∈ g ∧ e' ∈ set
               ∧ icl.is_empty (range_to_interval r) = false.
Proof.
  revert im. induction g as [|[r0 s0] g IH]; intros im; simpl.
  - split; [by left|]. intros [?|(r & set & Hin & _)]; [done|].
    by apply not_elem_of_nil in Hin.
  - rewrite IH. unfold icl.add. simpl.
    assert (Hadd : (∃ item, item ∈ (if icl.is_empty (range_to_interval r0)
                                        || bool_decide (s0 = ∅)
                                     then im else (range_to_interval r0, s0) :: im)
                            ∧ e' ∈ item.2)
                   ↔ (∃ item, item ∈ im ∧ e' ∈ item.2)
                     ∨ (e' ∈ s0 ∧ icl.is_empty (range_to_interval r0) = false)).
    { destruct (icl.is_empty (range_to_interval r0)) eqn:Hemp; simpl.
      - split; [by left|]. intros [?|[_ ?]]; [done|discriminate].
      - destruct (bool_decide (s0 = ∅)) eqn:Hs0.
        + apply bool_decide_eq_true_1 in Hs0. subst s0.
          split; [by left|]. intros [?|[? _]]; [done|set_solver].
        + split.
          * intros (item & [->|Hin]%elem_of_cons & He); [by right|].
            left. by exists item.
          * intros [(item & Hin & He)|[He _]].
            -- exists item. split; [by right|done].
            -- exists (range_to_interval r0, s0). split; [by left|done]. }
    rewrite Hadd. split.
    + intros [[?|[? ?]]|(r & set & Hin & He & Hc)].
      * by left.
      * right. exists r0, s0. split; [by left|done].
      * right. exists r, set. split; [by right|done].
    + intros [?|(r & set & Hin & He & Hc)]; [by left; left|].
      apply elem_of_cons in Hin as [Heq|Hin].
      * injection Heq as -> ->. left. by right.
      * right. exists r, set. done.
Qed.

(** What [pending_endpoints_for] reads from the entry of a keyspace. *)
Lemma pending_endpoints_for_entry tok ks tm
    (im : list (icl.interval * gset inet_address)) e' :
  _pending_ranges_interval_map tm !! ks = Some im →
  e' ∈ pending_endpoints_for tok ks tm ↔ e' ∈ icl.at_token im tok.
Proof.
  intros Him. unfold pending_endpoints_for. rewrite Him.
  destruct im as [|x im].
  { simpl. rewrite at_token_nil. set_solver. }
  cbn [icl.empty]. unfold icl.find.
  assert (Hlow : icl.lower (range_to_interval (singular_range tok)) = tok)
    by reflexivity.
  rewrite Hlow.
  destruct (bool_decide (icl.at_token (x :: im) tok = ∅)) eqn:Hempty.
  - apply bool_decide_eq_true_1 in Hempty. rewrite Hempty. set_solver.
  - by rewrite elem_of_elements.
Qed.

Lemma set_pending_ranges_installs ks l s :
  l ≠ [] →
  (∀ x, x ∈ l → topology.has_endpoint (_topology (this s)) x.2 = true) →
  set_pending_ranges ks l s
  = (inr tt,
     mk_st (with_pending_ranges_interval_map
              (<[ks := foldl (λ im m, icl.add im (range_to_interval m.1, m.2))
                             icl.empty_map
                             (foldl (λ map x, group_emplace x.1 x.2 map) [] l)]>
                 (_pending_ranges_interval_map (this s))) (this s))
           (_static_ring_version s)).
Proof.
  intros Hne Hall. unfold set_pending_ranges.
  destruct l as [|x0 l]; [done|]. unfold_M.
  generalize dependent (x0 :: l). intros l' _ Hall.
  destruct (list_find _ l') as [[i x]|] eqn:Hfind; [|reflexivity].
  apply list_find_Some in Hfind as (Hi & Hx & _).
  rewrite Hall in Hx; [discriminate|]. by eapply list_elem_of_lookup_2.
Qed.

Lemma pending_lookup_after_install ks l tm tok ep :
  ep ∈ pending_endpoints_for tok ks
         (with_pending_ranges_interval_map
            (<[ks := foldl (λ im m, icl.add im (range_to_interval m.1, m.2))
                           icl.empty_map
                           (foldl (λ map x, group_emplace x.1 x.2 map) [] l)]>
               (_pending_ranges_interval_map tm)) tm)
  ↔ ∃ r, (r, ep) ∈ l ∧ icl.contains (range_to_interval r) tok = true.
Proof.
  rewrite (pending_endpoints_for_entry tok ks _ _ ep (lookup_insert_eq _ _ _)).
  rewrite interval_map_at_token. unfold icl.empty_map. rewrite at_token_nil.
  split.
  - intros [Hin|(r & set & Hin & He & Hc)]; [set_solver|].
    exists r. split; [|done].
    destruct (proj1 (group_all_spec l [] r ep) (ex_intro _ set (conj Hin He)))
      as [?|(? & Hnil & _)]; [done|by apply not_elem_of_nil in Hnil].
  - intros (r & Hin & Hc). right.
    destruct (proj2 (group_all_spec l [] r ep) (or_introl Hin)) as (set & ? & ?).
    exists r, set. done.
Qed.

End pending_lookup.

(** X4. When [set_pending_ranges] is given a non-empty multimap whose
    endpoints are all in the topology, it succeeds, and afterwards
    [pending_endpoints_for] returns for a token exactly the endpoints paired
    with a range whose interval holds the token, and [has_pending_ranges]
    holds for an endpoint exactly when it is paired with a range whose
    interval is not empty. *)
Theorem set_pending_ranges_then_lookup (ks : sstring)
    (l : list (range * inet_address)) (s : st token_metadata_impl.t) :
  l ≠ [] →
  (∀ x, x ∈ l → topology.has_endpoint (_topology (this s)) x.2 = true) →
  ∃ s', set_pending_ranges ks l s = (inr tt, s')
    ∧ (∀ tok ep, ep ∈ pending_endpoints_for tok ks (this s')
                 ↔ ∃ r, (r, ep) ∈ l ∧ icl.contains (range_to_interval r) tok = true)
    ∧ (∀ ep, has_pending_ranges ks ep (this s') = true
             ↔ ∃ r, (r, ep) ∈ l ∧ icl.is_empty (range_to_interval r) = false).
Proof.
  intros Hne Hall. eexists. split; [by apply set_pending_ranges_installs|].
  simpl. split.
  - intros tok ep. apply pending_lookup_after_install.
  - intros ep. unfold has_pending_ranges. simpl. rewrite lookup_insert_eq.
    rewrite existsb_exists.
    assert (Hex : (∃ x : icl.interval * gset inet_address,
                     In x (foldl (λ im m, icl.add im (range_to_interval m.1, m.2))
                                 icl.empty_map
                                 (foldl (λ map x, group_emplace x.1 x.2 map) [] l))
                     ∧ bool_decide (ep ∈ x.2) = true)
                  ↔ ∃ item, item ∈ foldl (λ im m, icl.add im (range_to_interval m.1, m.2))
                                       icl.empty_map
                                       (foldl (λ map x, group_emplace x.1 x.2 map) [] l)
                            ∧ ep ∈ item.2).
    { split; intros (x & Hin & He); exists x.
      - split; [by apply list_elem_of_In|]. by apply bool_decide_eq_true in He.
      - split; [by apply list_elem_of_In|]. by apply bool_decide_eq_true. }
    rewrite Hex, interval_map_segments. unfold icl.empty_map. split.
    + intros [(item & Hin & _)|(r & set & Hin & He & Hc)];
        [by apply not_elem_of_nil in Hin|].
      exists r. split; [|done].
      destruct (proj1 (group_all_spec l [] r ep) (ex_intro _ set (conj Hin He)))
        as [?|(? & Hnil & _)]; [done|by apply not_elem_of_nil in Hnil].
    + intros (r & Hin & Hc). right.
      destruct (proj2 (group_all_spec l [] r ep) (or_introl Hin)) as (set & ? & ?).
      exists r, set. done.
Qed.

(** ** Replacements in [update_pending_ranges] *)

Section replacing.

Implicit Types (tm : token_metadata_impl.t) (ep : inet_address) (tok : token)
  (r : range) (l : list (range * inet_address)) (s : st token_metadata_impl.t).

Lemma foldl_keeps {A B} (f : list A → B → list A) (ys : list B) (acc : list A) x :
  (∀ acc y, x ∈ acc → x ∈ f acc y) → x ∈ acc → x ∈ foldl f acc ys.
Proof.
  intros Hf. revert acc. induction ys as [|y ys IH]; intros acc Hin; simpl; [done|].
  apply IH, Hf, Hin.
Qed.

Lemma foldl_adds {A B} (f : list A → B → list A) (ys : list B) (acc : list A) x y0 :
  (∀ acc y, x ∈ acc → x ∈ f acc y) → y0 ∈ ys → (∀ acc, x ∈ f acc y0) →
  x ∈ foldl f acc ys.
Proof.
  intros Hf Hin Hy0. revert acc. induction ys as [|y ys IH]; intros acc; simpl.
  - by apply not_elem_of_nil in Hin.
  - apply elem_of_cons in Hin as [<-|Hin].
    + apply foldl_keeps; [exact Hf|apply Hy0].
    + by apply IH.
Qed.

Lemma foldl_cons_keeps {A B} (g : B → A) (ys : list B) (acc : list A) x :
  x ∈ acc → x ∈ foldl (λ acc y, g y :: acc) acc ys.
Proof. apply foldl_keeps. intros acc' y Hin. by right. Qed.

Lemma foldl_cons_adds {A B} (g : B → A) (ys : list B) (acc : list A) y0 :
  y0 ∈ ys → g y0 ∈ foldl (λ acc y, g y :: acc) acc ys.
Proof.
  intros Hin. apply (foldl_adds _ ys acc (g y0) y0); [|done|].
  - intros acc' y H. by right.
  - intros acc'. by left.
Qed.

Lemma calculate_pending_ranges_for_replacing_adds tm strategy l existing replacing_node r :
  _replacing_endpoints tm !! existing = Some replacing_node →
  r ∈ get_ranges strategy existing tm →
  (r, replacing_node) ∈ calculate_pending_ranges_for_replacing tm strategy l.
Proof.
  intros Hrep Hr. unfold calculate_pending_ranges_for_replacing.
  destruct (decide (_replacing_endpoints tm = ∅)) as [Hempty|_].
  { rewrite Hempty, lookup_empty in Hrep. discriminate. }
  apply (foldl_adds _ _ _ _ (existing, replacing_node)).
  - intros acc node Hin.
    apply (foldl_cons_keeps (λ x, (x, node.2))). exact Hin.
  - by apply elem_of_map_to_list.
  - intros acc. simpl.
    apply (foldl_cons_adds (λ x, (x, replacing_node))). exact Hr.
Qed.

Lemma calculate_pending_ranges_for_leaving_keeps tm strategy l alm x :
  x ∈ l → x ∈ calculate_pending_ranges_for_leaving tm strategy l alm.
Proof.
  intros Hin. unfold calculate_pending_ranges_for_leaving.
  destruct (decide (_leaving_endpoints tm = ∅)); [done|].
  apply foldl_keeps; [|done]. intros acc r Hacc. cbv zeta.
  apply foldl_keeps; [|done]. intros acc' ep Hacc'.
  destruct (decide (ep ∈ _)); [done|by right].
Qed.

Lemma bind_inr {T A B} (c : M T A) (k : A → M T B) (u : st T) b :
  (bind c k u).1 = inr b → ∃ a (u' : st T), c u = (inr a, u') ∧ (k a u').1 = inr b.
Proof.
  unfold bind. destruct (c u) as [[e|a] u']; simpl; [discriminate|]. eauto.
Qed.

Lemma calculate_pending_ranges_for_bootstrap_keeps tm strategy l get_dc_rack s l' x :
  (calculate_pending_ranges_for_bootstrap tm strategy l get_dc_rack s).1 = inr l' →
  x ∈ l → x ∈ l'.
Proof.
  unfold calculate_pending_ranges_for_bootstrap.
  unfold mbind, M_bind, mret, M_ret.
  intros (res & s1 & Hfold & Hrest)%bind_inr Hin.
  apply bind_inr in Hrest as ([] & s2 & _ & Hret). simpl in Hret.
  injection Hret as <-.
  revert res s s1 Hfold.
  generalize (map_to_list (bootstrap_tokens_by_endpoint tm)). intros bs.
  induction bs as [|b bs IH] using rev_ind; intros res s s1 Hfold.
  - simpl in Hfold. injection Hfold as <- _. exact Hin.
  - rewrite foldl_snoc in Hfold.
    assert (Hfold1 := f_equal fst Hfold). simpl in Hfold1.
    apply bind_inr in Hfold1 as (npr & s3 & Hprev & Hbody).
    specialize (IH npr s s3 Hprev).
    apply bind_inr in Hbody as ([] & s4 & _ & Hbody).
    apply bind_inr in Hbody as ([] & s5 & _ & Hbody).
    apply bind_inr in Hbody as (alm & s6 & _ & Hbody).
    apply bind_inr in Hbody as ([] & s7 & _ & Hbody).
    simpl in Hbody. injection Hbody as <-.
    apply (foldl_cons_keeps (λ r, (r, b.1))). exact IH.
Qed.

Lemma set_pending_ranges_success ks l s :
  (set_pending_ranges ks l s).1 = inr tt → l ≠ [] →
  set_pending_ranges ks l s
  = (inr tt,
     mk_st (with_pending_ranges_interval_map
              (<[ks := foldl (λ im m, icl.add im (range_to_interval m.1, m.2))
                             icl.empty_map
                             (foldl (λ map x, group_emplace x.1 x.2 map) [] l)]>
                 (_pending_ranges_interval_map (this s))) (this s))
           (_static_ring_version s)).
Proof.
  intros Hok Hne. unfold set_pending_ranges in *.
  destruct l as [|x0 l]; [done|]. unfold_M.
  generalize dependent (x0 :: l). intros l' Hok _.
  destruct (list_find _ l') as [[i x]|] eqn:Hfind; [discriminate|reflexivity].
Qed.

End replacing.

(** X5. When [update_pending_ranges] succeeds, every range that the
    strategy gives to a node being replaced is pending for the replacing
    node: [pending_endpoints_for] returns the replacing node for every token
    of such a range. *)
Theorem update_pending_ranges_replacing_node_is_pending
    (strategy : abstract_replication_strategy) (ks : sstring)
    (get_dc_rack : inet_address → endpoint_dc_rack)
    (s : st token_metadata_impl.t)
    (existing replacing_node : inet_address) (r : range) (tok : token) :
  _replacing_endpoints (this s) !! existing = Some replacing_node →
  r ∈ get_ranges strategy existing (this s) →
  icl.contains (range_to_interval r) tok = true →
  (update_pending_ranges strategy ks get_dc_rack s).1 = inr tt →
  replacing_node
  ∈ pending_endpoints_for tok ks
      (this (update_pending_ranges strategy ks get_dc_rack s).2).
Proof.
  intros Hrep Hr Hc.
  unfold update_pending_ranges, clone_after_all_left.
  unfold mbind, M_bind, bind, mret, M_ret, ret, get. cbn beta iota.
  assert (Hne : bool_decide (_replacing_endpoints (this s) = ∅) = false).
  { apply bool_decide_eq_false_2. intros Hempty.
    rewrite Hempty, lookup_empty in Hrep. discriminate. }
  rewrite Hne, andb_false_r.
  rewrite on_object_run. cbn beta iota. cbn [fst snd].
  rewrite on_object_run. cbn beta iota. cbn [fst snd this _static_ring_version].
  match goal with |- context [calculate_pending_ranges_for_bootstrap ?a ?b ?c ?d ?e] =>
    destruct (never_throws_calculate_pending_ranges_for_bootstrap a b c d e) as [l Hl];
    pose proof (calculate_pending_ranges_for_bootstrap_keeps a b c d e l
                  (r, replacing_node) Hl) as Hkeep;
    rewrite Hl end.
  assert (Hin : (r, replacing_node) ∈ l).
  { apply Hkeep, calculate_pending_ranges_for_leaving_keeps.
    by apply calculate_pending_ranges_for_replacing_adds with existing. }
  intros Hok. rewrite set_pending_ranges_success; [|exact Hok|].
  - simpl. apply pending_lookup_after_install. by exists r.
  - intros ->. by apply not_elem_of_nil in Hin.
Qed.

Lemma set_pending_ranges_then_lookup_witness :
  let s := (perform (update_topology_ 3%N (mk_dc_rack "dc" "rack") (Some joining))
              (mk_st init 0)).2 in
  let r := mk_range (Some (mk_bound (key 5) false)) (Some (mk_bound (key 10) true)) in
  let l := [(r, 3%N)] in
  l ≠ []
  ∧ (∀ x, x ∈ l → topology.has_endpoint (_topology (this s)) x.2 = true)
  ∧ ∃ s', set_pending_ranges "ks" l s = (inr tt, s')
      ∧ (3%N ∈ pending_endpoints_for (key 7) "ks" (this s'))
      ∧ has_pending_ranges "ks" 3%N (this s') = true.
Proof.
  intros s r l.
  assert (Hne : l ≠ []) by discriminate.
  assert (Hall : ∀ x, x ∈ l → topology.has_endpoint (_topology (this s)) x.2 = true).
  { intros x ->%list_elem_of_singleton. vm_compute. reflexivity. }
  split; [exact Hne|]. split; [exact Hall|].
  destruct (set_pending_ranges_then_lookup "ks" l s Hne Hall)
    as (s' & Hrun & Hlookup & Hhas).
  exists s'. split; [exact Hrun|]. split.
  - apply Hlookup. exists r. split; [by left|vm_compute; reflexivity].
  - apply Hhas. exists r. split; [by left|vm_compute; reflexivity].
Defined.

Lemma update_pending_ranges_replacing_node_is_pending_witness :
  let s := (perform (add_replacing_endpoint_ 2%N 3%N)
              (perform (update_topology_ 3%N (mk_dc_rack "dc" "rack") (Some replacing))
                 (perform (update_topology_ 2%N (mk_dc_rack "dc" "rack") (Some normal))
                    (mk_st init 0)).2).2).2 in
  let r := mk_range (Some (mk_bound (key 5) false)) (Some (mk_bound (key 10) true)) in
  let strategy :=
    mk_strategy (λ ep _, if decide (ep = 2%N) then [r] else []) (λ _ _, []) in
  let get_dc_rack := λ _ : inet_address, mk_dc_rack "dc" "rack" in
  _replacing_endpoints (this s) !! 2%N = Some 3%N
  ∧ r ∈ get_ranges strategy 2%N (this s)
  ∧ icl.contains (range_to_interval r) (key 7) = true
  ∧ (update_pending_ranges strategy "ks" get_dc_rack s).1 = inr tt
  ∧ 3%N ∈ pending_endpoints_for (key 7) "ks"
            (this (update_pending_ranges strategy "ks" get_dc_rack s).2).
Proof.
  intros s r strategy get_dc_rack.
  assert (H1 : _replacing_endpoints (this s) !! 2%N = Some 3%N)
    by (vm_compute; reflexivity).
  assert (H2 : r ∈ get_ranges strategy 2%N (this s)) by (by left).
  assert (H3 : icl.contains (range_to_interval r) (key 7) = true)
    by (vm_compute; reflexivity).
  assert (H4 : (update_pending_ranges strategy "ks" get_dc_rack s).1 = inr tt)
    by (vm_compute; reflexivity).
  repeat (split; [assumption|]).
  exact (update_pending_ranges_replacing_node_is_pending
           strategy "ks" get_dc_rack s 2%N 3%N r (key 7) H1 H2 H3 H4).
Defined.

(** ** Walking the ring *)

Section ring_walk.

Local Open Scope nat_scope.

Implicit Types (tm : token_metadata_impl.t) (v : list token) (tok : token).

Lemma StronglySorted_lookup_lt v i j x y :
  StronglySorted token_lt v → i < j →
  v !! i = Some x → v !! j = Some y → token_lt x y.
Proof.
  intros Hs. revert i j. induction Hs as [|a l Hs IH Hall]; intros i j Hij Hi Hj.
  - by rewrite lookup_nil in Hi.
  - destruct i as [|i], j as [|j]; simpl in *; try lia.
    + injection Hi as <-. rewrite Forall_forall in Hall.
      apply Hall. by eapply list_elem_of_lookup_2.
    + apply (IH i j); [lia|done..].
Qed.

Lemma StronglySorted_lt_le v :
  StronglySorted token_lt v → StronglySorted token_le v.
Proof.
  induction 1 as [|a l Hs IH Hall]; constructor; [exact IH|].
  eapply Forall_impl; [exact Hall|]. intros b. apply token_lt_le.
Qed.

(** On a strictly ascending vector [std::lower_bound] finds the position of
    a token that is there. *)
Lemma lower_bound_of_member v i tok :
  StronglySorted token_lt v → v !! i = Some tok → lower_bound v tok = i.
Proof.
  intros Hs Hi.
  destruct (lower_bound_splits v tok (StronglySorted_lt_le v Hs)) as [Hr [Hlo Hhi]].
  set (r := lower_bound v tok) in *.
  destruct (decide (i < r)) as [Hlt|Hge].
  { exfalso. apply (token_lt_irrefl tok). by apply (Hlo i). }
  destruct (decide (r = i)) as [|Hne]; [done|]. exfalso.
  assert (Hri : r < i) by lia.
  assert (Hrlen : r < length v) by (apply lookup_lt_Some in Hi; lia).
  destruct (lookup_lt_is_Some_2 _ _ Hrlen) as [x Hx].
  assert (token_le tok x) as Hle by (by apply (Hhi r)).
  apply Hle. by apply (StronglySorted_lookup_lt v r i).
Qed.

Lemma lower_bound_of_non_member v tok x :
  StronglySorted token_lt v → tok ∉ v → v !! lower_bound v tok = Some x → x ≠ tok.
Proof.
  intros Hs Hnot Hx ->. apply Hnot. by eapply list_elem_of_lookup_2.
Qed.

(** One step of the turning vector. *)
Lemma rotate_at_step v cur x :
  v !! cur = Some x →
  rotate_at cur v = x :: (drop (S cur) v ++ take cur v)
  ∧ rotate_at (if decide (S cur = length v) then 0 else S cur) v
    = (drop (S cur) v ++ take cur v) ++ [x].
Proof.
  intros Hx. unfold rotate_at. split.
  - by rewrite (drop_S _ _ _ Hx).
  - destruct (decide (S cur = length v)) as [Hend|Hnot].
    + rewrite drop_0, take_0, app_nil_r.
      rewrite drop_ge by lia. simpl.
      rewrite <- (take_drop cur v) at 1. f_equal.
      rewrite (drop_S _ _ _ Hx), drop_ge by lia. done.
    + rewrite <- app_assoc. f_equal. by apply take_S_r.
Qed.

Lemma tokens_iterator_walk_rotate tm : ∀ fuel cur rem,
  rem ≤ fuel → rem ≤ length (sorted_tokens tm) → cur < length (sorted_tokens tm) →
  tokens_iterator_walk fuel tm (mk_tokens_iterator cur rem)
  = take rem (rotate_at cur (sorted_tokens tm)).
Proof.
  induction fuel as [|fuel IH]; intros cur rem Hfuel Hrem Hcur.
  - assert (rem = 0) as -> by lia. by rewrite take_0.
  - simpl. unfold tokens_iterator_eq, tokens_iterator_end. simpl.
    destruct rem as [|rem].
    { rewrite bool_decide_eq_true_2 by done. by rewrite take_0. }
    rewrite bool_decide_eq_false_2 by done.
    unfold tokens_iterator_deref, tokens_iterator_incr. simpl.
    destruct (lookup_lt_is_Some_2 _ _ Hcur) as [x Hx]. rewrite Hx.
    destruct (rotate_at_step _ _ _ Hx) as [Hhead Hnext].
    rewrite Hhead. simpl. f_equal. rewrite Nat.sub_0_r.
    rewrite IH; [|lia|lia|].
    + rewrite Hnext. rewrite take_app_le; [done|].
      rewrite length_app, length_drop, length_take. lia.
    + destruct (decide _); lia.
Qed.

Lemma length_rotate_at i v : length (rotate_at i v) = length v.
Proof.
  unfold rotate_at. rewrite length_app, length_drop, length_take. lia.
Qed.

Lemma rotate_at_Permutation i v : rotate_at i v ≡ₚ v.
Proof.
  unfold rotate_at. rewrite Permutation_app_comm. by rewrite take_drop.
Qed.

Lemma first_token_index_lt start tm i :
  first_token_index start tm = inr i → i < length (sorted_tokens tm).
Proof.
  unfold first_token_index, sorted_tokens.
  destruct (_sorted_tokens tm) as [|t0 rest] eqn:Hv; [discriminate|].
  rewrite <- Hv.
  assert (Hpos : 0 < length (_sorted_tokens tm)) by (rewrite Hv; simpl; lia).
  destruct (decide _) as [Hend|Hnot]; intros [= <-]; [done|].
  unfold lower_bound in *.
  assert (Hle : lower_bound_loop (length (_sorted_tokens tm)) (_sorted_tokens tm)
                  start 0 (length (_sorted_tokens tm)) ≤ length (_sorted_tokens tm)).
  { clear. generalize (length (_sorted_tokens tm)) at 1 as fuel.
    assert (H : ∀ fuel first len, first + len ≤ length (_sorted_tokens tm) →
              lower_bound_loop fuel (_sorted_tokens tm) start first len ≤ first + len).
    { induction fuel as [|fuel IH]; intros first len Hlen; simpl; [lia|].
      destruct (decide (len = 0)) as [->|Hne]; [lia|].
      change (lower_bound_loop (S fuel) (_sorted_tokens tm) start first len ≤ first + len).
      rewrite lower_bound_loop_step by done.
      assert (len / 2 < len) by (apply Nat.div_lt; lia).
      destruct (_ !! _); [|lia]. destruct (decide _).
      - etrans; [apply IH; lia|lia].
      - etrans; [apply IH; lia|lia]. }
    intros fuel. apply (H fuel 0 (length (_sorted_tokens tm))). lia. }
  lia.
Qed.

End ring_walk.

(** X6. In every snapshot built by the public mutations, [get_predecessor]
    of the token at position [i] of [sorted_tokens] is the token at
    position [i - 1], and the last token of the vector for the first one;
    for a token that is not in [sorted_tokens] it throws. *)
Theorem get_predecessor_previous_or_last (tok : token)
    (s : st token_metadata_impl.t) :
  reachable s →
  (tok ∉ sorted_tokens (this s) →
     get_predecessor tok (this s) = inl token_error_in_get_predecessor)
  ∧ (∀ i, sorted_tokens (this s) !! i = Some tok →
       ∃ p, get_predecessor tok (this s) = inr p
         ∧ token_metadata_impl.sorted_tokens (this s)
             !! (if decide (i = 0%nat)
                 then (length (sorted_tokens (this s)) - 1)%nat
                 else (i - 1)%nat) = Some p).
Proof.
  intros Hr. destruct (reachable_cover s Hr) as [Hs _].
  unfold get_predecessor, sorted_tokens in *. split.
  - intros Hnot.
    destruct (_sorted_tokens (this s) !! lower_bound (_sorted_tokens (this s)) tok)
      as [x|] eqn:Hx; [|done].
    rewrite decide_True; [done|]. by eapply lower_bound_of_non_member.
  - intros i Hi. rewrite (lower_bound_of_member _ i tok Hs Hi), Hi.
    rewrite decide_False by (intros H; by apply H).
    destruct (decide (i = 0%nat)) as [->|Hne].
    + rewrite last_lookup.
      assert (Hlen : (length (_sorted_tokens (this s)) - 1
                      < length (_sorted_tokens (this s)))%nat).
      { apply lookup_lt_Some in Hi. lia. }
      destruct (lookup_lt_is_Some_2 _ _ Hlen) as [p Hp].
      replace (pred (length (_sorted_tokens (this s))))
        with (length (_sorted_tokens (this s)) - 1)%nat by lia.
      rewrite Hp. eauto.
    + assert (Hlen : (i - 1 < length (_sorted_tokens (this s)))%nat).
      { apply lookup_lt_Some in Hi. lia. }
      destruct (lookup_lt_is_Some_2 _ _ Hlen) as [p Hp]. rewrite Hp. eauto.
Qed.

Lemma get_predecessor_previous_or_last_witness :
  let s := (perform (update_normal_tokens_ {[key 10; key 20; key 30]} 1%N)
              (perform (update_topology_ 1%N (mk_dc_rack "dc" "rack") (Some normal))
                 (mk_st init 0)).2).2 in
  reachable s
  ∧ get_predecessor (key 10) (this s) = inr (key 30)
  ∧ get_predecessor (key 30) (this s) = inr (key 20)
  ∧ get_predecessor (key 25) (this s) = inl token_error_in_get_predecessor.
Proof.
  intros s.
  assert (Hr : reachable s) by (do 2 apply reachable_step; apply reachable_init).
  split; [exact Hr|].
  destruct (get_predecessor_previous_or_last (key 10) s Hr) as [_ H10].
  destruct (get_predecessor_previous_or_last (key 30) s Hr) as [_ H30].
  destruct (get_predecessor_previous_or_last (key 25) s Hr) as [H25 _].
  split; [|split].
  - destruct (H10 0%nat) as (p & -> & Hp); [vm_compute; reflexivity|].
    vm_compute in Hp. by injection Hp as <-.
  - destruct (H30 2%nat) as (p & -> & Hp); [vm_compute; reflexivity|].
    vm_compute in Hp. by injection Hp as <-.
  - apply H25. intros Hin. vm_compute in Hin.
    repeat (apply elem_of_cons in Hin as [Hin|Hin]; [discriminate|]).
    by apply not_elem_of_nil in Hin.
Defined.

Lemma ring_range_rotate (start : token) (tm : token_metadata_impl.t) :
  sorted_tokens tm ≠ [] →
  ∃ i, first_token_index start tm = inr i
       ∧ (i < length (sorted_tokens tm))%nat
       ∧ ring_range start tm = inr (rotate_at i (sorted_tokens tm)).
Proof.
  intros Hne. unfold ring_range, tokens_iterator_begin.
  destruct (first_token_index start tm) as [e|i] eqn:Hi.
  { unfold sorted_tokens in Hne.
    rewrite first_token_index_nonempty in Hi by done. discriminate. }
  pose proof (first_token_index_lt start tm i Hi) as Hlt.
  exists i. split; [done|]. split; [done|]. simpl. f_equal.
  rewrite (tokens_iterator_walk_rotate tm); [|lia|done|done].
  apply take_ge. by rewrite length_rotate_at.
Qed.

(** X7. On an empty [sorted_tokens], [ring_range] throws the empty-ring
    runtime error instead of being an empty range. Otherwise it visits
    every token of [sorted_tokens] exactly once: it is the vector turned to
    start at [first_token_index(start)], so it begins with
    [first_token(start)] and has as many tokens as the vector. *)
Theorem ring_range_is_rotation (start : token) (tm : token_metadata_impl.t) :
  (sorted_tokens tm = [] →
     ring_range start tm = inl (runtime_error sorted_tokens_is_empty))
  ∧ (sorted_tokens tm ≠ [] →
     ∃ i tokens,
       first_token_index start tm = inr i
       ∧ ring_range start tm = inr tokens
       ∧ tokens = rotate_at i (sorted_tokens tm)
       ∧ length tokens = length (sorted_tokens tm)
       ∧ tokens ≡ₚ sorted_tokens tm
       ∧ first_token start tm = inr (default start (head tokens))).
Proof.
  split.
  - intros Hv. unfold ring_range, tokens_iterator_begin.
    by rewrite first_token_index_empty.
  - intros Hne. destruct (ring_range_rotate start tm Hne) as (i & Hi & Hlt & Hrun).
    exists i, (rotate_at i (sorted_tokens tm)).
    split; [exact Hi|]. split; [exact Hrun|]. split; [reflexivity|].
    split; [apply length_rotate_at|]. split; [apply rotate_at_Permutation|].
    unfold first_token. rewrite Hi.
    destruct (lookup_lt_is_Some_2 _ _ Hlt) as [x Hx].
    rewrite (proj1 (rotate_at_step _ _ _ Hx)).
    unfold sorted_tokens in Hx. rewrite Hx. reflexivity.
Qed.

Lemma ring_range_is_rotation_witness :
  let tm := with_sorted_tokens [key 10; key 20; key 30] init in
  sorted_tokens tm ≠ []
  ∧ ring_range (key 25) tm = inr [key 30; key 10; key 20]
  ∧ ∃ i tokens, first_token_index (key 25) tm = inr i
       ∧ ring_range (key 25) tm = inr tokens
       ∧ length tokens = length (sorted_tokens tm).
Proof.
  intros tm.
  assert (Hne : sorted_tokens tm ≠ []) by discriminate.
  split; [exact Hne|]. split; [vm_compute; reflexivity|].
  destruct (proj2 (ring_range_is_rotation (key 25) tm) Hne)
    as (i & tokens & Hi & Hrun & _ & Hlen & _).
  exists i, tokens. auto.
Defined.

(** X8. In every snapshot built by the public mutations with a non-empty
    ring, [ring_range] from an exclusive bound without key leaves out the
    token of the bound: when that token is in the ring the range is the one
    from the token without its first element, otherwise it is the whole
    range. From an inclusive bound or a bound with a key it is the range
    from the token of the bound, and from no bound the range from
    [minimum_token]. *)
Theorem ring_range_from_exclusive_bound_skips_token
    (b : partition_range_bound) (s : st token_metadata_impl.t) :
  reachable s → sorted_tokens (this s) ≠ [] →
  ring_range_from_bound None (this s) = ring_range minimum_token (this s)
  ∧ (bound_is_inclusive b = true ∨ rp_has_key (bound_value b) = true →
       ring_range_from_bound (Some b) (this s)
       = ring_range (rp_token (bound_value b)) (this s))
  ∧ (bound_is_inclusive b = false → rp_has_key (bound_value b) = false →
       ∃ full tokens,
         ring_range (rp_token (bound_value b)) (this s) = inr full
         ∧ ring_range_from_bound (Some b) (this s) = inr tokens
         ∧ tokens = (if decide (rp_token (bound_value b) ∈ sorted_tokens (this s))
                     then tail full else full)
         ∧ rp_token (bound_value b) ∉ tokens).
Proof.
  intros Hr Hne.
  pose proof (reachable_cover s Hr) as [Hlt _].
  pose proof (reachable_sorted s Hr) as Hle.
  split; [|split].
  - unfold ring_range_from_bound.
    destruct (ring_range minimum_token (this s)) as [e|[|x r]]; reflexivity.
  - intros Hcase. unfold ring_range_from_bound.
    destruct (ring_range _ (this s)) as [e|[|x r]]; [reflexivity..|].
    destruct Hcase as [-> | ->]; simpl; [reflexivity|].
    by rewrite andb_false_r.
  - intros Hex Hkey. set (tok := rp_token (bound_value b)).
    destruct (ring_range_rotate tok (this s) Hne) as (i & Hi & Hilt & Hrun).
    set (full := rotate_at i (sorted_tokens (this s))) in *.
    assert (Hlen : length full = length (sorted_tokens (this s)))
      by apply length_rotate_at.
    assert (Hperm : full ≡ₚ sorted_tokens (this s)) by apply rotate_at_Permutation.
    destruct (proj2 (first_token_on_sorted tok (this s)) Hne Hle)
      as (t & Ht & Hin & Hleast & _).
    assert (Hfirst : first_token tok (this s) = inr (default tok (head full))).
    { unfold first_token. rewrite Hi.
      destruct (lookup_lt_is_Some_2 _ _ Hilt) as [x Hx].
      unfold full. rewrite (proj1 (rotate_at_step _ _ _ Hx)).
      unfold sorted_tokens in Hx. rewrite Hx. reflexivity. }
    rewrite Hfirst in Ht. injection Ht as Ht.
    assert (Hnd : NoDup full).
    { rewrite Hperm. unfold sorted_tokens.
      clear -Hlt. induction Hlt as [|a l Hs IH Hall]; constructor; [|done].
      intros Hin. rewrite Forall_forall in Hall.
      by apply (token_lt_irrefl a), Hall. }
    destruct full as [|x rest].
    { exfalso. simpl in Hlen. destruct (sorted_tokens (this s)); [done|discriminate]. }
    simpl in Ht. subst t.
    exists (x :: rest). unfold ring_range_from_bound. fold tok. rewrite Hrun, Hex, Hkey.
    simpl.
    destruct (decide (tok ∈ sorted_tokens (this s))) as [Hmem|Hnot].
    + assert (x = tok) as ->.
      { destruct Hleast as [H1 H2]; [by exists tok; split; [|apply token_le_refl]|].
        apply token_le_antisym; [|done]. apply H2; [done|apply token_le_refl]. }
      rewrite bool_decide_eq_true_2 by done.
      exists rest. split; [done|]. split; [done|]. split; [done|].
      by apply NoDup_cons in Hnd as [? _].
    + assert (tok ≠ x) by (intros ->; done).
      rewrite bool_decide_eq_false_2 by done.
      exists (x :: rest). split; [done|]. split; [done|]. split; [done|].
      by rewrite Hperm.
Qed.

Lemma ring_range_from_exclusive_bound_skips_token_witness :
  let s := (perform (update_normal_tokens_ {[key 10; key 20; key 30]} 1%N)
              (perform (update_topology_ 1%N (mk_dc_rack "dc" "rack") (Some normal))
                 (mk_st init 0)).2).2 in
  let b := mk_partition_range_bound (mk_ring_position (key 20) false) false in
  reachable s ∧ sorted_tokens (this s) ≠ []
  ∧ ring_range_from_bound (Some b) (this s) = inr [key 30; key 10]
  ∧ ∃ full tokens,
      ring_range (key 20) (this s) = inr full
      ∧ ring_range_from_bound (Some b) (this s) = inr tokens
      ∧ key 20 ∉ tokens.
Proof.
  intros s b.
  assert (Hr : reachable s) by (do 2 apply reachable_step; apply reachable_init).
  assert (Hne : sorted_tokens (this s) ≠ []) by (vm_compute; discriminate).
  split; [exact Hr|]. split; [exact Hne|]. split; [vm_compute; reflexivity|].
  destruct (ring_range_from_exclusive_bound_skips_token b s Hr Hne) as (_ & _ & Hskip).
  destruct (Hskip eq_refl eq_refl) as (full & tokens & Hfull & Hrun & _ & Hnot).
  exists full, tokens. auto.
Defined.

(** ** Invariants of the reachable snapshots *)

Section more_invariants.

Implicit Types (tm : token_metadata_impl.t) (endpoint : inet_address)
  (tokens : gset token) (m : gmap token inet_address)
  (s : st token_metadata_impl.t).

Lemma update_normal_token_owners_spec tm e :
  e ∈ _normal_token_owners (update_normal_token_owners tm)
  ↔ ∃ k, _token_to_endpoint_map tm !! k = Some e.
Proof.
  unfold update_normal_token_owners. simpl.
  generalize (_token_to_endpoint_map tm). intros m.
  apply (map_fold_weak_ind
    (λ (r : gset inet_address) (m' : gmap token inet_address),
       e ∈ r ↔ ∃ k, m' !! k = Some e)).
  - split; [set_solver|]. intros [k Hk]. by rewrite lookup_empty in Hk.
  - intros i x m' r Hi IH. rewrite elem_of_union, elem_of_singleton, IH. split.
    + intros [->|[k Hk]].
      * exists i. by rewrite lookup_insert_eq.
      * exists k. rewrite lookup_insert_ne; [done|]. intros ->. congruence.
    + intros [k Hk]. destruct (decide (i = k)) as [->|Hne].
      * rewrite lookup_insert_eq in Hk. left. congruence.
      * rewrite lookup_insert_ne in Hk by done. right. eauto.
Qed.

Lemma updated_owners_in_sync tokens endpoint v tm :
  normal_token_owners_in_sync (updated tokens endpoint v tm).
Proof.
  intros e. unfold updated. cbn [_normal_token_owners _token_to_endpoint_map].
  apply (update_normal_token_owners_spec
           (with_token_to_endpoint_map
              (insert_tokens endpoint
                 (erase_previously_owned endpoint tokens (_token_to_endpoint_map tm)).2
                 (erase_previously_owned endpoint tokens (_token_to_endpoint_map tm)).1).1
              tm) e).
Qed.

Lemma update_normal_tokens_owners_in_sync tokens endpoint s :
  normal_token_owners_in_sync (this s) →
  normal_token_owners_in_sync (this (update_normal_tokens tokens endpoint s).2).
Proof.
  intros Hc. destruct (decide (tokens = ∅)) as [->|Hne].
  { by rewrite update_normal_tokens_empty. }
  destruct (topology.has_endpoint (_topology (this s)) endpoint) eqn:Htopo.
  - rewrite update_normal_tokens_run by done. simpl. apply updated_owners_in_sync.
  - by rewrite update_normal_tokens_not_member.
Qed.

Lemma remove_endpoint_owners_in_sync endpoint s :
  normal_token_owners_in_sync (this s) →
  normal_token_owners_in_sync (this (token_metadata.remove_endpoint endpoint s).2).
Proof.
  intros Hc e. unfold token_metadata.remove_endpoint, remove_endpoint. unfold_M.
  simpl. rewrite elem_of_difference, elem_of_singleton, (Hc e). split.
  - intros [[k Hk] Hne]. exists k. rewrite lookup_remove_by_value, Hk.
    by rewrite decide_False.
  - intros [k Hk]. rewrite lookup_remove_by_value in Hk.
    destruct (_token_to_endpoint_map (this s) !! k) as [o|] eqn:Ho; [|done].
    destruct (decide (o = endpoint)); [done|]. injection Hk as ->. eauto.
Qed.

Lemma perform_owners_in_sync op s :
  normal_token_owners_in_sync (this s) →
  normal_token_owners_in_sync (this (perform op s).2).
Proof.
  intros Hc. destruct op; cbn [perform].
  - exact Hc.
  - by apply update_normal_tokens_owners_in_sync.
  - by apply remove_endpoint_owners_in_sync.
  - unfold token_metadata.add_bootstrap_tokens, add_bootstrap_tokens. unfold_M.
    destruct (find_bootstrap_collision _ _ _); exact Hc.
  - unfold modify, remove_bootstrap_tokens. simpl.
    destruct (decide (tokens = ∅)); exact Hc.
  - exact Hc.
  - exact Hc.
  - exact Hc.
  - exact Hc.
  - destruct (update_pending_ranges_frame strategy keyspace_name get_dc_rack s)
      as (pm & Hthis & _).
    unfold token_metadata.update_pending_ranges. rewrite Hthis. exact Hc.
  - exact Hc.
Qed.

(** The ring version of a snapshot never passes the static ring version. *)
Lemma perform_ring_version op s :
  _ring_version (this s) <= _static_ring_version s →
  _ring_version (this (perform op s).2) <= _static_ring_version (perform op s).2
  ∧ _ring_version (this s) <= _ring_version (this (perform op s).2)
  ∧ _static_ring_version s <= _static_ring_version (perform op s).2.
Proof.
  intros Hc. destruct op; cbn [perform]; try (simpl; lia).
  - unfold token_metadata.update_normal_tokens.
    destruct (decide (tokens = ∅)) as [->|Hne].
    { rewrite update_normal_tokens_empty. simpl. lia. }
    destruct (topology.has_endpoint (_topology (this s)) endpoint) eqn:Htopo.
    + rewrite update_normal_tokens_run by done. simpl. lia.
    + rewrite update_normal_tokens_not_member by done. simpl. lia.
  - unfold token_metadata.add_bootstrap_tokens, add_bootstrap_tokens. unfold_M.
    destruct (find_bootstrap_collision _ _ _); simpl; lia.
  - unfold modify, remove_bootstrap_tokens. simpl.
    destruct (decide (tokens = ∅)); simpl; lia.
  - destruct (update_pending_ranges_frame strategy keyspace_name get_dc_rack s)
      as (pm & Hthis & _).
    pose proof (grows_update_pending_ranges strategy keyspace_name get_dc_rack s).
    unfold token_metadata.update_pending_ranges. rewrite Hthis. simpl. lia.
Qed.

Lemma for_each_perform_ring_version ops s :
  _ring_version (this s) <= _static_ring_version s →
  _ring_version (this (for_each ops perform s).2)
    <= _static_ring_version (for_each ops perform s).2
  ∧ _ring_version (this s) <= _ring_version (this (for_each ops perform s).2)
  ∧ _static_ring_version s <= _static_ring_version (for_each ops perform s).2.
Proof.
  revert s. induction ops as [|op ops IH]; intros s Hc; simpl.
  - lia.
  - unfold mbind, M_bind, bind.
    destruct (perform_ring_version op s Hc) as (H1 & H2 & H3).
    destruct (perform op s) as [[e|[]] s1]; simpl in *; [lia|].
    destruct (IH s1 H1) as (H4 & H5 & H6). lia.
Qed.

End more_invariants.

(** X9. In every snapshot built by the public mutations,
    [normal_token_owners] is exactly the set of endpoints that own a token
    of the token map, so [is_normal_token_owner] tells whether an endpoint
    owns a token. *)
Theorem reachable_normal_token_owners (s : st token_metadata_impl.t)
    (endpoint : inet_address) :
  reachable s →
  is_normal_token_owner endpoint (this s) = true
  ↔ ∃ tok, get_endpoint tok (this s) = Some endpoint.
Proof.
  intros Hr. unfold is_normal_token_owner, get_endpoint.
  rewrite bool_decide_eq_true.
  revert endpoint. change (normal_token_owners_in_sync (this s)).
  induction Hr as [v|op s Hr IH].
  - intros e. simpl. split; [set_solver|]. intros [k Hk]. by rewrite lookup_empty in Hk.
  - by apply perform_owners_in_sync.
Qed.

Lemma reachable_normal_token_owners_witness :
  let s := (perform (remove_endpoint_ 2%N)
              (perform (update_normal_tokens_ {[key 20]} 2%N)
                 (perform (update_normal_tokens_ {[key 10]} 1%N)
                    (perform (update_topology_ 2%N (mk_dc_rack "dc" "rack") (Some normal))
                       (perform (update_topology_ 1%N (mk_dc_rack "dc" "rack") (Some normal))
                          (mk_st init 0)).2).2).2).2).2 in
  reachable s
  ∧ is_normal_token_owner 1%N (this s) = true
  ∧ (∃ tok, get_endpoint tok (this s) = Some 1%N)
  ∧ ¬ ∃ tok, get_endpoint tok (this s) = Some 2%N.
Proof.
  intros s.
  assert (Hr : reachable s) by (do 5 apply reachable_step; apply reachable_init).
  split; [exact Hr|]. split; [vm_compute; reflexivity|]. split.
  - apply (reachable_normal_token_owners s 1%N Hr). vm_compute. reflexivity.
  - intros H. apply (reachable_normal_token_owners s 2%N Hr) in H.
    vm_compute in H. discriminate.
Defined.

(** X10. In every snapshot built by the public mutations, [sorted_tokens]
    is strictly ascending and holds every key of the token map: a lookup in
    the ring never misses a token that has an owner. It therefore has no
    duplicate and at least as many tokens as the token map has keys. *)
Theorem reachable_sorted_tokens_cover_token_map (s : st token_metadata_impl.t) :
  reachable s →
  StronglySorted token_lt (sorted_tokens (this s))
  ∧ (∀ tok, is_Some (get_endpoint tok (this s)) → tok ∈ sorted_tokens (this s))
  ∧ NoDup (sorted_tokens (this s))
  ∧ (size (_token_to_endpoint_map (this s)) ≤ length (sorted_tokens (this s)))%nat.
Proof.
  intros Hr. destruct (reachable_cover s Hr) as [Hs Hk].
  unfold sorted_tokens, get_endpoint.
  split; [exact Hs|]. split; [exact Hk|].
  assert (Hnd : NoDup (_sorted_tokens (this s))).
  { clear -Hs. induction Hs as [|a l Hs IH Hall]; constructor; [|done].
    intros Hin. rewrite Forall_forall in Hall.
    by apply (token_lt_irrefl a), Hall. }
  split; [exact Hnd|].
  rewrite <- (length_map_to_list (_token_to_endpoint_map (this s))).
  rewrite <- (length_fmap fst).
  apply submseteq_length, NoDup_submseteq; [apply NoDup_fst_map_to_list|].
  intros k [[k' x] [-> Hin]]%list_elem_of_fmap.
  apply Hk. apply elem_of_map_to_list in Hin. simpl. eauto.
Qed.

Lemma reachable_sorted_tokens_cover_token_map_witness :
  let s := (perform (update_normal_tokens_ {[key 1]} 7%N)
              (perform (update_normal_tokens_ {[key 1; key 2]} 7%N)
                 (perform (update_topology_ 7%N (mk_dc_rack "dc" "rack") (Some normal))
                    (mk_st init 0)).2).2).2 in
  reachable s
  ∧ sorted_tokens (this s) = [key 1; key 2]
  ∧ StronglySorted token_lt (sorted_tokens (this s))
  ∧ ∀ tok, is_Some (get_endpoint tok (this s)) → tok ∈ sorted_tokens (this s).
Proof.
  intros s.
  assert (Hr : reachable s) by (do 3 apply reachable_step; apply reachable_init).
  split; [exact Hr|]. split; [vm_compute; reflexivity|].
  destruct (reachable_sorted_tokens_cover_token_map s Hr) as (Hs & Hk & _).
  split; [exact Hs|exact Hk].
Defined.

(** X11. A public mutation never lowers the ring version of the snapshot
    or the static ring version, and keeps the ring version at or below the
    static one. [update_normal_tokens] with a non-empty set for a member of
    the topology, [remove_endpoint] and [invalidate_cached_rings] give the
    snapshot the next static ring version; the mutations of the topology
    and of the bootstrap, leaving and replacing sets, and
    [update_pending_ranges], leave the ring version of the snapshot as it
    is. *)
Theorem perform_ring_version_moves (op : mutation)
    (s : st token_metadata_impl.t) :
  _ring_version (this s) <= _static_ring_version s →
  (_ring_version (this (perform op s).2) <= _static_ring_version (perform op s).2
   ∧ _ring_version (this s) <= _ring_version (this (perform op s).2)
   ∧ _static_ring_version s <= _static_ring_version (perform op s).2)
  ∧ match op with
    | update_normal_tokens_ tokens endpoint =>
        tokens ≠ ∅ → topology.has_endpoint (_topology (this s)) endpoint = true →
        _ring_version (this (perform op s).2) = _static_ring_version s + 1
    | remove_endpoint_ _ | invalidate_cached_rings_ =>
        _ring_version (this (perform op s).2) = _static_ring_version s + 1
    | _ => _ring_version (this (perform op s).2) = _ring_version (this s)
    end.
Proof.
  intros Hc. split; [by apply perform_ring_version|].
  destruct op; cbn [perform]; try reflexivity.
  - intros Hne Htopo. unfold token_metadata.update_normal_tokens.
    by rewrite update_normal_tokens_run.
  - unfold token_metadata.add_bootstrap_tokens, add_bootstrap_tokens. unfold_M.
    destruct (find_bootstrap_collision _ _ _); reflexivity.
  - unfold modify, remove_bootstrap_tokens. simpl.
    destruct (decide (tokens = ∅)); reflexivity.
  - destruct (update_pending_ranges_frame strategy keyspace_name get_dc_rack s)
      as (pm & Hthis & _).
    unfold token_metadata.update_pending_ranges. by rewrite Hthis.
Qed.

Lemma perform_ring_version_moves_witness :
  let s := (perform (update_topology_ 1%N (mk_dc_rack "dc" "rack") (Some normal))
              (mk_st init 4)).2 in
  _ring_version (this s) <= _static_ring_version s
  ∧ _ring_version (this (perform (add_leaving_endpoint_ 1%N) s).2) = 0
  ∧ _ring_version (this (perform (remove_endpoint_ 1%N) s).2) = 5.
Proof.
  intros s.
  assert (Hc : _ring_version (this s) <= _static_ring_version s)
    by (vm_compute; discriminate).
  split; [exact Hc|]. split.
  - rewrite (proj2 (perform_ring_version_moves (add_leaving_endpoint_ 1%N) s Hc)).
    reflexivity.
  - rewrite (proj2 (perform_ring_version_moves (remove_endpoint_ 1%N) s Hc)).
    reflexivity.
Defined.

(** X12. When the published ring version is at most the static ring
    version and the function given to [mutate_token_metadata] is a sequence
    of public mutations none of which throws, [mutate_token_metadata]
    succeeds: the non-increasing-version error of [set] does not occur, and
    the version it publishes is strictly greater than the one published
    before and at most the static ring version. *)
Theorem mutate_token_metadata_publishes (ops : list mutation)
    (s : st shared_token_metadata.t) :
  published_version s <= _static_ring_version s →
  (for_each ops perform (func_input s)).1 = inr tt →
  ∃ s', shared_token_metadata.mutate_token_metadata (for_each ops perform) s
        = (inr tt, s')
      ∧ shared_token_metadata._shared (this s')
        = this (for_each ops perform (func_input s)).2
      ∧ published_version s < published_version s'
      ∧ published_version s' <= _static_ring_version s'.
Proof.
  intros Hpub Hok.
  unfold shared_token_metadata.mutate_token_metadata.
  unfold mbind, M_bind, bind, get. cbn beta iota.
  rewrite on_object_run. cbn beta iota. cbn [fst snd this _static_ring_version].
  unfold func_input in Hok.
  unfold token_metadata.invalidate_cached_rings, invalidate_cached_rings in *.
  cbn beta iota zeta in *. cbn [fst snd this _static_ring_version] in *.
  set (s0 := mk_st (with_ring_version (_static_ring_version s + 1)
                      (token_metadata.clone_async (shared_token_metadata._shared (this s))))
                   (_static_ring_version s + 1)) in *.
  assert (Hinv : _ring_version (this s0) <= _static_ring_version s0) by (simpl; lia).
  destruct (for_each_perform_ring_version ops s0 Hinv) as (H1 & H2 & H3).
  destruct (for_each ops perform s0) as [[e|[]] s1] eqn:Hrun; simpl in Hok;
    [discriminate|].
  cbn [fst snd] in *.
  assert (Hlt : published_version s < _ring_version (this s1)).
  { simpl in H2. lia. }
  rewrite set_installs; [|simpl; exact Hlt].
  eexists. split; [reflexivity|]. simpl.
  split; [unfold func_input, token_metadata.invalidate_cached_rings,
            invalidate_cached_rings; simpl; fold s0; by rewrite Hrun|].
  unfold published_version, token_metadata.get_ring_version, get_ring_version in *.
  simpl. lia.
Qed.

Lemma mutate_token_metadata_publishes_witness :
  let s := mk_st (shared_token_metadata.mk init) 0 in
  let ops := [update_topology_ 1%N (mk_dc_rack "dc" "rack") (Some normal);
              update_normal_tokens_ {[key 10]} 1%N] in
  published_version s <= _static_ring_version s
  ∧ (for_each ops perform (func_input s)).1 = inr tt
  ∧ ∃ s', shared_token_metadata.mutate_token_metadata (for_each ops perform) s
          = (inr tt, s')
        ∧ published_version s < published_version s'.
Proof.
  intros s ops.
  assert (H1 : published_version s <= _static_ring_version s)
    by (vm_compute; discriminate).
  assert (H2 : (for_each ops perform (func_input s)).1 = inr tt)
    by (vm_compute; reflexivity).
  split; [exact H1|]. split; [exact H2|].
  destruct (mutate_token_metadata_publishes ops s H1 H2) as (s' & Hrun & _ & Hlt & _).
  exists s'. auto.
Defined.

(** ** [remove_endpoint] *)

(** X13. [token_metadata::remove_endpoint] always succeeds. Afterwards the
    endpoint owns no normal token and no bootstrap token, is not leaving,
    is not being replaced, is not in the topology and is not a normal token
    owner; the tokens of the other endpoints are as before; [sorted_tokens]
    is the ascending sort of the keys of the token map; and the snapshot
    has the next static ring version. A replacing pair in which the endpoint
    is the replacing node stays. *)
Theorem remove_endpoint_erases_the_endpoint (endpoint : inet_address)
    (s : st token_metadata_impl.t) :
  ∃ s', token_metadata.remove_endpoint endpoint s = (inr tt, s')
    ∧ (∀ tok, get_endpoint tok (this s')
              = match get_endpoint tok (this s) with
                | Some o => if decide (o = endpoint) then None else Some o
                | None => None
                end)
    ∧ (∀ tok, _bootstrap_tokens (this s') !! tok
              = match _bootstrap_tokens (this s) !! tok with
                | Some o => if decide (o = endpoint) then None else Some o
                | None => None
                end)
    ∧ is_leaving endpoint (this s') = false
    ∧ is_being_replaced endpoint (this s') = false
    ∧ topology.has_endpoint (_topology (this s')) endpoint = false
    ∧ is_normal_token_owner endpoint (this s') = false
    ∧ (∀ existing, existing ≠ endpoint →
         _replacing_endpoints (this s') !! existing
         = _replacing_endpoints (this s) !! existing)
    ∧ sorted_tokens_in_sync (this s')
    ∧ _ring_version (this s') = _static_ring_version s + 1
    ∧ _static_ring_version s' = _static_ring_version s + 1.
Proof.
  unfold token_metadata.remove_endpoint, remove_endpoint. unfold_M.
  eexists. split; [reflexivity|]. simpl.
  split; [intros tok; unfold get_endpoint; simpl; apply lookup_remove_by_value|].
  split; [intros tok; apply lookup_remove_by_value|].
  split; [unfold is_leaving; simpl; apply bool_decide_eq_false_2; set_solver|].
  split.
  { unfold is_being_replaced. simpl. apply bool_decide_eq_false_2.
    rewrite lookup_delete_eq. by intros [? ?]. }
  split.
  { unfold topology.has_endpoint, topology.remove_endpoint.
    apply bool_decide_eq_false_2. rewrite lookup_delete_eq. by intros [? ?]. }
  split; [unfold is_normal_token_owner; simpl; apply bool_decide_eq_false_2; set_solver|].
  split; [intros existing Hne; by rewrite lookup_delete_ne|].
  split; [|done].
  match goal with |- sorted_tokens_in_sync (sort_tokens ?tm) =>
    apply (sort_tokens_in_sync tm) end.
Qed.

(** ** [add_bootstrap_tokens] again *)

Lemma add_bootstrap_tokens_run (tokens : gset token) (endpoint : inet_address)
    (s : st token_metadata_impl.t) :
  find_bootstrap_collision (this s) endpoint (elements tokens) = None →
  add_bootstrap_tokens tokens endpoint s
  = (inr tt,
     mk_st (with_bootstrap_tokens
              (set_fold (λ t b, <[t := endpoint]> b)
                 (remove_by_value (_bootstrap_tokens (this s)) endpoint) tokens)
              (this s))
           (_static_ring_version s)).
Proof.
  intros Hf. unfold add_bootstrap_tokens. unfold_M. rewrite Hf.
  destruct s as [[] ?]. reflexivity.
Qed.

Lemma add_bootstrap_tokens_throw (tokens : gset token) (endpoint : inet_address)
    (s : st token_metadata_impl.t) e :
  find_bootstrap_collision (this s) endpoint (elements tokens) = Some e →
  add_bootstrap_tokens tokens endpoint s = (inl e, s).
Proof. intros Hf. unfold add_bootstrap_tokens. unfold_M. by rewrite Hf. Qed.

(** X14. A second [add_bootstrap_tokens] with the same tokens and endpoint
    succeeds like the first and changes nothing: the whole state, ring
    version and static ring version included, is the one the first call
    left. *)
Theorem add_bootstrap_tokens_twice (tokens : gset token)
    (endpoint : inet_address) (s s1 : st token_metadata_impl.t) :
  add_bootstrap_tokens tokens endpoint s = (inr tt, s1) →
  add_bootstrap_tokens tokens endpoint s1 = (inr tt, s1).
Proof.
  destruct (find_bootstrap_collision (this s) endpoint (elements tokens)) as [e|] eqn:Hf.
  { rewrite (add_bootstrap_tokens_throw _ _ _ _ Hf). discriminate. }
  rewrite (add_bootstrap_tokens_run _ _ _ Hf). intros [= <-].
  rewrite find_bootstrap_collision_None in Hf.
  rewrite add_bootstrap_tokens_run.
  - f_equal. f_equal. destruct s as [[] v]. unfold with_bootstrap_tokens. simpl.
    f_equal. apply map_eq. intros tok.
    rewrite lookup_set_fold_insert, lookup_remove_by_value, lookup_set_fold_insert.
    destruct (decide (tok ∈ tokens)); [done|].
    rewrite lookup_remove_by_value.
    destruct (_ !! tok) as [o|]; [|done].
    destruct (decide (o = endpoint)); [done|]. by rewrite decide_False.
  - apply find_bootstrap_collision_None.
    intros tok Hin [(old & Hold & Hne)|(old & Hold & Hne)]; simpl in Hold.
    + rewrite lookup_set_fold_insert, decide_True in Hold by set_solver. congruence.
    + apply (Hf tok Hin). right. by exists old.
Qed.

Lemma add_bootstrap_tokens_twice_witness :
  let s := mk_st (with_bootstrap_tokens {[key 15 := 4%N; key 16 := 5%N]} init) 3 in
  ∃ s1, add_bootstrap_tokens {[key 20]} 4%N s = (inr tt, s1)
        ∧ add_bootstrap_tokens {[key 20]} 4%N s1 = (inr tt, s1).
Proof.
  intros s. eexists. split; [vm_compute; reflexivity|].
  apply (add_bootstrap_tokens_twice {[key 20]} 4%N s). vm_compute. reflexivity.
Defined.

(** ** Intervals back to ranges *)

(** X15. [interval_to_range] accepts exactly the four bounds [open],
    [left_open], [right_open] and [closed] and throws on any other bits;
    for an accepted interval, [range_to_interval] of the result is the
    interval again. *)
Theorem range_to_interval_interval_to_range (i : icl.interval) :
  ((icl.bits i <= 3)%N →
     ∃ r, interval_to_range i = inr r ∧ range_to_interval r = i)
  ∧ ((3 < icl.bits i)%N →
     interval_to_range i = inl (runtime_error invalid_interval_bounds)).
Proof.
  destruct i as [lo up b]. unfold interval_to_range. simpl. split.
  - intros Hb.
    assert (Hcases : b = icl.static_open ∨ b = icl.static_left_open
                     ∨ b = icl.static_right_open ∨ b = icl.static_closed).
    { unfold icl.static_open, icl.static_left_open, icl.static_right_open,
        icl.static_closed. lia. }
    destruct Hcases as [-> | [-> | [-> | ->]]]; eexists; (split; [reflexivity|]);
      reflexivity.
  - intros Hb.
    rewrite !decide_False; [reflexivity|..];
      unfold icl.static_open, icl.static_left_open, icl.static_right_open,
        icl.static_closed; lia.
Qed.

Lemma range_to_interval_interval_to_range_witness :
  (icl.bits (icl.left_open (key 1) (key 9)) <= 3)%N
  ∧ (∃ r, interval_to_range (icl.left_open (key 1) (key 9)) = inr r
          ∧ range_to_interval r = icl.left_open (key 1) (key 9))
  ∧ interval_to_range (icl.mk_interval (key 1) (key 9) 4)
    = inl (runtime_error invalid_interval_bounds).
Proof.
  assert (H : (icl.bits (icl.left_open (key 1) (key 9)) <= 3)%N)
    by (vm_compute; discriminate).
  split; [exact H|]. split.
  - exact (proj1 (range_to_interval_interval_to_range _) H).
  - apply (proj2 (range_to_interval_interval_to_range _)). vm_compute. reflexivity.
Defined.

(** ** [clone_after_all_left] *)

Section all_left.

Implicit Types (tm : token_metadata_impl.t) (endpoint : inet_address)
  (l : list inet_address) (s : st token_metadata_impl.t).

Lemma remove_endpoint_run endpoint s :
  remove_endpoint endpoint s
  = (inr tt,
     mk_st (token_metadata_impl.mk
              (remove_by_value (_token_to_endpoint_map (this s)) endpoint)
              (_normal_token_owners (this s) ∖ {[endpoint]})
              (remove_by_value (_bootstrap_tokens (this s)) endpoint)
              (_leaving_endpoints (this s) ∖ {[endpoint]})
              (delete endpoint (_replacing_endpoints (this s)))
              (_pending_ranges_interval_map (this s))
              (_sorted_tokens (this s))
              (topology.remove_endpoint endpoint (_topology (this s)))
              (_static_ring_version s + 1))
           (_static_ring_version s + 1)).
Proof. reflexivity. Qed.

Lemma for_each_remove_endpoint l : ∀ s,
  ∃ s', for_each l remove_endpoint s = (inr tt, s')
    ∧ (∀ tok, _token_to_endpoint_map (this s') !! tok
              = match _token_to_endpoint_map (this s) !! tok with
                | Some o => if decide (o ∈ l) then None else Some o
                | None => None
                end)
    ∧ (∀ ep, _topology (this s') !! ep
             = if decide (ep ∈ l) then None else _topology (this s) !! ep)
    ∧ (_bootstrap_tokens (this s) = ∅ → _bootstrap_tokens (this s') = ∅)
    ∧ (_leaving_endpoints (this s) = ∅ → _leaving_endpoints (this s') = ∅)
    ∧ (_replacing_endpoints (this s) = ∅ → _replacing_endpoints (this s') = ∅)
    ∧ _pending_ranges_interval_map (this s') = _pending_ranges_interval_map (this s)
    ∧ _static_ring_version s' = _static_ring_version s + Z.of_nat (length l).
Proof.
  induction l as [|x l IH]; intros s.
  - exists s. simpl. split; [done|].
    split; [intros tok; by destruct (_ !! tok)|].
    split; [done|]. repeat (split; [done|]). lia.
  - simpl. unfold mbind, M_bind, bind. rewrite remove_endpoint_run.
    match goal with |- context [for_each l remove_endpoint ?s1] =>
      destruct (IH s1) as (s' & Hrun & Hmap & Htopo & Hb & Hl & Hr & Hp & Hv) end.
    exists s'. split; [exact Hrun|]. simpl in *.
    split.
    { intros tok. rewrite Hmap, lookup_remove_by_value.
      destruct (_ !! tok) as [o|]; [|done].
      destruct (decide (o = x)) as [->|Hne].
      - by rewrite decide_True by (by left).
      - destruct (decide (o ∈ l)).
        + by rewrite decide_True by (by right).
        + rewrite decide_False; [done|]. by intros [?|?]%elem_of_cons. }
    split.
    { intros ep. rewrite Htopo. unfold topology.remove_endpoint.
      destruct (decide (ep ∈ l)).
      - by rewrite decide_True by (by right).
      - destruct (decide (ep = x)) as [->|Hne].
        + rewrite lookup_delete_eq. by rewrite decide_True by (by left).
        + rewrite lookup_delete_ne by done.
          rewrite decide_False; [done|]. by intros [?|?]%elem_of_cons. }
    split.
    { intros Hempty. apply Hb. rewrite Hempty. apply map_filter_empty. }
    split; [intros Hempty; apply Hl; rewrite Hempty; set_solver|].
    split; [intros Hempty; apply Hr; rewrite Hempty; apply delete_empty|].
    split; [done|]. lia.
Qed.

End all_left.

(** X16. [clone_after_all_left] never throws and leaves the snapshot it is
    called on as it is. The clone has the normal tokens of the endpoints
    that are not leaving, with [sorted_tokens] their ascending sort, and the
    topology without the leaving endpoints; its bootstrap, leaving,
    replacing and pending-range containers are empty. The static ring
    version goes up by the number of leaving endpoints. *)
Theorem clone_after_all_left_drops_leaving (s : st token_metadata_impl.t) :
  ∃ clone s',
    clone_after_all_left s = (inr clone, s')
    ∧ this s' = this s
    ∧ _static_ring_version s'
      = _static_ring_version s + Z.of_nat (size (_leaving_endpoints (this s)))
    ∧ (∀ tok, get_endpoint tok clone
              = match get_endpoint tok (this s) with
                | Some o => if decide (o ∈ _leaving_endpoints (this s)) then None
                            else Some o
                | None => None
                end)
    ∧ sorted_tokens_in_sync clone
    ∧ (∀ ep, topology.has_endpoint (_topology clone) ep
             = topology.has_endpoint (_topology (this s)) ep
               && negb (is_leaving ep (this s)))
    ∧ _bootstrap_tokens clone = ∅ ∧ _leaving_endpoints clone = ∅
    ∧ _replacing_endpoints clone = ∅ ∧ _pending_ranges_interval_map clone = ∅.
Proof.
  unfold clone_after_all_left.
  unfold mbind, M_bind, bind, mret, M_ret, ret, get. cbn beta iota.
  rewrite on_object_run. cbn beta iota. cbn [fst snd].
  match goal with |- context [for_each ?l remove_endpoint ?s0] =>
    destruct (for_each_remove_endpoint l s0)
      as (s1 & Hrun & Hmap & Htopo & Hb & Hl & Hr & Hp & Hv);
    rewrite Hrun end.
  cbn beta iota. unfold modify. cbn [fst snd this _static_ring_version].
  eexists _, _. split; [reflexivity|]. cbn [this _static_ring_version].
  split; [reflexivity|]. split.
  { rewrite Hv. simpl. unfold size, set_size. simpl. lia. }
  split.
  { intros tok. unfold get_endpoint, sort_tokens. simpl. rewrite Hmap. simpl.
    destruct (_ !! tok) as [o|]; [|done].
    destruct (decide (o ∈ elements _)) as [Hin|Hnin].
    - by rewrite decide_True by (by apply elem_of_elements).
    - rewrite decide_False; [done|]. by rewrite <- elem_of_elements. }
  split; [apply sort_tokens_in_sync|].
  split.
  { intros ep. unfold topology.has_endpoint, is_leaving, sort_tokens. simpl.
    rewrite Htopo. simpl. unfold topology.clone_gently.
    destruct (decide (ep ∈ elements _)) as [Hin|Hnin].
    - apply elem_of_elements in Hin.
      rewrite (bool_decide_eq_true_2 (ep ∈ _)) by done.
      rewrite andb_false_r. apply bool_decide_eq_false_2. by intros [? ?].
    - rewrite elem_of_elements in Hnin.
      rewrite (bool_decide_eq_false_2 (ep ∈ _)) by done.
      by rewrite andb_true_r. }
  unfold sort_tokens. simpl.
  split; [by apply Hb|]. split; [by apply Hl|]. split; [by apply Hr|].
  by rewrite Hp.
Qed.

(** ** [mutate_on_all_shards] *)

Section all_shards.

Import shared_token_metadata.

Lemma set_on_all_installs (xs : list (shared_token_metadata.t * token_metadata_impl.t))
    (v : Z) :
  (∀ x, x ∈ xs → _ring_version (_shared x.1) < _ring_version x.2) →
  set_on_all xs v = (inr tt, (λ x, mk x.2) <$> xs).
Proof.
  induction xs as [|x xs IH]; intros Hall; simpl; [done|].
  rewrite set_installs.
  2: { unfold published_version, token_metadata.get_ring_version, get_ring_version.
       simpl. apply Hall. by left. }
  rewrite IH; [done|]. intros y Hy. apply Hall. by right.
Qed.

Lemma clones_installed (others : list shared_token_metadata.t)
    (tm : token_metadata_impl.t) :
  (λ x : shared_token_metadata.t * token_metadata_impl.t, mk x.2)
    <$> zip others ((λ _, token_metadata.clone_async tm) <$> others)
  = (λ _, mk tm) <$> others.
Proof.
  induction others as [|o others IH]; [done|].
  cbn [fmap list_fmap zip zip_with fst snd].
  f_equal; [|exact IH].
  unfold token_metadata.clone_async. by rewrite clone_async_eq.
Qed.

End all_shards.

(** X17. [mutate_on_all_shards], on the shards' published snapshots. When
    the function throws on the clone made on shard 0, the exception comes
    out and no shard's snapshot has changed. When it succeeds and its
    result has a greater ring version than every shard publishes, every
    shard publishes that same snapshot. *)
Theorem mutate_on_all_shards_all_or_nothing
    (func : M token_metadata_impl.t unit)
    (local : shared_token_metadata.t) (others : list shared_token_metadata.t)
    (v : Z) :
  let s := mk_st (local :: others) v in
  let run := func (func_input (mk_st local v)) in
  (∀ e, run.1 = inl e →
        (shared_token_metadata.mutate_on_all_shards func s).1 = inl e
        ∧ this (shared_token_metadata.mutate_on_all_shards func s).2 = local :: others)
  ∧ (run.1 = inr tt →
     (∀ stm, stm ∈ local :: others →
             _ring_version (shared_token_metadata._shared stm)
             < _ring_version (this run.2)) →
     (shared_token_metadata.mutate_on_all_shards func s).1 = inr tt
     ∧ this (shared_token_metadata.mutate_on_all_shards func s).2
       = (λ _, shared_token_metadata.mk (this run.2)) <$> (local :: others)).
Proof.
  intros s run. unfold run, s, func_input.
  unfold shared_token_metadata.mutate_on_all_shards.
  unfold mbind, M_bind, bind, get, throw. cbn beta iota.
  cbn [fst snd this _static_ring_version].
  rewrite on_object_run. cbn beta iota. cbn [fst snd this _static_ring_version].
  unfold token_metadata.invalidate_cached_rings, invalidate_cached_rings.
  cbn beta iota zeta. cbn [fst snd this _static_ring_version].
  destruct (func _) as [[e|[]] s1]; cbn [fst snd this _static_ring_version].
  - split; [|discriminate]. intros e' [= <-]. done.
  - split; [discriminate|]. intros _ Hall.
    rewrite set_on_all_installs.
    + cbn [fst snd]. split; [done|]. simpl. f_equal. apply clones_installed.
    + intros x Hx. simpl in Hx.
      apply elem_of_cons in Hx as [->|Hx]; [simpl; apply Hall; by left|].
      apply elem_of_zip_with in Hx as (stm & tm' & -> & Hstm & Htm).
      apply list_elem_of_fmap in Htm as (? & -> & _).
      cbn [fst snd]. unfold token_metadata.clone_async. rewrite clone_async_eq.
      apply Hall. by right.
Qed.

Lemma mutate_on_all_shards_all_or_nothing_witness :
  let local := shared_token_metadata.mk init in
  let others := [shared_token_metadata.mk init; shared_token_metadata.mk init] in
  let func := for_each [update_topology_ 1%N (mk_dc_rack "dc" "rack") (Some normal);
                        update_normal_tokens_ {[key 10]} 1%N] perform in
  let s := mk_st (local :: others) 0 in
  (func (func_input (mk_st local 0))).1 = inr tt
  ∧ (shared_token_metadata.mutate_on_all_shards func s).1 = inr tt
  ∧ this (shared_token_metadata.mutate_on_all_shards func s).2
    = (λ _, shared_token_metadata.mk (this (func (func_input (mk_st local 0))).2))
        <$> (local :: others).
Proof.
  intros local others func s.
  assert (Hok : (func (func_input (mk_st local 0))).1 = inr tt)
    by (vm_compute; reflexivity).
  split; [exact Hok|].
  apply (proj2 (mutate_on_all_shards_all_or_nothing func local others 0) Hok).
  intros stm Hin.
  repeat (apply elem_of_cons in Hin as [->|Hin]; [vm_compute; reflexivity|]).
  by apply not_elem_of_nil in Hin.
Defined.

(** ** More on [update_normal_tokens], [sort_tokens] and the bootstrap map *)

(** X18. A successful [update_normal_tokens] with a non-empty token set
    removes the bootstrap tokens of the endpoint and takes the endpoint out
    of the leaving set; it leaves the replacing map, the topology and the
    pending ranges as they are, and the bootstrap tokens of the other
    endpoints too, also for a token the endpoint has just been given. *)
Theorem update_normal_tokens_clears_own_transitions (tokens : gset token)
    (endpoint : inet_address) (s : st token_metadata_impl.t) :
  tokens ≠ ∅ →
  topology.has_endpoint (_topology (this s)) endpoint = true →
  ∃ s', update_normal_tokens tokens endpoint s = (inr tt, s')
    ∧ (∀ tok, _bootstrap_tokens (this s') !! tok
              = match _bootstrap_tokens (this s) !! tok with
                | Some o => if decide (o = endpoint) then None else Some o
                | None => None
                end)
    ∧ is_leaving endpoint (this s') = false
    ∧ (∀ ep, ep ≠ endpoint → is_leaving ep (this s') = is_leaving ep (this s))
    ∧ _replacing_endpoints (this s') = _replacing_endpoints (this s)
    ∧ _topology (this s') = _topology (this s)
    ∧ _pending_ranges_interval_map (this s') = _pending_ranges_interval_map (this s).
Proof.
  intros Hne Htopo. eexists. split; [by apply update_normal_tokens_run|].
  unfold updated. simpl.
  split; [intros tok; apply lookup_remove_by_value|].
  split; [unfold is_leaving; simpl; apply bool_decide_eq_false_2; set_solver|].
  split; [|done].
  intros ep Hep. unfold is_leaving. simpl. apply bool_decide_ext. set_solver.
Qed.

Lemma update_normal_tokens_clears_own_transitions_witness :
  let tm := with_leaving_endpoints {[1%N; 2%N]}
              (with_bootstrap_tokens {[key 10 := 1%N; key 20 := 2%N]}
                 (update_topology 1%N (mk_dc_rack "dc" "rack") (Some joining) init)) in
  let s := mk_st tm 0 in
  ({[key 20]} : gset token) ≠ ∅
  ∧ topology.has_endpoint (_topology (this s)) 1%N = true
  ∧ ∃ s', update_normal_tokens {[key 20]} 1%N s = (inr tt, s')
      ∧ _bootstrap_tokens (this s') !! key 10 = None
      ∧ _bootstrap_tokens (this s') !! key 20 = Some 2%N
      ∧ get_endpoint (key 20) (this s') = Some 1%N
      ∧ is_leaving 1%N (this s') = false
      ∧ is_leaving 2%N (this s') = true.
Proof.
  intros tm s.
  assert (Hne : ({[key 20]} : gset token) ≠ ∅).
  { intros H. apply (f_equal elements) in H. vm_compute in H. discriminate. }
  assert (Htopo : topology.has_endpoint (_topology (this s)) 1%N = true)
    by (vm_compute; reflexivity).
  split; [exact Hne|]. split; [exact Htopo|].
  destruct (update_normal_tokens_clears_own_transitions {[key 20]} 1%N s Hne Htopo)
    as (s' & Hrun & Hb & Hl & Hl' & _).
  exists s'. split; [exact Hrun|].
  rewrite !Hb, Hl, (Hl' 2%N) by discriminate.
  assert (Hs' : s' = (update_normal_tokens {[key 20]} 1%N s).2) by (by rewrite Hrun).
  split; [vm_compute; reflexivity|]. split; [vm_compute; reflexivity|].
  split; [rewrite Hs'; vm_compute; reflexivity|].
  split; [reflexivity|vm_compute; reflexivity].
Defined.

(** X19. Whatever [sorted_tokens] held, after [sort_tokens] it is the
    strictly ascending vector whose elements are exactly the keys of the
    token map, one entry per key; nothing else of the snapshot changes. *)
Theorem sort_tokens_sorts_the_keys (tm : token_metadata_impl.t) :
  sorted_tokens_in_sync (sort_tokens tm)
  ∧ length (sorted_tokens (sort_tokens tm)) = size (_token_to_endpoint_map tm)
  ∧ sort_tokens tm = with_sorted_tokens (sorted_tokens (sort_tokens tm)) tm.
Proof.
  split; [apply sort_tokens_in_sync|]. split; [|reflexivity].
  unfold sorted_tokens, sort_tokens. simpl.
  rewrite merge_sort_Permutation, length_fmap.
  apply length_map_to_list.
Qed.

(** Phase 2c reports a new token only for a token of the set that the map
    it started from did not hold. *)
Lemma insert_tokens_sorts (endpoint : inet_address) (tokens : gset token)
    (m : gmap token inet_address) :
  (insert_tokens endpoint tokens m).2 = true → ∃ k, k ∈ tokens ∧ m !! k = None.
Proof.
  intros Hflag.
  cut ((∀ k, is_Some (m !! k) → is_Some ((insert_tokens endpoint tokens m).1 !! k))
       ∧ ((insert_tokens endpoint tokens m).2 = true → ∃ k, k ∈ tokens ∧ m !! k = None)).
  { intros [_ H]. by apply H. }
  clear Hflag. unfold insert_tokens. revert tokens.
  apply (set_fold_ind_L
    (λ (r : gmap token inet_address * bool) (X : gset token),
       (∀ k, is_Some (m !! k) → is_Some (r.1 !! k))
       ∧ (r.2 = true → ∃ k, k ∈ X ∧ m !! k = None))).
  - split; [done|]. simpl. discriminate.
  - intros x X r Hx [IHk IHf]. unfold insert_token_step.
    destruct (r.1 !! x) as [prev|] eqn:Hprev; simpl.
    + split.
      * intros k Hk. destruct (decide (prev ≠ endpoint)); [|by apply IHk].
        destruct (decide (k = x)) as [->|Hne]; [by rewrite lookup_insert_eq|].
        rewrite lookup_insert_ne by done. by apply IHk.
      * intros (k & Hin & Hnone)%IHf. exists k. split; [set_solver|done].
    + split.
      * intros k Hk. destruct (decide (k = x)) as [->|Hne];
          [by rewrite lookup_insert_eq|].
        rewrite lookup_insert_ne by done. by apply IHk.
      * intros _. exists x. split; [set_solver|].
        destruct (m !! x) as [o|] eqn:Hm; [|done].
        destruct (IHk x) as [o' Ho']; [by rewrite Hm|]. congruence.
Qed.

(** [should_sort_tokens] ends up set exactly when some token of the set
    given to [update_normal_tokens] was not a key of the token map. *)
Lemma update_normal_tokens_sorts_iff (tokens : gset token) (endpoint : inet_address)
    (m : gmap token inet_address) :
  (insert_tokens endpoint (erase_previously_owned endpoint tokens m).2
     (erase_previously_owned endpoint tokens m).1).2 = true
  ↔ ∃ k, k ∈ tokens ∧ m !! k = None.
Proof.
  destruct (erase_previously_owned_spec endpoint tokens m) as [H1 H2].
  split.
  - intros (k & Hin & Hnone)%insert_tokens_sorts.
    apply H2 in Hin as [Hin Hown]. exists k. split; [done|].
    rewrite H1 in Hnone. by rewrite decide_False in Hnone by naive_solver.
  - intros (k & Hin & Hnone).
    destruct (insert_tokens _ _ _).2 eqn:Hflag; [done|]. exfalso.
    destruct (insert_tokens_no_sort endpoint _ _ Hflag k) as [o Ho].
    + rewrite insert_tokens_lookup, decide_True; [done|].
      apply H2. split; [done|]. by rewrite Hnone.
    + rewrite H1, Hnone in Ho. by destruct (decide _).
Qed.

(** Either the set holds every token the endpoint owns, or one of them can
    be named that it does not hold. *)
Lemma erased_token_dec (tokens : gset token) (endpoint : inet_address)
    (m : gmap token inet_address) :
  (∀ k, m !! k = Some endpoint → k ∈ tokens)
  ∨ (∃ k, m !! k = Some endpoint ∧ k ∉ tokens).
Proof.
  destruct (decide (map_Forall (λ k ep, ep = endpoint → k ∈ tokens) m)) as [Hall|Hex].
  - left. intros k Hk. by apply (Hall k endpoint).
  - right. apply map_not_Forall in Hex; [|apply _].
    destruct Hex as (k & ep & Hk & Hno). exists k.
    destruct (decide (ep = endpoint)) as [->|Hne]; [|exfalso; by apply Hno].
    split; [done|]. intros Hin. by apply Hno.
Qed.

(** X20. On a snapshot whose [sorted_tokens] is the ascending sort of the
    keys of the token map, a successful [update_normal_tokens] with a
    non-empty set keeps it so exactly when the call erases no token (the set
    holds every token the endpoint owned) or inserts one (some token of the
    set was not a key of the map). So an inserting call keeps it, also when
    it erases; and it is lost exactly by a call that erases a token of the
    endpoint and inserts none, every token of the set being a key already. *)
Theorem update_normal_tokens_in_sync_unless_only_erasing (tokens : gset token)
    (endpoint : inet_address) (s : st token_metadata_impl.t) :
  tokens ≠ ∅ →
  topology.has_endpoint (_topology (this s)) endpoint = true →
  sorted_tokens_in_sync (this s) →
  ∃ s', update_normal_tokens tokens endpoint s = (inr tt, s')
    ∧ (sorted_tokens_in_sync (this s')
       ↔ (∀ tok, get_endpoint tok (this s) = Some endpoint → tok ∈ tokens)
         ∨ (∃ tok, tok ∈ tokens ∧ get_endpoint tok (this s) = None))
    ∧ (¬ sorted_tokens_in_sync (this s')
       ↔ (∃ tok, get_endpoint tok (this s) = Some endpoint ∧ tok ∉ tokens)
         ∧ (∀ tok, tok ∈ tokens → is_Some (get_endpoint tok (this s)))).
Proof.
  intros Hne Htopo Hsync. eexists.
  split; [by apply update_normal_tokens_run|]. cbn [this].
  unfold get_endpoint.
  set (m := _token_to_endpoint_map (this s)).
  set (v := _static_ring_version s + 1).
  assert (Hiff : sorted_tokens_in_sync (updated tokens endpoint v (this s))
       ↔ (∀ tok, m !! tok = Some endpoint → tok ∈ tokens)
         ∨ (∃ tok, tok ∈ tokens ∧ m !! tok = None)).
  { split.
    - intros [_ Hk'].
      destruct (insert_tokens endpoint
         (erase_previously_owned endpoint tokens m).2
         (erase_previously_owned endpoint tokens m).1).2 eqn:Hflag.
      { right. exact (proj1 (update_normal_tokens_sorts_iff tokens endpoint m) Hflag). }
      left. intros tok Hown.
      destruct (decide (tok ∈ tokens)) as [|Hnot]; [done|]. exfalso.
      assert (is_Some (_token_to_endpoint_map (updated tokens endpoint v (this s)) !! tok))
        as [o Ho].
      { apply Hk'. unfold updated. fold m. rewrite Hflag. cbn [_sorted_tokens].
        apply Hsync. fold m. by rewrite Hown. }
      rewrite updated_lookup in Ho. fold m in Ho.
      rewrite decide_False, Hown, decide_True in Ho by done. discriminate.
    - intros [Hkeep|Hins].
      + by apply updated_in_sync_when_not_erasing.
      + apply updated_in_sync_when_inserting.
        exact (proj2 (update_normal_tokens_sorts_iff tokens endpoint m) Hins). }
  split; [exact Hiff|]. rewrite Hiff. split.
  - intros Hno. split.
    + destruct (erased_token_dec tokens endpoint m) as [Hkeep|Hex]; [|done].
      exfalso. apply Hno. by left.
    + intros tok Hin. destruct (m !! tok) as [o|] eqn:Hm; [done|].
      exfalso. apply Hno. right. by exists tok.
  - intros [(tok & Hown & Hnot) Hall] [Hkeep|(tok' & Hin & Hnone)].
    + by apply Hnot, Hkeep.
    + destruct (Hall tok' Hin) as [o Ho]. congruence.
Qed.

Lemma update_normal_tokens_in_sync_unless_only_erasing_witness :
  let s := (perform (update_normal_tokens_ {[key 10]} 1%N)
              (perform (update_topology_ 1%N (mk_dc_rack "dc" "rack") (Some normal))
                 (mk_st init 0)).2).2 in
  ({[key 20]} : gset token) ≠ ∅
  ∧ topology.has_endpoint (_topology (this s)) 1%N = true
  ∧ sorted_tokens_in_sync (this s)
  ∧ get_endpoint (key 10) (this s) = Some 1%N
  ∧ ∃ s', update_normal_tokens {[key 20]} 1%N s = (inr tt, s')
          ∧ sorted_tokens_in_sync (this s').
Proof.
  intros s.
  assert (Hne : ({[key 20]} : gset token) ≠ ∅).
  { intros H. apply (f_equal elements) in H. vm_compute in H. discriminate. }
  assert (Htopo : topology.has_endpoint (_topology (this s)) 1%N = true)
    by (vm_compute; reflexivity).
  assert (Hsync : sorted_tokens_in_sync (this s)).
  { assert (Hs : this s = sort_tokens (this s)) by (vm_compute; reflexivity).
    rewrite Hs. apply sort_tokens_in_sync. }
  split; [exact Hne|]. split; [exact Htopo|]. split; [exact Hsync|].
  split; [vm_compute; reflexivity|].
  destruct (update_normal_tokens_in_sync_unless_only_erasing _ _ s Hne Htopo Hsync)
    as (s' & Hrun & Hiff & _).
  exists s'. split; [exact Hrun|]. apply Hiff. right.
  exists (key 20). split; [set_solver|vm_compute; reflexivity].
Defined.

(** X21. [remove_bootstrap_tokens] removes exactly the given tokens from
    the bootstrap map, whichever endpoint they belong to, and changes
    nothing else; with an empty set it changes nothing. *)
Theorem remove_bootstrap_tokens_removes_the_tokens (tokens : gset token)
    (tm : token_metadata_impl.t) :
  (∀ tok, _bootstrap_tokens (remove_bootstrap_tokens tokens tm) !! tok
          = if decide (tok ∈ tokens) then None else _bootstrap_tokens tm !! tok)
  ∧ remove_bootstrap_tokens tokens tm
    = with_bootstrap_tokens (_bootstrap_tokens (remove_bootstrap_tokens tokens tm)) tm.
Proof.
  unfold remove_bootstrap_tokens.
  destruct (decide (tokens = ∅)) as [->|Hne].
  { split; [|by destruct tm]. intros tok. by rewrite decide_False by set_solver. }
  simpl. split; [|reflexivity]. intros tok.
  generalize (_bootstrap_tokens tm). intros b. clear Hne. revert tokens.
  apply (set_fold_ind_L
    (λ (r : gmap token inet_address) (X : gset token),
       r !! tok = if decide (tok ∈ X) then None else b !! tok)).
  - by rewrite decide_False by set_solver.
  - intros x X r Hx IH. destruct (decide (tok = x)) as [->|Hne].
    + rewrite lookup_delete_eq. by rewrite decide_True by set_solver.
    + rewrite lookup_delete_ne, IH by done.
      destruct (decide (tok ∈ X)); [rewrite decide_True by set_solver
                                   |rewrite decide_False by set_solver]; done.
Qed.
